(** * nion.utils.ListModel

    A shallow embedding of [nion/utils/ListModel.py]: the predicate tree
    ([Filter] and its subclasses), the plain container [ListModel] and the
    view engine [FilteredListModel], followed by the properties of the
    specification that are established or refuted on it.

    Conventions.
    - Python objects with identity (the items held by the lists) are natural
      numbers; what [getattr] sees of an item is its attribute dictionary,
      looked up in a store that maps identities to dictionaries.
    - Python exceptions are the [Raise] outcome of the [result] monad; each
      [assert] statement of the source has its own tag.
    - [notify_insert_item] and [notify_remove_item] come from
      [nion.utils.Observable], which is not part of the source file: they are
      modelled as appending a record to the log of emitted events. *)

From Stdlib Require Import ssreflect.
From Stdlib Require Import ZArith String.
From stdpp Require Import base list gmap strings sorting.

#[global] Open Scope general_if_scope.

Set Default Proof Using "Type".
#[global] Set Warnings "-rewrite-rw,-clear-no-such-hyp".

(** ** Outcomes of a call *)

Inductive assertion :=
  | A_index_le_old_index     (* assert index <= old_index *)
  | A_master_unique          (* assert len(set(master_items)) == len(master_items) *)
  | A_items_unique           (* assert len(set(items)) == len(items) *)
  | A_item_in_items          (* assert item in self.__items *)
  | A_item_not_in_items      (* assert item not in self.__items *)
  | A_item_to_remove         (* assert item_to_remove in self.__items *)
  | A_items_index            (* assert self.__items[index] == item *)
  | A_not_in_master          (* assert not item in self.__master_items *)
  | A_in_master.             (* assert item in self.__master_items *)

Inductive exn :=
  | AssertionError (a : assertion)
  | AttributeError
  | TypeError
  | IndexError
  | KeyError
  | ValueError
  | ReError                  (* re.error: the pattern is not a regular expression *)
  | OutOfFuel.
(** [OutOfFuel] is not a Python exception: it is the outcome of a [while]
    loop of the model whose iteration bound was too small.  The theorems on
    the loops show that the bounds used are large enough. *)

#[global] Instance assertion_eq_dec : EqDecision assertion.
Proof. solve_decision. Defined.
#[global] Instance exn_eq_dec : EqDecision exn.
Proof. solve_decision. Defined.

Inductive result (A : Type) :=
  | Ok (a : A)
  | Raise (e : exn).
Arguments Ok {A} a.
Arguments Raise {A} e.

#[global] Instance result_eq_dec `{EqDecision A} : EqDecision (result A).
Proof. solve_decision. Defined.

#[global] Instance result_ret : MRet result := λ A x, Ok x.
#[global] Instance result_bind : MBind result :=
  λ A B f m, match m with Ok a => f a | Raise e => Raise e end.

Definition py_assert (b : bool) (a : assertion) : result unit :=
  if b then Ok () else Raise (AssertionError a).

(** ** Python lists *)

Module PyList.
Section ops.
Context {A : Type} `{EqDecision A}.

(** [x in l] *)
Definition contains (x : A) (l : list A) : bool := bool_decide (x ∈ l).

(** [l.index(x)]: the first position of [x], [ValueError] when absent. *)
Fixpoint index (x : A) (l : list A) : result nat :=
  match l with
  | [] => Raise ValueError
  | y :: l' => if decide (y = x) then Ok 0 else i ← index x l'; Ok (S i)
  end.

(** [l.insert(i, x)] for [i >= 0]; an index past the end appends. *)
Definition insert (i : nat) (x : A) (l : list A) : list A :=
  take i l ++ x :: drop i l.

(** [l.insert(i, x)] for any Python integer: a negative index counts from
    the end and is clamped at 0. *)
Definition insert_index (i : Z) (n : nat) : nat :=
  if (i <? 0)%Z then Z.to_nat (Z.max 0 (i + Z.of_nat n))
  else Nat.min (Z.to_nat i) n.

Definition insertz (i : Z) (x : A) (l : list A) : list A :=
  insert (insert_index i (length l)) x l.

(** [l[i]] for [i >= 0] *)
Definition getitem (i : nat) (l : list A) : result A :=
  match l !! i with Some x => Ok x | None => Raise IndexError end.

(** [del l[i]] for [i >= 0] *)
Definition del (i : nat) (l : list A) : result (list A) :=
  if decide (i < length l) then Ok (delete i l) else Raise IndexError.

(** the position [l[i]] and [del l[i]] address for any Python integer *)
Definition item_index (i : Z) (n : nat) : result nat :=
  let j := if (i <? 0)%Z then (i + Z.of_nat n)%Z else i in
  if (0 <=? j)%Z && (j <? Z.of_nat n)%Z then Ok (Z.to_nat j) else Raise IndexError.

Definition getitemz (i : Z) (l : list A) : result A :=
  k ← item_index i (length l); getitem k l.

Definition delz (i : Z) (l : list A) : result (list A) :=
  k ← item_index i (length l); del k l.

(** [len(set(l)) == len(l)] *)
Definition unique (l : list A) : bool := bool_decide (NoDup l).
End ops.
End PyList.

(** ** Items and their attributes *)

(** The values an attribute can hold, as far as the filters look at them. *)
Inductive value :=
  | VNone
  | VBool (b : bool)
  | VInt (n : Z)
  | VStr (s : string)
  | VDate (year month day : Z).

(** [operator.eq]; a Python [bool] is an [int]. *)
Definition as_int (v : value) : option Z :=
  match v with
  | VBool b => Some (if b then 1 else 0)%Z
  | VInt n => Some n
  | _ => None
  end.

Definition operator_eq (a b : value) : bool :=
  match as_int a, as_int b with
  | Some m, Some n => (m =? n)%Z
  | _, _ =>
    match a, b with
    | VNone, VNone => true
    | VStr s, VStr t => String.eqb s t
    | VDate y m d, VDate y' m' d' => (y =? y')%Z && (m =? m')%Z && (d =? d')%Z
    | _, _ => false
    end
  end.

(** The attribute dictionary of an object. *)
Abbreviation attrs := (gmap string value).

Definition getattr (d : attrs) (key : string) : result value :=
  match d !! key with Some v => Ok v | None => Raise AttributeError end.

(** [re.search(pattern, s, re.IGNORECASE) is not None] belongs to Python's
    standard library; the development is parametric in it.  [None] stands
    for a pattern that [re] rejects.  [matches] below looks at the pattern
    only when the attribute is a string: for another value it raises
    [TypeError] whatever the pattern is. *)
Class Regex := re_search_ignorecase : string → string → option bool.

(** ** The predicate tree *)

(** The callables a filter holds, [cmp] and [predicate], are functions
    here: they return a boolean for every argument and do nothing else.
    [HostFilter] below lets them act on the host program. *)
#[warnings="-register-all"]
Inductive Filter :=
  | BaseFilter (default : bool)                     (* class Filter *)
  | AndFilter (filters : list Filter)
  | OrFilter (filters : list Filter)
  | NotFilter (filter : Filter)
  | EqFilter (key : string) (v : value) (cmp : value → value → bool)
  | NotEqFilter (key : string) (v : value) (cmp : value → value → bool)
  | StartsWithFilter (key : string) (v : string)
  | TextFilter (key : string) (text : string)
  | PartialDateFilter (key : string) (year month day : option Z)
  | PredicateFilter (predicate : attrs → bool).

(** [cmp if cmp else operator.eq] in the constructors of [EqFilter] and
    [NotEqFilter] *)
Definition cmp_or_eq (cmp : option (value → value → bool)) : value → value → bool :=
  default operator_eq cmp.

(** [all(...)] and [any(...)] over the lazily mapped children: the first
    child that decides the result, or raises, ends the evaluation. *)
Fixpoint py_all (rs : list (result bool)) : result bool :=
  match rs with
  | [] => Ok true
  | r :: rs' => b ← r; if b : bool then py_all rs' else Ok false
  end.

Fixpoint py_any (rs : list (result bool)) : result bool :=
  match rs with
  | [] => Ok false
  | r :: rs' => b ← r; if b : bool then Ok true else py_any rs'
  end.

(** truth value of an optional integer field: [None] and [0] are false *)
Definition truthy (o : option Z) : bool :=
  match o with
  | Some n => negb (n =? 0)%Z
  | None => false
  end.

(** [self.__year and d_value.year != self.__year], for one field: the
    attribute is read only when the field is truthy. *)
Definition field_differs (field : option Z) (d_value : value) (get : Z → Z → Z → Z)
  : result bool :=
  match field with
  | Some n =>
    if (n =? 0)%Z then Ok false
    else match d_value with
         | VDate y m d => Ok (negb (get y m d =? n)%Z)
         | _ => Raise AttributeError
         end
  | None => Ok false
  end.

Section matches.
Context `{Regex}.

Fixpoint matches (f : Filter) (d : attrs) : result bool :=
  match f with
  | BaseFilter default => Ok default
  | AndFilter filters => py_all (map (λ g, matches g d) filters)
  | OrFilter filters => py_any (map (λ g, matches g d) filters)
  | NotFilter filter => b ← matches filter d; Ok (negb b)
  | EqFilter key v cmp => d_value ← getattr d key; Ok (cmp d_value v)
  | NotEqFilter key v cmp => d_value ← getattr d key; Ok (negb (cmp d_value v))
  | StartsWithFilter key v =>
    d_value ← getattr d key;
    match d_value with
    | VStr s => Ok (String.prefix v s)
    | _ => Raise AttributeError
    end
  | TextFilter key text =>
    d_value ← getattr d key;
    match d_value with
    | VStr s =>
      match re_search_ignorecase text s with
      | Some b => Ok b
      | None => Raise ReError
      end
    | _ => Raise TypeError
    end
  | PartialDateFilter key year month day =>
    d_value ← getattr d key;
    ny ← field_differs year d_value (λ y _ _, y);
    if ny : bool then Ok false else
    nm ← field_differs month d_value (λ _ m _, m);
    if nm : bool then Ok false else
    nd ← field_differs day d_value (λ _ _ d, d);
    if nd : bool then Ok false else Ok true
  | PredicateFilter predicate => Ok (predicate d)
  end.
End matches.

(** ** Filters that hold callables of the host

    [PredicateFilter] calls a function it was given, and [EqFilter] and
    [NotEqFilter] can be given a comparison.  Python lets such a callable
    read and change the state of the host program, and raise.  The filters
    below hold callables with these liberties: a callable takes the state of
    the host and returns its outcome together with the state it leaves.
    [Filter] and [matches] above are the case of callables that are
    functions of their arguments. *)

#[warnings="-register-all"]
Inductive HostFilter (host : Type) :=
  | HostBase (default : bool)
  | HostAnd (filters : list (HostFilter host))
  | HostOr (filters : list (HostFilter host))
  | HostNot (filter : HostFilter host)
  | HostEq (key : string) (v : value) (cmp : value → value → host → result bool * host)
  | HostNotEq (key : string) (v : value) (cmp : value → value → host → result bool * host)
  | HostStartsWith (key : string) (v : string)
  | HostText (key : string) (text : string)
  | HostPartialDate (key : string) (year month day : option Z)
  | HostPredicate (predicate : attrs → host → result bool * host).
Arguments HostBase {host} default.
Arguments HostAnd {host} filters.
Arguments HostOr {host} filters.
Arguments HostNot {host} filter.
Arguments HostEq {host} key v cmp.
Arguments HostNotEq {host} key v cmp.
Arguments HostStartsWith {host} key v.
Arguments HostText {host} key text.
Arguments HostPartialDate {host} key year month day.
Arguments HostPredicate {host} predicate.

(** [all(...)] and [any(...)] over children whose evaluation acts on the
    host: the state is passed from each child to the next, and the first
    child that decides the result, or raises, ends the evaluation. *)
Fixpoint host_all {host : Type} (cs : list (host → result bool * host)) (h : host)
    : result bool * host :=
  match cs with
  | [] => (Ok true, h)
  | c :: cs' =>
    let '(r, h') := c h in
    match r with
    | Ok true => host_all cs' h'
    | _ => (r, h')
    end
  end.

Fixpoint host_any {host : Type} (cs : list (host → result bool * host)) (h : host)
    : result bool * host :=
  match cs with
  | [] => (Ok false, h)
  | c :: cs' =>
    let '(r, h') := c h in
    match r with
    | Ok false => host_any cs' h'
    | _ => (r, h')
    end
  end.

Section host_matches.
Context {host : Type} `{Regex}.

Fixpoint host_matches (f : HostFilter host) (d : attrs) (h : host) : result bool * host :=
  match f with
  | HostBase default => (Ok default, h)
  | HostAnd filters => host_all (map (λ g, host_matches g d) filters) h
  | HostOr filters => host_any (map (λ g, host_matches g d) filters) h
  | HostNot filter =>
    let '(r, h') := host_matches filter d h in (b ← r; Ok (negb b), h')
  | HostEq key v cmp =>
    match getattr d key with
    | Ok d_value => cmp d_value v h
    | Raise e => (Raise e, h)
    end
  | HostNotEq key v cmp =>
    match getattr d key with
    | Ok d_value => let '(r, h') := cmp d_value v h in (b ← r; Ok (negb b), h')
    | Raise e => (Raise e, h)
    end
  | HostStartsWith key v => (matches (StartsWithFilter key v) d, h)
  | HostText key text => (matches (TextFilter key text) d, h)
  | HostPartialDate key year month day => (matches (PartialDateFilter key year month day) d, h)
  | HostPredicate predicate => predicate d h
  end.
End host_matches.

(** A filter whose callables are functions, as a filter of the host. *)
Fixpoint lift {host : Type} (f : Filter) : HostFilter host :=
  match f with
  | BaseFilter default => HostBase default
  | AndFilter filters => HostAnd (map lift filters)
  | OrFilter filters => HostOr (map lift filters)
  | NotFilter filter => HostNot (lift filter)
  | EqFilter key v cmp => HostEq key v (λ a b h, (Ok (cmp a b), h))
  | NotEqFilter key v cmp => HostNotEq key v (λ a b h, (Ok (cmp a b), h))
  | StartsWithFilter key v => HostStartsWith key v
  | TextFilter key text => HostText key text
  | PartialDateFilter key year month day => HostPartialDate key year month day
  | PredicateFilter predicate => HostPredicate (λ d h, (Ok (predicate d), h))
  end.

(** Every callable the filter holds is pure: its outcome does not depend on
    the state of the host, and it leaves the state as it is. *)
Fixpoint pure_callables {host : Type} (f : HostFilter host) : Prop :=
  match f with
  | HostAnd filters | HostOr filters =>
    (fix all (fs : list (HostFilter host)) : Prop :=
       match fs with
       | [] => True
       | g :: fs' => pure_callables g ∧ all fs'
       end) filters
  | HostNot filter => pure_callables filter
  | HostEq _ _ cmp | HostNotEq _ _ cmp => ∀ a b, ∃ r, ∀ h, cmp a b h = (r, h)
  | HostPredicate predicate => ∀ d, ∃ r, ∀ h, predicate d h = (r, h)
  | _ => True
  end.

(** ** Events published downstream *)

Abbreviation Item := nat.

(** The attributes each object currently has. *)
Abbreviation store := (Item → attrs).

Inductive event :=
  | ItemInserted (key : string) (value : Item) (before_index : nat)
  | ItemRemoved (key : string) (value : Item) (index : nat).

(** ** The container: class ListModel *)

Record ListModel := {
  lm_key : string;
  lm_items : list Item }.

(** ** The view engine: class FilteredListModel *)

Record FilteredListModel := {
  items_key : string;
  master_items : list Item;          (* a list of source items (to be filtered) *)
  items : list Item;                 (* a list of filtered items *)
  filter : Filter;
  sort_key : option (attrs → Z);
  sort_reverse : bool;
  change_level : Z;
  listeners : gset Item;             (* keys of __library_item_changed_event_listeners *)
  emitted : list event }.            (* what notify_*_item has published, oldest first *)

Definition with_master (l : list Item) (s : FilteredListModel) :=
  {| items_key := items_key s; master_items := l; items := items s;
     filter := filter s; sort_key := sort_key s; sort_reverse := sort_reverse s;
     change_level := change_level s; listeners := listeners s; emitted := emitted s |}.

Definition with_items (l : list Item) (s : FilteredListModel) :=
  {| items_key := items_key s; master_items := master_items s; items := l;
     filter := filter s; sort_key := sort_key s; sort_reverse := sort_reverse s;
     change_level := change_level s; listeners := listeners s; emitted := emitted s |}.

Definition with_filter (f : Filter) (s : FilteredListModel) :=
  {| items_key := items_key s; master_items := master_items s; items := items s;
     filter := f; sort_key := sort_key s; sort_reverse := sort_reverse s;
     change_level := change_level s; listeners := listeners s; emitted := emitted s |}.

Definition with_sort_key (k : option (attrs → Z)) (s : FilteredListModel) :=
  {| items_key := items_key s; master_items := master_items s; items := items s;
     filter := filter s; sort_key := k; sort_reverse := sort_reverse s;
     change_level := change_level s; listeners := listeners s; emitted := emitted s |}.

Definition with_sort_reverse (b : bool) (s : FilteredListModel) :=
  {| items_key := items_key s; master_items := master_items s; items := items s;
     filter := filter s; sort_key := sort_key s; sort_reverse := b;
     change_level := change_level s; listeners := listeners s; emitted := emitted s |}.

Definition with_change_level (n : Z) (s : FilteredListModel) :=
  {| items_key := items_key s; master_items := master_items s; items := items s;
     filter := filter s; sort_key := sort_key s; sort_reverse := sort_reverse s;
     change_level := n; listeners := listeners s; emitted := emitted s |}.

Definition with_listeners (g : gset Item) (s : FilteredListModel) :=
  {| items_key := items_key s; master_items := master_items s; items := items s;
     filter := filter s; sort_key := sort_key s; sort_reverse := sort_reverse s;
     change_level := change_level s; listeners := g; emitted := emitted s |}.

Definition with_emitted (l : list event) (s : FilteredListModel) :=
  {| items_key := items_key s; master_items := master_items s; items := items s;
     filter := filter s; sort_key := sort_key s; sort_reverse := sort_reverse s;
     change_level := change_level s; listeners := listeners s; emitted := l |}.

(** Modelled from the spec: [Observable.notify_insert_item] and
    [Observable.notify_remove_item] publish the "item inserted at index" and
    "item removed at index" events to the downstream listeners. *)
Definition notify_insert_item (key : string) (value : Item) (before_index : nat)
    (s : FilteredListModel) : FilteredListModel :=
  with_emitted (emitted s ++ [ItemInserted key value before_index]) s.

Definition notify_remove_item (key : string) (value : Item) (index : nat)
    (s : FilteredListModel) : FilteredListModel :=
  with_emitted (emitted s ++ [ItemRemoved key value index]) s.

(** [FilteredListModel(items_key=key)], before a container is attached *)
Definition new_model (key : string) : FilteredListModel :=
  {| items_key := key; master_items := []; items := [];
     filter := BaseFilter true; sort_key := None; sort_reverse := false;
     change_level := 0; listeners := ∅; emitted := [] |}.

(** [operator.gt if self.sort_reverse else operator.lt] *)
Definition sort_operator (reverse : bool) : Z → Z → bool :=
  if reverse then Z.gtb else Z.ltb.

(** [list.sort(key=..., reverse=...)]: Python's sort is stable, and with
    [reverse=True] it still keeps the original order of equal keys (the list
    is reversed, sorted, and reversed again).  A stable insertion sort gives
    the same list as any other stable sort.  The sort key is a function
    that returns an integer for every item; a key that raises is not
    modelled. *)
Fixpoint sorted_insert (key : Item → Z) (x : Item) (l : list Item) : list Item :=
  match l with
  | [] => [x]
  | y :: l' => if (key x <=? key y)%Z then x :: l else y :: sorted_insert key x l'
  end.

Definition stable_sort (key : Item → Z) (l : list Item) : list Item :=
  foldr (sorted_insert key) [] l.

Definition py_sort (key : Item → Z) (rev : bool) (l : list Item) : list Item :=
  if rev then reverse (stable_sort key (reverse l)) else stable_sort key l.

Section engine.
Context `{Regex}.

(** The [while low < high] loop of [__find_sorted_index_for_item]. *)
Fixpoint find_sorted_index_loop (fuel : nat) (w : store) (item_sort_key : Z)
    (items : list Item) (sort_key : attrs → Z) (sort_operator : Z → Z → bool)
    (low high : nat) : result nat :=
  if decide (low < high) then
    match fuel with
    | 0 => Raise OutOfFuel
    | S fuel' =>
      let mid := (low + high) `div` 2 in
      x ← PyList.getitem mid items;
      if sort_operator (sort_key (w x)) item_sort_key
      then find_sorted_index_loop fuel' w item_sort_key items sort_key sort_operator (mid + 1) high
      else find_sorted_index_loop fuel' w item_sort_key items sort_key sort_operator low mid
    end
  else Ok low.

Definition find_sorted_index_for_item (w : store) (item : Item) (items : list Item)
    (sort_key : attrs → Z) (sort_operator : Z → Z → bool) : result nat :=
  let item_sort_key := sort_key (w item) in
  find_sorted_index_loop (length items) w item_sort_key items sort_key sort_operator
    0 (length items).

(** The [for item_ in master_items] loop of [__find_unsorted_index_for_item]. *)
Fixpoint find_unsorted_index_loop (w : store) (item : Item) (filter : Filter)
    (master_items : list Item) (index : nat) : result nat :=
  match master_items with
  | [] => Ok index
  | item_ :: rest =>
    if decide (item_ = item) then Ok index
    else
      b ← matches filter (w item_);
      find_unsorted_index_loop w item filter rest (if b : bool then S index else index)
  end.

Definition find_unsorted_index_for_item (w : store) (item : Item)
    (master_items : list Item) (filter : Filter) : result nat :=
  find_unsorted_index_loop w item filter master_items 0.

(** [__inserted_master_item]; the argument [before_index] is overwritten
    before it is read. *)
Definition inserted_master_item (w : store) (before_index : Z) (item : Item)
    (s : FilteredListModel) : result FilteredListModel :=
  if (0 <? change_level s)%Z then Ok s
  else
    b ← matches (filter s) (w item);
    if b : bool then
      before_index ←
        match sort_key s with
        | Some sort_key =>
          find_sorted_index_for_item w item (items s) sort_key
            (sort_operator (sort_reverse s))
        | None =>
          find_unsorted_index_for_item w item (master_items s) (filter s)
        end;
      Ok (notify_insert_item (items_key s) item before_index
            (with_items (PyList.insert before_index item (items s)) s))
    else Ok s.

(** [__removed_master_item]; the argument [index] is overwritten as well. *)
Definition removed_master_item (index : Z) (item : Item)
    (s : FilteredListModel) : result FilteredListModel :=
  if (0 <? change_level s)%Z then Ok s
  else if PyList.contains item (items s) then
    index ← PyList.index item (items s);
    x ← PyList.getitem index (items s);
    py_assert (bool_decide (x = item)) A_items_index;;
    items' ← PyList.del index (items s);
    Ok (notify_remove_item (items_key s) item index (with_items items' s))
  else Ok s.

(** [__updated_master_item] *)
Definition updated_master_item (w : store) (item : Item)
    (s : FilteredListModel) : result FilteredListModel :=
  if (0 <? change_level s)%Z then Ok s
  else
    b ← matches (filter s) (w item);
    if b : bool then
      match sort_key s with
      | Some sort_key =>
        before_index ← find_sorted_index_for_item w item (items s) sort_key
                         (sort_operator (sort_reverse s));
        if PyList.contains item (items s) then
          index ← PyList.index item (items s);
          if decide (before_index < index) then
            s1 ← removed_master_item (Z.of_nat index) item s;
            inserted_master_item w (Z.of_nat before_index) item s1
          else if decide (index < before_index) then
            s1 ← removed_master_item (Z.of_nat index) item s;
            inserted_master_item w (Z.of_nat before_index - 1) item s1
          else Ok s
        else inserted_master_item w (Z.of_nat before_index) item s
      | None =>
        if negb (PyList.contains item (items s))
        then inserted_master_item w 0 item s
        else Ok s
      end
    else if PyList.contains item (items s) then
      index ← PyList.index item (items s);
      removed_master_item (Z.of_nat index) item s
    else Ok s.

(** The filtering loop of [__build_items]. *)
Fixpoint filter_items (w : store) (filter : Filter) (master_items : list Item)
    : result (list Item) :=
  match master_items with
  | [] => Ok []
  | item :: rest =>
    b ← matches filter (w item);
    items ← filter_items w filter rest;
    Ok (if b : bool then item :: items else items)
  end.

(** [__build_items] *)
Definition build_items (w : store) (s : FilteredListModel) : result (list Item) :=
  let master_items := master_items s in
  py_assert (PyList.unique master_items) A_master_unique;;
  let master_items :=
    match sort_key s with
    | Some sort_key => py_sort (λ x, sort_key (w x)) (sort_reverse s) master_items
    | None => master_items
    end in
  filter_items w (filter s) master_items.

(** One round of the [for item in items] loop of [__update_items]: the
    engine, the working copy [old_items] and [index]. *)
Definition update_items_step (item : Item)
    (st : FilteredListModel * list Item * nat)
    : result (FilteredListModel * list Item * nat) :=
  let '(s, old_items, index) := st in
  if PyList.contains item old_items then
    old_index ← PyList.index item old_items;
    py_assert (bool_decide (index ≤ old_index)) A_index_le_old_index;;
    if decide (index < old_index) then
      py_assert (PyList.contains item (items s)) A_item_in_items;;
      old_items1 ← PyList.del old_index old_items;
      items1 ← PyList.del old_index (items s);
      let s1 := notify_remove_item (items_key s) item old_index (with_items items1 s) in
      py_assert (negb (PyList.contains item (items s1))) A_item_not_in_items;;
      let old_items2 := PyList.insert index item old_items1 in
      let s2 := notify_insert_item (items_key s1) item index
                  (with_items (PyList.insert index item (items s1)) s1) in
      Ok (s2, old_items2, S index)
    else Ok (s, old_items, S index)
  else
    py_assert (negb (PyList.contains item (items s))) A_item_not_in_items;;
    let old_items1 := PyList.insert index item old_items in
    let s1 := notify_insert_item (items_key s) item index
                (with_items (PyList.insert index item (items s)) s) in
    Ok (s1, old_items1, S index).

Fixpoint update_items_loop (target : list Item)
    (st : FilteredListModel * list Item * nat)
    : result (FilteredListModel * list Item * nat) :=
  match target with
  | [] => Ok st
  | item :: rest => st' ← update_items_step item st; update_items_loop rest st'
  end.

(** The final [while index < len(old_items)] loop of [__update_items]. *)
Fixpoint update_items_tail (fuel : nat) (s : FilteredListModel)
    (old_items : list Item) (index : nat) : result FilteredListModel :=
  if decide (index < length old_items) then
    match fuel with
    | 0 => Raise OutOfFuel
    | S fuel' =>
      item_to_remove ← PyList.getitem index old_items;
      py_assert (PyList.contains item_to_remove (items s)) A_item_to_remove;;
      old_items1 ← PyList.del index old_items;
      items1 ← PyList.del index (items s);
      update_items_tail fuel'
        (notify_remove_item (items_key s) item_to_remove index (with_items items1 s))
        old_items1 index
    end
  else Ok s.

(** [__update_items] *)
Definition update_items (w : store) (s : FilteredListModel) : result FilteredListModel :=
  if (0 <? change_level s)%Z then Ok s
  else
    let old_items := items s in
    target ← build_items w s;
    py_assert (PyList.unique (master_items s)) A_master_unique;;
    py_assert (PyList.unique target) A_items_unique;;
    '(s1, old_items1, index) ← update_items_loop target (s, old_items, 0);
    update_items_tail (length old_items1) s1 old_items1 index.

(** [begin_change] and [end_change] *)
Definition begin_change (s : FilteredListModel) : FilteredListModel :=
  with_change_level (change_level s + 1) s.

Definition end_change (w : store) (s : FilteredListModel) : result FilteredListModel :=
  let s1 := with_change_level (change_level s - 1) s in
  if (change_level s1 =? 0)%Z then update_items w s1 else Ok s1.

(** The setters of [sort_key], [sort_reverse] and [filter] *)
Definition set_sort_key (w : store) (value : option (attrs → Z))
    (s : FilteredListModel) : result FilteredListModel :=
  update_items w (with_sort_key value s).

Definition set_sort_reverse (w : store) (value : bool)
    (s : FilteredListModel) : result FilteredListModel :=
  update_items w (with_sort_reverse value s).

Definition set_filter (w : store) (value : Filter)
    (s : FilteredListModel) : result FilteredListModel :=
  update_items w (with_filter value s).

(** [__item_inserted], called from the container.  The calls to
    [selection.insert_index] that end it act on objects of
    [nion.utils.Selection] only and leave the engine as it is. *)
Definition item_inserted (w : store) (key : string) (item : Item) (before_index : Z)
    (s : FilteredListModel) : result FilteredListModel :=
  if String.eqb key (items_key s) then
    py_assert (negb (PyList.contains item (master_items s))) A_not_in_master;;
    let s1 := with_master (PyList.insertz before_index item (master_items s)) s in
    let s2 := with_listeners ({[item]} ∪ listeners s1) s1 in
    inserted_master_item w before_index item s2
  else Ok s.

(** [__item_removed], called from the container. *)
Definition item_removed (key : string) (item : Item) (index : Z)
    (s : FilteredListModel) : result FilteredListModel :=
  if String.eqb key (items_key s) then
    master' ← PyList.delz index (master_items s);
    let s1 := with_master master' s in
    (if decide (item ∈ listeners s1) then Ok () else Raise KeyError);;
    let s2 := with_listeners (listeners s1 ∖ {[item]}) s1 in
    removed_master_item index item s2
  else Ok s.

(** [item_content_changed], the listener registered on each master item *)
Definition item_content_changed (w : store) (item : Item)
    (s : FilteredListModel) : result FilteredListModel :=
  py_assert (PyList.contains item (master_items s)) A_in_master;;
  updated_master_item w item s.
End engine.

(** ** The container and the engine together *)

(** [ListModel.insert_item] and [ListModel.remove_item], up to the
    notification; the second returns the removed value. *)
Definition lm_insert_item (index : Z) (value : Item) (c : ListModel) : ListModel :=
  {| lm_key := lm_key c; lm_items := PyList.insertz index value (lm_items c) |}.

Definition lm_remove_item (index : Z) (c : ListModel) : result (Item * ListModel) :=
  value ← PyList.getitemz index (lm_items c);
  items' ← PyList.delz index (lm_items c);
  Ok (value, {| lm_key := lm_key c; lm_items := items' |}).

Record system := {
  world : store;                     (* the attributes of every object *)
  container : ListModel;
  model : FilteredListModel }.

(** What the host can do to a container and the engine attached to it. *)
Inductive op :=
  | InsertItem (index : Z) (value : Item)    (* container.insert_item(index, value) *)
  | RemoveItem (index : Z)                   (* container.remove_item(index) *)
  | ItemChanged (value : Item) (d : attrs)   (* value's attributes become d, its
                                                item_changed_event fires *)
  | BeginChange
  | EndChange
  | SetFilter (f : Filter)
  | SetSortKey (k : option (attrs → Z))
  | SetSortReverse (b : bool).

(** Replaying a published event on a list, as a downstream listener does. *)
Definition replay_event (e : event) (l : list Item) : result (list Item) :=
  match e with
  | ItemInserted _ value before_index => Ok (PyList.insert before_index value l)
  | ItemRemoved _ value index =>
    x ← PyList.getitem index l;
    if decide (x = value) then PyList.del index l else Raise ValueError
  end.

Fixpoint replay (es : list event) (l : list Item) : result (list Item) :=
  match es with
  | [] => Ok l
  | e :: es' => l' ← replay_event e l; replay es' l'
  end.

(** Assigning new attributes to one object. *)
Definition store_set (w : store) (x : Item) (d : attrs) : store :=
  λ y, if decide (y = x) then d else w y.

Section system.
Context `{Regex}.

Definition with_model (σ : system) (m : FilteredListModel) : system :=
  {| world := world σ; container := container σ; model := m |}.

Definition step (o : op) (σ : system) : result system :=
  match o with
  | InsertItem index value =>
    let c := lm_insert_item index value (container σ) in
    m ← item_inserted (world σ) (lm_key c) value index (model σ);
    Ok {| world := world σ; container := c; model := m |}
  | RemoveItem index =>
    '(value, c) ← lm_remove_item index (container σ);
    m ← item_removed (lm_key c) value index (model σ);
    Ok {| world := world σ; container := c; model := m |}
  | ItemChanged value d =>
    let w := store_set (world σ) value d in
    m ← (if decide (value ∈ listeners (model σ))
         then item_content_changed w value (model σ)
         else Ok (model σ));
    Ok {| world := w; container := container σ; model := m |}
  | BeginChange => Ok (with_model σ (begin_change (model σ)))
  | EndChange => m ← end_change (world σ) (model σ); Ok (with_model σ m)
  | SetFilter f => m ← set_filter (world σ) f (model σ); Ok (with_model σ m)
  | SetSortKey k => m ← set_sort_key (world σ) k (model σ); Ok (with_model σ m)
  | SetSortReverse b => m ← set_sort_reverse (world σ) b (model σ); Ok (with_model σ m)
  end.

Fixpoint run (ops : list op) (σ : system) : result system :=
  match ops with
  | [] => Ok σ
  | o :: ops' => σ' ← step o σ; run ops' σ'
  end.

(** The [for index, item in enumerate(...)] loop of the [container] setter. *)
Fixpoint attach_loop (w : store) (key : string) (l : list Item) (index : nat)
    (s : FilteredListModel) : result FilteredListModel :=
  match l with
  | [] => Ok s
  | item :: rest =>
    s' ← item_inserted w key item (Z.of_nat index) s;
    attach_loop w key rest (S index) s'
  end.

(** [FilteredListModel(items_key=key, container=c)]: a new engine, attached
    to [c]; [getattr(c, key)] fails unless [key] is the key of [c]. *)
Definition create (w : store) (key : string) (c : ListModel) : result system :=
  if String.eqb key (lm_key c) then
    m ← attach_loop w key (lm_items c) 0 (new_model key);
    Ok {| world := w; container := c; model := m |}
  else Raise AttributeError.
End system.

(** ** Detaching the engine from its container *)

(** The [for item in reversed(...)] loop of the [container] setter, run
    when the engine leaves the container it is attached to, as in [close]:
    for each item of the container, last item first, the engine is told that
    the last master item was removed. *)
Fixpoint detach_loop (l : list Item) (s : FilteredListModel) : result FilteredListModel :=
  match l with
  | [] => Ok s
  | item :: rest =>
    s' ← item_removed (items_key s) item (Z.of_nat (length (master_items s)) - 1) s;
    detach_loop rest s'
  end.

(** [self.container = None] on the engine of [σ], attached to the container
    of [σ] under its key. *)
Definition detach (σ : system) : result FilteredListModel :=
  detach_loop (reverse (lm_items (container σ))) (model σ).

(** * Properties *)

(** ** The predicate tree *)

Section filter_facts.
Context `{Regex}.

Lemma matches_not_not (p : Filter) (d : attrs) :
  matches (NotFilter (NotFilter p)) d = matches p d.
Proof.
  simpl. destruct (matches p d) as [b|e]; simpl; [|done].
  by rewrite negb_involutive.
Qed.

(** What the specification asks of a partial-date filter: every field
    that is set equals the field of the date. *)
Definition field_agrees (field : option Z) (x : Z) : Prop :=
  match field with Some n => x = n | None => True end.

Definition set_fields_agree (year month day : option Z) (y m d : Z) : Prop :=
  field_agrees year y ∧ field_agrees month m ∧ field_agrees day d.

(** What the code checks: a field that is [None] or [0] is skipped. *)
Definition truthy_field_agrees (field : option Z) (x : Z) : Prop :=
  truthy field = true → field = Some x.

Lemma field_differs_date field y m d get :
  field_differs field (VDate y m d) get
  = Ok (truthy field && negb (get y m d =? default 0%Z field)%Z).
Proof.
  destruct field as [n|]; simpl; [|done].
  by destruct (n =? 0)%Z.
Qed.

(** C9 (amended). On an item whose attribute is a date, a partial-date
    filter matches exactly when every field that is set to a non-zero value
    equals the field of the date; a field that is unset or zero is a
    wildcard, and the filter with no field set matches. *)
Theorem C9_partial_date_truthy key year month day (a : attrs) y m d :
  a !! key = Some (VDate y m d) →
  (∃ b, matches (PartialDateFilter key year month day) a = Ok b ∧
        (b = true ↔ truthy_field_agrees year y ∧ truthy_field_agrees month m ∧
                    truthy_field_agrees day d)) ∧
  matches (PartialDateFilter key None None None) a = Ok true.
Proof.
  intros Ha. split; [|by rewrite /= /getattr Ha].
  rewrite /= /getattr Ha /= !field_differs_date /truthy_field_agrees.
  destruct year as [ny|], month as [nm|], day as [nd|]; simpl;
    repeat match goal with
    | |- context [(?n =? 0)%Z] => destruct (Z.eqb_spec n 0); simpl
    | |- context [(?x =? ?n)%Z] => destruct (Z.eqb_spec x n); simpl
    end;
    eexists; (split; [reflexivity|]); split; try done; try naive_solver congruence.
Qed.
End filter_facts.

(** ** Python lists *)

Section pylist_facts.
Context {A : Type} `{EqDecision A}.
Implicit Types (l : list A) (x y : A) (i j : nat).

Lemma contains_true x l : PyList.contains x l = true ↔ x ∈ l.
Proof. apply bool_decide_eq_true. Qed.

Lemma contains_false x l : PyList.contains x l = false ↔ x ∉ l.
Proof. apply bool_decide_eq_false. Qed.

Lemma unique_true l : PyList.unique l = true ↔ NoDup l.
Proof. apply bool_decide_eq_true. Qed.

Lemma index_Ok x l i :
  PyList.index x l = Ok i ↔ l !! i = Some x ∧ ∀ j, j < i → l !! j ≠ Some x.
Proof.
  revert i. induction l as [|y l IH]; intros i; simpl.
  - split; [done|]. by intros [? _].
  - destruct (decide (y = x)) as [->|Hne].
    + split.
      * intros [= <-]. split; [done|]. intros j Hj. lia.
      * intros [Hi Hj]. destruct i as [|i]; [done|].
        exfalso. apply (Hj 0); [lia|done].
    + destruct i as [|i].
      * split; [by destruct (PyList.index x l)|].
        intros [Hi _]. simpl in Hi. congruence.
      * specialize (IH i). split.
        -- destruct (PyList.index x l) as [k|e]; simpl; [|done].
           intros [= ->]. destruct IH as [[IH1 IH2] _]; [done|]. split; [done|].
           intros [|j] Hj; simpl; [congruence|]. apply IH2. lia.
        -- intros [Hi Hj]. destruct IH as [_ IH]. rewrite IH; [|done].
           split; [done|]. intros j Hlt. apply (Hj (S j)). lia.
Qed.

Lemma index_elem_of x l : x ∈ l → ∃ i, PyList.index x l = Ok i.
Proof.
  induction l as [|y l IH]; simpl; [by intros ?%elem_of_nil|].
  intros [->|Hin]%elem_of_cons.
  - exists 0. by rewrite decide_True.
  - destruct (decide (y = x)); [by eexists|].
    destruct (IH Hin) as [i ->]. by eexists.
Qed.

Lemma index_lookup x l i : PyList.index x l = Ok i → l !! i = Some x.
Proof. by intros [? _]%index_Ok. Qed.

Lemma getitem_Ok i l x : PyList.getitem i l = Ok x ↔ l !! i = Some x.
Proof. rewrite /PyList.getitem. destruct (l !! i); naive_solver. Qed.

Lemma del_Ok i l l' : PyList.del i l = Ok l' ↔ i < length l ∧ l' = delete i l.
Proof. rewrite /PyList.del. case_decide; naive_solver. Qed.

Lemma del_lookup i l x : l !! i = Some x → PyList.del i l = Ok (delete i l).
Proof. intros Hi. apply del_Ok. split; [|done]. by eapply lookup_lt_Some. Qed.

Lemma insert_Permutation i x l : PyList.insert i x l ≡ₚ x :: l.
Proof.
  rewrite /PyList.insert. rewrite -Permutation_middle. by rewrite take_drop.
Qed.

Lemma elem_of_insert i x y l : y ∈ PyList.insert i x l ↔ y = x ∨ y ∈ l.
Proof. by rewrite insert_Permutation elem_of_cons. Qed.

Lemma NoDup_insert i x l : x ∉ l → NoDup l → NoDup (PyList.insert i x l).
Proof. intros. rewrite insert_Permutation. by constructor. Qed.

Lemma length_pyinsert i x l : length (PyList.insert i x l) = S (length l).
Proof. by rewrite insert_Permutation. Qed.

Lemma take_pyinsert i x l : i ≤ length l → take i (PyList.insert i x l) = take i l.
Proof.
  intros Hi. rewrite /PyList.insert take_app_le.
  - rewrite length_take. lia.
  - rewrite take_take. f_equal. lia.
Qed.

Lemma lookup_pyinsert i x l : i ≤ length l → PyList.insert i x l !! i = Some x.
Proof.
  intros Hi. rewrite /PyList.insert.
  rewrite lookup_app_r length_take; [lia|].
  by replace (i - i `min` length l) with 0 by lia.
Qed.

Lemma take_S_pyinsert i x l :
  i ≤ length l → take (S i) (PyList.insert i x l) = take i l ++ [x].
Proof.
  intros Hi. erewrite take_S_r; [|by apply lookup_pyinsert].
  by rewrite take_pyinsert.
Qed.

Lemma elem_of_delete_NoDup i x y l :
  NoDup l → l !! i = Some x → y ∈ delete i l ↔ y ∈ l ∧ y ≠ x.
Proof.
  intros Hnd Hi. pose proof (delete_Permutation l i x Hi) as Hp.
  rewrite {2}Hp. rewrite Hp in Hnd. apply NoDup_cons in Hnd as [Hx _].
  rewrite elem_of_cons. naive_solver.
Qed.

Lemma NoDup_delete i l : NoDup l → NoDup (delete i l).
Proof. intros Hnd. eapply sublist_NoDup; [exact Hnd|apply sublist_delete]. Qed.

Lemma take_delete_ge i k l : k ≤ i → take k (delete i l) = take k l.
Proof.
  intros Hk. rewrite delete_take_drop.
  destruct (decide (i ≤ length l)).
  - rewrite take_app_le; [rewrite length_take; lia|]. rewrite take_take. f_equal. lia.
  - rewrite (take_ge l i); [lia|]. rewrite (drop_ge l (S i)); [lia|].
    by rewrite app_nil_r.
Qed.
End pylist_facts.

(** ** Reasoning in the [result] monad *)

Lemma bind_Ok {A B} (m : result A) (f : A → result B) (b : B) :
  m ≫= f = Ok b ↔ ∃ a, m = Ok a ∧ f a = Ok b.
Proof. destruct m; simpl; naive_solver. Qed.

Lemma bind_Raise {A B} (m : result A) (f : A → result B) (e : exn) :
  m ≫= f = Raise e ↔ m = Raise e ∨ ∃ a, m = Ok a ∧ f a = Raise e.
Proof. destruct m; simpl; naive_solver. Qed.

Lemma py_assert_Ok b a u : py_assert b a = Ok u ↔ b = true.
Proof. destruct b, u; simpl; naive_solver. Qed.

Lemma py_assert_Raise b a e :
  py_assert b a = Raise e ↔ b = false ∧ e = AssertionError a.
Proof. destruct b; simpl; naive_solver. Qed.

Ltac inv_ok :=
  repeat match goal with
  | H : Ok _ = Ok _ |- _ => injection H as H
  | H : Raise _ = Ok _ |- _ => discriminate H
  | H : Ok _ = Raise _ |- _ => discriminate H
  | H : Raise _ = Raise _ |- _ => injection H as H
  | H : _ ≫= _ = Ok _ |- _ => apply bind_Ok in H as (? & ? & H)
  | H : py_assert _ _ = Ok _ |- _ => apply py_assert_Ok in H
  | H : mret _ = Ok _ |- _ => injection H as H
  | H : (_, _) = (_, _) |- _ => injection H as ??
  end.

(** ** Events and the derived list *)

Lemma replay_app es1 es2 l :
  replay (es1 ++ es2) l = l' ← replay es1 l; replay es2 l'.
Proof.
  revert l. induction es1 as [|e es1 IH]; intros l; simpl; [done|].
  destruct (replay_event e l); simpl; [apply IH|done].
Qed.

(** [s'] comes from [s] by changes to the derived list that were each
    published, and by nothing else. *)
Record evolves (s s' : FilteredListModel) : Prop := {
  ev_key : items_key s' = items_key s;
  ev_master : master_items s' = master_items s;
  ev_filter : filter s' = filter s;
  ev_sort_key : sort_key s' = sort_key s;
  ev_sort_reverse : sort_reverse s' = sort_reverse s;
  ev_change_level : change_level s' = change_level s;
  ev_listeners : listeners s' = listeners s;
  ev_emitted : ∃ es, emitted s' = emitted s ++ es ∧
                     replay es (items s) = Ok (items s') }.

Lemma evolves_refl s : evolves s s.
Proof. split; try done. exists []. by rewrite app_nil_r. Qed.

Lemma evolves_trans s1 s2 s3 : evolves s1 s2 → evolves s2 s3 → evolves s1 s3.
Proof.
  intros [? ? ? ? ? ? ? (es1 & He1 & Hr1)] [? ? ? ? ? ? ? (es2 & He2 & Hr2)].
  split; try congruence.
  exists (es1 ++ es2). split.
  - by rewrite He2 He1 assoc.
  - by rewrite replay_app Hr1.
Qed.

Lemma evolves_insert s i x :
  evolves s (notify_insert_item (items_key s) x i
               (with_items (PyList.insert i x (items s)) s)).
Proof. split; try done. by eexists [_]. Qed.

Lemma evolves_remove s i x :
  items s !! i = Some x →
  evolves s (notify_remove_item (items_key s) x i (with_items (delete i (items s)) s)).
Proof.
  intros Hi. split; try done. eexists [_]. split; [done|].
  simpl. rewrite /PyList.getitem Hi /=. rewrite decide_True //.
  by erewrite del_lookup.
Qed.

Section engine_events.
Context `{Regex}.

Lemma inserted_master_item_evolves w i x s s' :
  inserted_master_item w i x s = Ok s' → evolves s s'.
Proof.
  rewrite /inserted_master_item. intros Hs.
  destruct (0 <? change_level s)%Z; inv_ok; [subst; apply evolves_refl|].
  destruct x0; inv_ok; subst; [apply evolves_insert|apply evolves_refl].
Qed.

Lemma removed_master_item_evolves i x s s' :
  removed_master_item i x s = Ok s' → evolves s s'.
Proof.
  rewrite /removed_master_item. intros Hs.
  destruct (0 <? change_level s)%Z; inv_ok; [subst; apply evolves_refl|].
  destruct (PyList.contains x (items s)); inv_ok; [|subst; apply evolves_refl].
  match goal with H : PyList.del _ _ = Ok _ |- _ => apply del_Ok in H as [? ->] end.
  match goal with H : PyList.index _ _ = Ok _ |- _ => apply index_lookup in H end.
  subst. by apply evolves_remove.
Qed.

Lemma updated_master_item_evolves w x s s' :
  updated_master_item w x s = Ok s' → evolves s s'.
Proof.
  rewrite /updated_master_item. intros Hs.
  repeat match goal with
  | H : (if ?c then _ else _) = Ok _ |- _ => destruct c
  | H : match ?c with _ => _ end = Ok _ |- _ => destruct c
  | _ => progress inv_ok
  end; subst;
  eauto using evolves_refl, evolves_trans, inserted_master_item_evolves,
    removed_master_item_evolves.
Qed.
End engine_events.

(** ** The diff walk of [__update_items] *)

Arguments update_items_step : simpl never.

Section diff_walk.
Context `{Regex}.
Implicit Types (s : FilteredListModel) (old done : list Item) (index : nat).

(** A target item that the working copy holds, while the first [index]
    positions of the working copy are the target items already placed and
    the item is not among them, is found at [index] or later. *)
Lemma index_not_before item old index old_index :
  item ∉ take index old →
  PyList.index item old = Ok old_index →
  index ≤ old_index.
Proof.
  intros Hnot Hidx%index_lookup.
  destruct (decide (index ≤ old_index)) as [|Hlt]; [done|].
  exfalso. apply Hnot. apply elem_of_take. exists old_index. split; [done|lia].
Qed.

(** One round keeps the placed prefix and never fails the assertion
    [index <= old_index]. *)
Lemma update_items_step_prefix item s old index done :
  take index old = done → length done = index → item ∉ done →
  match update_items_step item (s, old, index) with
  | Ok (s', old', index') =>
    index' = S index ∧ take (S index) old' = done ++ [item] ∧
    length (done ++ [item]) = S index
  | Raise e => e ≠ AssertionError A_index_le_old_index
  end.
Proof.
  intros Hdone Hlen Hnot.
  assert (index ≤ length old) as Hle.
  { rewrite -Hdone length_take in Hlen. lia. }
  rewrite /update_items_step.
  destruct (PyList.contains item old) eqn:Hc.
  - apply contains_true in Hc. destruct (index_elem_of _ _ Hc) as [old_index Hi].
    rewrite Hi /=.
    assert (index ≤ old_index) as Hio.
    { eapply index_not_before; [|done]. by rewrite Hdone. }
    rewrite bool_decide_true //=.
    apply index_lookup in Hi.
    destruct (decide (index < old_index)) as [Hlt|Hge].
    + destruct (PyList.contains item (items s)); simpl; [|done].
      rewrite (del_lookup _ _ _ Hi) /=.
      rewrite {1}/PyList.del. case_decide; simpl; [|done].
      destruct (PyList.contains item (delete old_index (items s))); simpl; [done|].
      split; [done|]. split; [|rewrite length_app /=; lia].
      apply lookup_lt_Some in Hi as Hlt'.
      rewrite take_S_pyinsert.
      { rewrite length_delete; [by eexists|]. lia. }
      by rewrite take_delete_ge // Hdone.
    + assert (old_index = index) as -> by lia.
      split; [done|]. split; [|rewrite length_app /=; lia].
      by rewrite (take_S_r _ _ _ Hi) Hdone.
  - destruct (PyList.contains item (items s)); simpl; [done|].
    split; [done|]. split; [|rewrite length_app /=; lia].
    by rewrite take_S_pyinsert // Hdone.
Qed.

Lemma update_items_loop_prefix target s old index done :
  take index old = done → length done = index → NoDup (done ++ target) →
  match update_items_loop target (s, old, index) with
  | Ok (s', old', index') =>
    index' = index + length target ∧ take index' old' = done ++ target
  | Raise e => e ≠ AssertionError A_index_le_old_index
  end.
Proof.
  revert s old index done.
  induction target as [|item rest IH]; intros s old index done Hdone Hlen Hnd; simpl.
  - rewrite Nat.add_0_r app_nil_r. done.
  - assert (item ∉ done) as Hnot.
    { apply NoDup_app in Hnd as (_ & Hd & _). intros Hin.
      apply (Hd _ Hin). by left. }
    pose proof (update_items_step_prefix item s old index done Hdone Hlen Hnot) as Hstep.
    destruct (update_items_step item (s, old, index)) as [[[s' old'] index']|e];
      simpl in *; [|done].
    destruct Hstep as (-> & Htake & Hlen').
    specialize (IH s' old' (S index) (done ++ [item]) Htake Hlen').
    rewrite -assoc /= in IH. specialize (IH Hnd).
    destruct (update_items_loop rest (s', old', S index)) as [[[s2 old2] index2]|e];
      simpl in *; [|done].
    destruct IH as [-> IH]. split; [lia|done].
Qed.

Lemma update_items_tail_no_index_assert fuel s old index e :
  update_items_tail fuel s old index = Raise e →
  e ≠ AssertionError A_index_le_old_index.
Proof.
  revert s old. induction fuel as [|fuel IH]; intros s old; simpl.
  - case_decide; [|done]. by intros [= <-].
  - case_decide; [|done].
    repeat (intros [Hr|(? & _ & Hr)]%bind_Raise; revert Hr;
            [try by (intros [_ ->]%py_assert_Raise)|]).
    + rewrite /PyList.getitem. by destruct (old !! index); intros [= <-].
    + rewrite /PyList.del. by case_decide; intros [= <-].
    + rewrite /PyList.del. by case_decide; intros [= <-].
    + apply IH.
Qed.

Lemma filter_items_no_assert w f l e :
  filter_items w f l = Raise e →
  (∃ x, x ∈ l ∧ matches f (w x) = Raise e).
Proof.
  induction l as [|x l IH]; simpl; [done|].
  intros [Hr|(b & Hb & [Hr|(l' & Hl & Hr)]%bind_Raise)]%bind_Raise.
  - exists x. split; [by left|done].
  - destruct (IH Hr) as (y & ? & ?). exists y. split; [by right|done].
  - done.
Qed.
End diff_walk.

(** ** Induction on the predicate tree *)

Section Filter_induction.
Variable P : Filter → Prop.
Hypothesis HBase : ∀ default, P (BaseFilter default).
Hypothesis HAnd : ∀ filters, Forall P filters → P (AndFilter filters).
Hypothesis HOr : ∀ filters, Forall P filters → P (OrFilter filters).
Hypothesis HNot : ∀ filter, P filter → P (NotFilter filter).
Hypothesis HEq : ∀ key v cmp, P (EqFilter key v cmp).
Hypothesis HNotEq : ∀ key v cmp, P (NotEqFilter key v cmp).
Hypothesis HStartsWith : ∀ key v, P (StartsWithFilter key v).
Hypothesis HText : ∀ key text, P (TextFilter key text).
Hypothesis HPartialDate : ∀ key year month day, P (PartialDateFilter key year month day).
Hypothesis HPredicate : ∀ predicate, P (PredicateFilter predicate).

Fixpoint Filter_tree_ind (f : Filter) : P f :=
  let children :=
    fix children (l : list Filter) : Forall P l :=
      match l with
      | [] => List.Forall_nil P
      | g :: l' => List.Forall_cons P g l' (Filter_tree_ind g) (children l')
      end in
  match f with
  | BaseFilter default => HBase default
  | AndFilter filters => HAnd filters (children filters)
  | OrFilter filters => HOr filters (children filters)
  | NotFilter filter => HNot filter (Filter_tree_ind filter)
  | EqFilter key v cmp => HEq key v cmp
  | NotEqFilter key v cmp => HNotEq key v cmp
  | StartsWithFilter key v => HStartsWith key v
  | TextFilter key text => HText key text
  | PartialDateFilter key year month day => HPartialDate key year month day
  | PredicateFilter predicate => HPredicate predicate
  end.
End Filter_induction.

(** ** Evaluation and the state of the host *)

Section HostFilter_induction.
Context {host : Type}.
Variable P : HostFilter host → Prop.
Hypothesis HBase : ∀ default, P (HostBase default).
Hypothesis HAnd : ∀ filters, Forall P filters → P (HostAnd filters).
Hypothesis HOr : ∀ filters, Forall P filters → P (HostOr filters).
Hypothesis HNot : ∀ filter, P filter → P (HostNot filter).
Hypothesis HEq : ∀ key v cmp, P (HostEq key v cmp).
Hypothesis HNotEq : ∀ key v cmp, P (HostNotEq key v cmp).
Hypothesis HStartsWith : ∀ key v, P (HostStartsWith key v).
Hypothesis HText : ∀ key text, P (HostText key text).
Hypothesis HPartialDate : ∀ key year month day, P (HostPartialDate key year month day).
Hypothesis HPredicate : ∀ predicate, P (HostPredicate predicate).

Fixpoint HostFilter_tree_ind (f : HostFilter host) : P f :=
  let all :=
    fix all (l : list (HostFilter host)) : Forall P l :=
      match l with
      | [] => List.Forall_nil P
      | g :: l' => List.Forall_cons P g l' (HostFilter_tree_ind g) (all l')
      end in
  match f with
  | HostBase default => HBase default
  | HostAnd filters => HAnd filters (all filters)
  | HostOr filters => HOr filters (all filters)
  | HostNot filter => HNot filter (HostFilter_tree_ind filter)
  | HostEq key v cmp => HEq key v cmp
  | HostNotEq key v cmp => HNotEq key v cmp
  | HostStartsWith key v => HStartsWith key v
  | HostText key text => HText key text
  | HostPartialDate key year month day => HPartialDate key year month day
  | HostPredicate predicate => HPredicate predicate
  end.
End HostFilter_induction.

Section host_facts.
Context {host : Type} `{Regex}.

Lemma pure_callables_list (fs : list (HostFilter host)) :
  (fix all (fs : list (HostFilter host)) : Prop :=
     match fs with
     | [] => True
     | g :: fs' => pure_callables g ∧ all fs'
     end) fs ↔ Forall pure_callables fs.
Proof.
  induction fs as [|g fs IH]; [by split; [constructor|]|].
  rewrite Forall_cons IH. done.
Qed.

Lemma host_all_pure (cs : list (host → result bool * host)) (rs : list (result bool)) :
  Forall2 (λ c r, ∀ h, c h = (r, h)) cs rs →
  ∀ h, host_all cs h = (py_all rs, h).
Proof.
  induction 1 as [|c r cs rs Hc _ IH]; intros h; simpl; [done|].
  rewrite Hc. destruct r as [[]|e]; simpl; [apply IH|done|done].
Qed.

Lemma host_any_pure (cs : list (host → result bool * host)) (rs : list (result bool)) :
  Forall2 (λ c r, ∀ h, c h = (r, h)) cs rs →
  ∀ h, host_any cs h = (py_any rs, h).
Proof.
  induction 1 as [|c r cs rs Hc _ IH]; intros h; simpl; [done|].
  rewrite Hc. destruct r as [[]|e]; simpl; [done|apply IH|done].
Qed.

Lemma host_matches_not_not (p : HostFilter host) (d : attrs) (h : host) :
  host_matches (HostNot (HostNot p)) d h = host_matches p d h.
Proof.
  simpl. destruct (host_matches p d h) as [[b|e] h']; simpl; [|done].
  by rewrite negb_involutive.
Qed.

(** Evaluation adds no effect to those of the callables. *)
Lemma host_matches_pure (f : HostFilter host) (d : attrs) :
  pure_callables f → ∃ r, ∀ h, host_matches f d h = (r, h).
Proof.
  induction f as [b|fs IH|fs IH|g IH|key v cmp|key v cmp| | | |p]
    using HostFilter_tree_ind; simpl; try (intros _; by eexists).
  - rewrite pure_callables_list. intros Hfs.
    assert (∃ rs, Forall2 (λ c r, ∀ h, c h = (r, h))
                    (map (λ g, host_matches g d) fs) rs) as [rs Hrs].
    { induction Hfs as [|g fs Hg Hfs IH']; inv IH; [by exists []|].
      destruct IH' as [rs Hrs]; [done|].
      match goal with Hg' : pure_callables g → _ |- _ => destruct (Hg' Hg) as [r Hr] end.
      exists (r :: rs). by constructor. }
    exists (py_all rs). by apply host_all_pure.
  - rewrite pure_callables_list. intros Hfs.
    assert (∃ rs, Forall2 (λ c r, ∀ h, c h = (r, h))
                    (map (λ g, host_matches g d) fs) rs) as [rs Hrs].
    { induction Hfs as [|g fs Hg Hfs IH']; inv IH; [by exists []|].
      destruct IH' as [rs Hrs]; [done|].
      match goal with Hg' : pure_callables g → _ |- _ => destruct (Hg' Hg) as [r Hr] end.
      exists (r :: rs). by constructor. }
    exists (py_any rs). by apply host_any_pure.
  - intros Hg. destruct (IH Hg) as [r Hr].
    exists (b ← r; Ok (negb b)). intros h. by rewrite Hr.
  - intros Hcmp. destruct (getattr d key) as [d_value|e]; [|by eexists].
    destruct (Hcmp d_value v) as [r Hr]. by exists r.
  - intros Hcmp. destruct (getattr d key) as [d_value|e]; [|by eexists].
    destruct (Hcmp d_value v) as [r Hr].
    exists (b ← r; Ok (negb b)). intros h. by rewrite Hr.
  - intros Hp. destruct (Hp d) as [r Hr]. by exists r.
Qed.

(** [matches] is the evaluation of a filter whose callables are
    functions. *)
Lemma host_matches_lift (f : Filter) (d : attrs) (h : host) :
  host_matches (lift f) d h = (matches f d, h).
Proof.
  revert h. induction f as [b|fs IH|fs IH|g IH|key v cmp|key v cmp| | | |p]
    using Filter_tree_ind; intros h; simpl; try done.
  - apply host_all_pure. rewrite map_map.
    induction IH as [|g fs Hg _ IH']; simpl; constructor; done.
  - apply host_any_pure. rewrite map_map.
    induction IH as [|g fs Hg _ IH']; simpl; constructor; done.
  - by rewrite IH.
  - by destruct (getattr d key).
  - by destruct (getattr d key).
Qed.

(** C8 (amended). An [AndFilter] without children matches every item, an
    [OrFilter] without children matches none, and a doubly negated predicate
    gives the result of the predicate itself and has its effects.  The
    classes of filters keep no state and add no effect of their own to the
    callables the host gave them (the predicate of a [PredicateFilter], the
    comparison of an [EqFilter] or [NotEqFilter]): when every callable a
    filter holds is pure, and so for every filter that holds none, the result
    of [matches] is determined by the filter and the attributes of the item,
    and the state of the host is left as it is.  [matches] of the rest of
    this development is that evaluation, for callables that are
    functions. *)
Theorem C8_filter_algebra :
  (∀ d, matches (AndFilter []) d = Ok true) ∧
  (∀ d, matches (OrFilter []) d = Ok false) ∧
  (∀ p d, matches (NotFilter (NotFilter p)) d = matches p d) ∧
  (∀ d (h : host), host_matches (HostAnd []) d h = (Ok true, h)) ∧
  (∀ d (h : host), host_matches (HostOr []) d h = (Ok false, h)) ∧
  (∀ (p : HostFilter host) d h,
     host_matches (HostNot (HostNot p)) d h = host_matches p d h) ∧
  (∀ (f : HostFilter host) d,
     pure_callables f → ∃ r, ∀ h, host_matches f d h = (r, h)) ∧
  (∀ (f : Filter) d (h : host), host_matches (lift f) d h = (matches f d, h)).
Proof.
  split_and!; [done | done | apply matches_not_not | done | done
              | apply host_matches_not_not | apply host_matches_pure
              | apply host_matches_lift].
Qed.
End host_facts.

Section matches_raise.
Context `{Regex}.

(** The exceptions a filter can raise. *)
Definition filter_exn (e : exn) : Prop :=
  e = AttributeError ∨ e = TypeError ∨ e = ReError.

Lemma py_all_raise rs e :
  py_all rs = Raise e → ∃ r, r ∈ rs ∧ r = Raise e.
Proof.
  induction rs as [|r rs IH]; simpl; [done|].
  destruct r as [[]|e']; simpl.
  - intros (r & ? & ?)%IH. exists r. split; [by right|done].
  - done.
  - intros [= ->]. eexists. split; [by left|done].
Qed.

Lemma py_any_raise rs e :
  py_any rs = Raise e → ∃ r, r ∈ rs ∧ r = Raise e.
Proof.
  induction rs as [|r rs IH]; simpl; [done|].
  destruct r as [[]|e']; simpl.
  - done.
  - intros (r & ? & ?)%IH. exists r. split; [by right|done].
  - intros [= ->]. eexists. split; [by left|done].
Qed.

Lemma getattr_raise d key e : getattr d key = Raise e → filter_exn e.
Proof. rewrite /getattr /filter_exn. destruct (d !! key); naive_solver. Qed.

Lemma field_differs_raise field v get e :
  field_differs field v get = Raise e → filter_exn e.
Proof.
  rewrite /field_differs /filter_exn.
  destruct field as [n|]; [|done]. destruct (n =? 0)%Z; [done|].
  destruct v; naive_solver.
Qed.

Lemma matches_raise f d e : matches f d = Raise e → filter_exn e.
Proof.
  revert e. induction f as [| fs IH | fs IH | f IH | | | | | |] using Filter_tree_ind;
    intros e; simpl.
  - done.
  - intros (r & Hr & ->)%py_all_raise.
    apply list_elem_of_fmap in Hr as (g & Hg & Hin).
    rewrite Forall_forall in IH. by eapply IH.
  - intros (r & Hr & ->)%py_any_raise.
    apply list_elem_of_fmap in Hr as (g & Hg & Hin).
    rewrite Forall_forall in IH. by eapply IH.
  - intros [Hr|(? & _ & Hr)]%bind_Raise; [by apply IH|done].
  - intros [Hr|(? & _ & Hr)]%bind_Raise; [by eapply getattr_raise|done].
  - intros [Hr|(? & _ & Hr)]%bind_Raise; [by eapply getattr_raise|done].
  - intros [Hr|(x & _ & Hr)]%bind_Raise; [by eapply getattr_raise|].
    rewrite /filter_exn. destruct x; naive_solver.
  - intros [Hr|(x & _ & Hr)]%bind_Raise; [by eapply getattr_raise|].
    rewrite /filter_exn. destruct x; try naive_solver.
    destruct (re_search_ignorecase text s); naive_solver.
  - intros [Hr|(x & _ & Hr)]%bind_Raise; [by eapply getattr_raise|].
    revert Hr.
    repeat (intros [Hr|([] & _ & Hr)]%bind_Raise;
            [by eapply field_differs_raise|done|revert Hr]).
    done.
  - done.
Qed.

Lemma filter_exn_not_assert e a : filter_exn e → e ≠ AssertionError a.
Proof. rewrite /filter_exn. naive_solver. Qed.

(** C6. A full resynchronization never fails the assertion
    [index <= old_index] of its diff walk: a target item found in the
    working copy of the old derived list is found at the position being
    filled or after it. *)
Theorem C6_index_le_old_index (w : store) (s : FilteredListModel) :
  update_items w s ≠ Raise (AssertionError A_index_le_old_index).
Proof.
  rewrite /update_items. destruct (0 <? change_level s)%Z; [done|].
  destruct (build_items w s) as [target|e] eqn:Hb; simpl.
  - destruct (PyList.unique (master_items s)); simpl; [|done].
    destruct (PyList.unique target) eqn:Hu; simpl; [|done].
    apply unique_true in Hu.
    pose proof (update_items_loop_prefix target s (items s) 0 [] eq_refl eq_refl Hu)
      as Hloop.
    destruct (update_items_loop target (s, items s, 0)) as [[[s1 old1] index]|e];
      simpl in *; [|congruence].
    intros Ht. by eapply update_items_tail_no_index_assert.
  - revert Hb. rewrite /build_items.
    intros [[_ ->]%py_assert_Raise|(? & _ & Hr)]%bind_Raise; [done|].
    apply filter_items_no_assert in Hr as (y & _ & Hr).
    intros [= ->]. apply matches_raise in Hr.
    exact (filter_exn_not_assert _ _ Hr eq_refl).
Qed.
End matches_raise.

(** ** Sorting and filtering the master list *)

Lemma sorted_insert_Permutation key x l : sorted_insert key x l ≡ₚ x :: l.
Proof.
  induction l as [|y l IH]; simpl; [done|].
  destruct (key x <=? key y)%Z; [done|].
  by rewrite IH Permutation_swap.
Qed.

Lemma stable_sort_Permutation key l : stable_sort key l ≡ₚ l.
Proof.
  induction l as [|x l IH]; simpl; [done|].
  by rewrite sorted_insert_Permutation IH.
Qed.

Lemma py_sort_Permutation key rev l : py_sort key rev l ≡ₚ l.
Proof.
  rewrite /py_sort. destruct rev.
  - by rewrite reverse_Permutation stable_sort_Permutation reverse_Permutation.
  - apply stable_sort_Permutation.
Qed.

Section rebuild.
Context `{Regex}.
Implicit Types (s : FilteredListModel) (w : store) (f : Filter).

(** The item passes the filter. *)
Definition passes w f (x : Item) : Prop := matches f (w x) = Ok true.

#[global] Instance passes_dec w f x : Decision (passes w f x).
Proof. rewrite /passes. apply _. Defined.

(** The filter gives a verdict on every item of the list. *)
Definition total_on w f (l : list Item) : Prop :=
  ∀ x, x ∈ l → ∃ b, matches f (w x) = Ok b.

(** The master list in the order [__build_items] filters it. *)
Definition ordered_master w s : list Item :=
  match sort_key s with
  | Some k => py_sort (λ x, k (w x)) (sort_reverse s) (master_items s)
  | None => master_items s
  end.

Lemma total_on_cons w f x l :
  total_on w f (x :: l) ↔ (∃ b, matches f (w x) = Ok b) ∧ total_on w f l.
Proof.
  rewrite /total_on. split.
  - intros Ht. split; [apply Ht; by left|]. intros y Hy. apply Ht. by right.
  - intros [Hx Hl] y [->|Hy]%elem_of_cons; auto.
Qed.

Lemma total_on_Permutation w f l1 l2 : l1 ≡ₚ l2 → total_on w f l1 → total_on w f l2.
Proof. intros Hp Ht x Hx. apply Ht. by rewrite Hp. Qed.

Lemma filter_items_total w f l :
  total_on w f l → filter_items w f l = Ok (base.filter (passes w f) l).
Proof.
  induction l as [|x l IH]; [done|].
  intros [[b Hb] Hl]%total_on_cons. simpl.
  rewrite Hb /= (IH Hl) /=.
  destruct b; [rewrite filter_cons_True //|rewrite filter_cons_False //].
  rewrite /passes Hb. congruence.
Qed.

Lemma filter_items_Ok w f l l' :
  filter_items w f l = Ok l' → total_on w f l ∧ l' = base.filter (passes w f) l.
Proof.
  revert l'. induction l as [|x l IH]; intros l'; simpl.
  - intros [= <-]. split; [|done]. by intros x ?%elem_of_nil.
  - intros Hl. inv_ok. destruct (IH _ H1) as [Ht ->].
    split; [apply total_on_cons; eauto|].
    subst.
    destruct x0; [rewrite filter_cons_True //|rewrite filter_cons_False //].
    rewrite /passes H0. congruence.
Qed.

Lemma build_items_Ok w s l :
  build_items w s = Ok l ↔
  NoDup (master_items s) ∧ total_on w (filter s) (master_items s) ∧
  l = base.filter (passes w (filter s)) (ordered_master w s).
Proof.
  rewrite /build_items. split.
  - intros Hb. inv_ok. apply unique_true in H0.
    apply filter_items_Ok in Hb as [Ht ->]. split; [done|]. split; [|done].
    eapply total_on_Permutation; [|done].
    rewrite /ordered_master. destruct (sort_key s); [|done].
    apply py_sort_Permutation.
  - intros (Hnd & Ht & ->). apply unique_true in Hnd. rewrite Hnd /=.
    apply filter_items_total. eapply total_on_Permutation; [|done].
    rewrite /ordered_master. destruct (sort_key s); [|done].
    symmetry. apply py_sort_Permutation.
Qed.

Lemma ordered_master_Permutation w s : ordered_master w s ≡ₚ master_items s.
Proof.
  rewrite /ordered_master. destruct (sort_key s); [|done]. apply py_sort_Permutation.
Qed.

Lemma update_items_step_ok item s index done :
  NoDup (items s) → take index (items s) = done → length done = index →
  item ∉ done →
  ∃ s', update_items_step item (s, items s, index) = Ok (s', items s', S index) ∧
        evolves s s' ∧ NoDup (items s') ∧
        take (S index) (items s') = done ++ [item].
Proof.
  intros Hnd Hdone Hlen Hnot.
  pose proof (update_items_step_prefix item s (items s) index done Hdone Hlen Hnot)
    as Hpre.
  rewrite /update_items_step in Hpre |- *.
  destruct (PyList.contains item (items s)) eqn:Hc.
  - apply contains_true in Hc. destruct (index_elem_of _ _ Hc) as [old_index Hi].
    rewrite Hi /= in Hpre |- *.
    assert (index ≤ old_index) as Hio.
    { eapply index_not_before; [|done]. by rewrite Hdone. }
    rewrite bool_decide_true //= in Hpre |- *.
    apply index_lookup in Hi.
    destruct (decide (index < old_index)) as [Hlt|Hge].
    + simpl in *. rewrite (del_lookup _ _ _ Hi) /= in Hpre |- *.
      assert (item ∉ delete old_index (items s)) as Hdel.
      { rewrite elem_of_delete_NoDup //. naive_solver. }
      apply contains_false in Hdel. rewrite Hdel /= in Hpre |- *.
      exists (notify_insert_item (items_key s) item index
                (with_items (PyList.insert index item (delete old_index (items s)))
                   (notify_remove_item (items_key s) item old_index
                      (with_items (delete old_index (items s)) s)))).
      split; [done|]. simpl. split.
      { eapply evolves_trans; [by apply evolves_remove|].
        apply (evolves_insert
                 (notify_remove_item (items_key s) item old_index
                    (with_items (delete old_index (items s)) s))). }
      split; [|by apply Hpre].
      apply NoDup_insert; [by apply contains_false|by apply NoDup_delete].
    + exists s. split; [done|]. split; [apply evolves_refl|]. split; [done|].
      by apply Hpre.
  - simpl in *.
    exists (notify_insert_item (items_key s) item index
              (with_items (PyList.insert index item (items s)) s)).
    split; [done|]. simpl. split; [apply evolves_insert|].
    split; [|by apply Hpre].
    apply NoDup_insert; [by apply contains_false|done].
Qed.

Lemma update_items_loop_ok target s index done :
  NoDup (items s) → take index (items s) = done → length done = index →
  NoDup (done ++ target) →
  ∃ s', update_items_loop target (s, items s, index)
        = Ok (s', items s', index + length target) ∧
        evolves s s' ∧ NoDup (items s') ∧
        take (index + length target) (items s') = done ++ target.
Proof.
  revert s index done.
  induction target as [|item rest IH]; intros s index done Hnd Hdone Hlen Hall; simpl.
  - exists s. rewrite Nat.add_0_r app_nil_r. eauto using evolves_refl.
  - assert (item ∉ done) as Hnot.
    { apply NoDup_app in Hall as (_ & Hd & _). intros Hin.
      apply (Hd _ Hin). by left. }
    destruct (update_items_step_ok item s index done Hnd Hdone Hlen Hnot)
      as (s1 & -> & Hev1 & Hnd1 & Htake1).
    simpl.
    destruct (IH s1 (S index) (done ++ [item]) Hnd1 Htake1) as (s2 & Hs2 & Hev2 & Hnd2 & Ht2).
    { rewrite length_app /=. lia. }
    { by rewrite -assoc. }
    exists s2. rewrite Hs2. replace (index + S (length rest)) with (S index + length rest) by lia.
    split; [done|]. split; [by eapply evolves_trans|]. split; [done|].
    by rewrite Ht2 -assoc.
Qed.

Lemma update_items_tail_ok fuel s index :
  length (items s) - index ≤ fuel →
  ∃ s', update_items_tail fuel s (items s) index = Ok s' ∧
        evolves s s' ∧ items s' = take index (items s).
Proof.
  revert s. induction fuel as [|fuel IH]; intros s Hfuel; simpl.
  - rewrite decide_False; [lia|]. exists s. split; [done|].
    split; [apply evolves_refl|]. rewrite take_ge; [lia|done].
  - case_decide as Hlt.
    + destruct (lookup_lt_is_Some_2 _ _ Hlt) as [x Hx].
      rewrite /PyList.getitem Hx /=.
      assert (PyList.contains x (items s) = true) as ->.
      { apply contains_true. by eapply list_elem_of_lookup_2. }
      simpl. rewrite (del_lookup _ _ _ Hx) /=.
      destruct (IH (notify_remove_item (items_key s) x index
                      (with_items (delete index (items s)) s)))
        as (s' & Hs' & Hev & Hit).
      { simpl. rewrite length_delete; [by eexists|]. lia. }
      exists s'. split; [done|]. split.
      * eapply evolves_trans; [by apply evolves_remove|done].
      * rewrite Hit /=. by apply take_delete_ge.
    + exists s. split; [done|]. split; [apply evolves_refl|].
      rewrite take_ge; [lia|done].
Qed.

(** A full resynchronization of an engine whose lists hold no item twice
    succeeds when the filter gives a verdict on every master item: it
    leaves the list that [__build_items] builds, and publishes every
    change on the way. *)
Lemma update_items_ok w s :
  (change_level s ≤ 0)%Z →
  NoDup (master_items s) → NoDup (items s) →
  total_on w (filter s) (master_items s) →
  ∃ s', update_items w s = Ok s' ∧ evolves s s' ∧
        items s' = base.filter (passes w (filter s)) (ordered_master w s).
Proof.
  intros Hlevel Hm Hi Ht. rewrite /update_items.
  assert ((0 <? change_level s)%Z = false) as -> by lia.
  rewrite (proj2 (build_items_Ok w s _) (conj Hm (conj Ht eq_refl))) /=.
  set (target := base.filter _ _).
  assert (NoDup target) as Hnd.
  { apply NoDup_filter. by rewrite ordered_master_Permutation. }
  rewrite (proj2 (unique_true _) Hm) (proj2 (unique_true _) Hnd) /=.
  destruct (update_items_loop_ok target s 0 [] Hi eq_refl eq_refl Hnd)
    as (s1 & -> & Hev1 & Hnd1 & Htake). simpl.
  destruct (update_items_tail_ok (length (items s1)) s1 (length target))
    as (s2 & -> & Hev2 & Hit); [lia|].
  exists s2. split; [done|]. split; [by eapply evolves_trans|].
  by rewrite Hit Htake.
Qed.
End rebuild.

(** ** Every change to the derived list is published *)

Section published.
Context `{Regex}.
Implicit Types (s : FilteredListModel) (w : store).

Lemma update_items_step_evolves item s index s' old' index' :
  update_items_step item (s, items s, index) = Ok (s', old', index') →
  old' = items s' ∧ evolves s s'.
Proof.
  rewrite /update_items_step.
  destruct (PyList.contains item (items s)) eqn:Hc; intros Hs; inv_ok.
  - destruct (decide (index < x)); inv_ok; subst; [|eauto using evolves_refl].
    simpl in *.
    match goal with H : PyList.del _ _ = Ok x2 |- _ => apply del_Ok in H as [? ->] end.
    match goal with H : PyList.del _ _ = Ok _ |- _ => apply del_Ok in H as [? ->] end.
    match goal with H : PyList.index _ _ = Ok _ |- _ => apply index_lookup in H end.
    split; [done|].
    eapply evolves_trans; [by apply evolves_remove|].
    apply (evolves_insert
             (notify_remove_item (items_key s) item x
                (with_items (delete x (items s)) s))).
  - subst. split; [done|]. apply evolves_insert.
Qed.

Lemma update_items_loop_evolves target s index s' old' index' :
  update_items_loop target (s, items s, index) = Ok (s', old', index') →
  old' = items s' ∧ evolves s s'.
Proof.
  revert s index. induction target as [|item rest IH]; intros s index; simpl.
  - intros [= <- <- <-]. eauto using evolves_refl.
  - intros Hl. inv_ok. destruct x as [[s1 old1] index1].
    apply update_items_step_evolves in H0 as [-> Hev1].
    apply IH in Hl as [-> Hev2]. eauto using evolves_trans.
Qed.

Lemma update_items_tail_evolves fuel s index s' :
  update_items_tail fuel s (items s) index = Ok s' → evolves s s'.
Proof.
  revert s. induction fuel as [|fuel IH]; intros s; simpl.
  - case_decide; [done|]. intros [= <-]. apply evolves_refl.
  - case_decide; [|intros [= <-]; apply evolves_refl].
    intros Ht. inv_ok.
    match goal with H : PyList.del _ _ = Ok x1 |- _ => apply del_Ok in H as [? ->] end.
    match goal with H : PyList.del _ _ = Ok _ |- _ => apply del_Ok in H as [? ->] end.
    match goal with H : PyList.getitem _ _ = Ok _ |- _ => apply getitem_Ok in H end.
    eapply evolves_trans; [by apply evolves_remove|].
    by apply IH in Ht.
Qed.

Lemma update_items_evolves w s s' : update_items w s = Ok s' → evolves s s'.
Proof.
  rewrite /update_items. destruct (0 <? change_level s)%Z.
  - intros [= <-]. apply evolves_refl.
  - intros Hu. inv_ok. destruct x2 as [[s1 old1] index].
    apply update_items_loop_evolves in H3 as [-> Hev1].
    apply update_items_tail_evolves in Hu. eauto using evolves_trans.
Qed.

(** The derived list is what the published events build. *)
Definition published (s : FilteredListModel) : Prop :=
  replay (emitted s) [] = Ok (items s).

Lemma evolves_published s s' : evolves s s' → published s → published s'.
Proof.
  rewrite /published. intros [_ _ _ _ _ _ _ (es & -> & Hes)] Hp.
  by rewrite replay_app Hp.
Qed.

Lemma item_inserted_published w key item i s s' :
  item_inserted w key item i s = Ok s' → published s → published s'.
Proof.
  rewrite /item_inserted. destruct (String.eqb key (items_key s)); [|by intros [= <-]].
  intros Hs Hp. inv_ok.
  eapply evolves_published; [by eapply inserted_master_item_evolves|done].
Qed.

Lemma item_removed_published key item i s s' :
  item_removed key item i s = Ok s' → published s → published s'.
Proof.
  rewrite /item_removed. destruct (String.eqb key (items_key s)); [|by intros [= <-]].
  intros Hs Hp. inv_ok.
  eapply evolves_published; [by eapply removed_master_item_evolves|done].
Qed.

Lemma item_content_changed_published w item s s' :
  item_content_changed w item s = Ok s' → published s → published s'.
Proof.
  rewrite /item_content_changed. intros Hs Hp. inv_ok.
  eapply evolves_published; [by eapply updated_master_item_evolves|done].
Qed.

Lemma step_published o σ σ' :
  step o σ = Ok σ' → published (model σ) → published (model σ').
Proof.
  destruct o; simpl; intros Hs Hp; inv_ok; subst; simpl.
  - by eapply item_inserted_published.
  - destruct x as [value c]. inv_ok. subst. simpl.
    by eapply item_removed_published.
  - case_decide; inv_ok; subst; [|done].
    by eapply item_content_changed_published.
  - done.
  - revert H0. rewrite /end_change. simpl.
    destruct (_ =? _)%Z; [|by intros [= <-]].
    intros Hu%update_items_evolves. by eapply evolves_published.
  - apply update_items_evolves in H0. by eapply evolves_published.
  - apply update_items_evolves in H0. by eapply evolves_published.
  - apply update_items_evolves in H0. by eapply evolves_published.
Qed.

Lemma run_published ops σ σ' :
  run ops σ = Ok σ' → published (model σ) → published (model σ').
Proof.
  revert σ. induction ops as [|o ops IH]; intros σ; simpl.
  - by intros [= <-].
  - intros Hr Hp. inv_ok. eapply IH; [done|]. by eapply step_published.
Qed.

Lemma attach_loop_published w key l index s s' :
  attach_loop w key l index s = Ok s' → published s → published s'.
Proof.
  revert index s. induction l as [|x l IH]; intros index s; simpl.
  - by intros [= <-].
  - intros Ha Hp. inv_ok. eapply IH; [done|]. by eapply item_inserted_published.
Qed.

(** C2. Whatever was done to an engine since it was created, replaying
    the events it has published, in order, on an empty list gives its
    derived list: each insertion into and each deletion from the derived
    list is published with the index used. *)
Theorem C2_event_replay (w : store) (key : string) (c : ListModel)
    (ops : list op) (σ0 σ : system) :
  create w key c = Ok σ0 →
  run ops σ0 = Ok σ →
  replay (emitted (model σ)) [] = Ok (items (model σ)).
Proof.
  rewrite /create. destruct (String.eqb key (lm_key c)); [|done].
  intros Hc Hr. inv_ok. subst.
  eapply run_published; [done|]. simpl.
  by eapply attach_loop_published.
Qed.
End published.

(** ** What a resynchronization leaves *)

Section resynchronization.
Context `{Regex}.
Implicit Types (s : FilteredListModel) (w : store).

Lemma update_items_tail_items fuel s index s' :
  update_items_tail fuel s (items s) index = Ok s' →
  items s' = take index (items s).
Proof.
  revert s. induction fuel as [|fuel IH]; intros s; simpl.
  - case_decide; [done|]. intros [= <-]. rewrite take_ge; [lia|done].
  - case_decide; [|intros [= <-]; rewrite take_ge; [lia|done]].
    intros Ht. inv_ok.
    match goal with H : PyList.del _ _ = Ok x1 |- _ => apply del_Ok in H as [? ->] end.
    match goal with H : PyList.del _ _ = Ok _ |- _ => apply del_Ok in H as [? ->] end.
    apply IH in Ht. rewrite Ht /=. by apply take_delete_ge.
Qed.

(** A resynchronization that is not suppressed leaves the list that
    [__build_items] builds. *)
Lemma update_items_result w s s' :
  (change_level s ≤ 0)%Z →
  update_items w s = Ok s' →
  build_items w s = Ok (items s') ∧ build_items w s' = Ok (items s').
Proof.
  intros Hlevel Hu.
  pose proof (update_items_evolves _ _ _ Hu) as Hev.
  revert Hu. rewrite /update_items.
  assert ((0 <? change_level s)%Z = false) as -> by lia.
  intros Hu. inv_ok. destruct x2 as [[s1 old1] index].
  apply unique_true in H2.
  pose proof (update_items_loop_prefix x s (items s) 0 [] eq_refl eq_refl H2) as Hpre.
  rewrite H3 /= in Hpre. destruct Hpre as [-> Htake].
  apply update_items_loop_evolves in H3 as [-> Hev1].
  apply update_items_tail_items in Hu. rewrite Hu Htake.
  split; [done|].
  revert H0. rewrite !build_items_Ok /ordered_master.
  by destruct Hev as [_ -> -> -> -> _ _ _].
Qed.
End resynchronization.

(** ** Batches *)

(** The nesting depth after a sequence of operations that starts at depth
    [d] inside a batch, when the sequence does not close that batch. *)
Fixpoint nesting (d : nat) (ops : list op) : option nat :=
  match ops with
  | [] => Some d
  | BeginChange :: ops' => nesting (S d) ops'
  | EndChange :: ops' =>
    match d with
    | 0 => None
    | S d' => nesting d' ops'
    end
  | _ :: ops' => nesting d ops'
  end.

Section batches.
Context `{Regex}.
Implicit Types (s : FilteredListModel) (w : store) (σ : system).

Lemma step_batched o σ σ' (d : nat) :
  change_level (model σ) = (1 + Z.of_nat d)%Z →
  (o = EndChange → 0 < d) →
  step o σ = Ok σ' →
  items (model σ') = items (model σ) ∧ emitted (model σ') = emitted (model σ) ∧
  ∃ d', nesting d [o] = Some d' ∧ change_level (model σ') = (1 + Z.of_nat d')%Z.
Proof.
  intros Hlevel Hend.
  assert (∀ s, change_level s = change_level (model σ) → (0 <? change_level s)%Z = true)
    as Hpos by (intros; lia).
  destruct o; simpl; intros Hs; inv_ok; subst; simpl.
  - revert H0. rewrite /item_inserted. destruct (String.eqb _ _); [|intros [= <-]; eauto].
    intros Hi. inv_ok. revert Hi. rewrite /inserted_master_item Hpos //.
    intros [= <-]. eauto.
  - destruct x as [value c]. inv_ok. subst. simpl.
    revert H1. rewrite /item_removed. destruct (String.eqb _ _); [|intros [= <-]; eauto].
    intros Hi. inv_ok. revert Hi. rewrite /removed_master_item Hpos //.
    intros [= <-]. eauto.
  - case_decide; inv_ok; [|subst; eauto].
    revert H0. rewrite /item_content_changed /updated_master_item Hpos //.
    intros Hi. inv_ok. subst. eauto.
  - split; [done|]. split; [done|]. exists (S d). split; [done|]. lia.
  - destruct d as [|d]; [specialize (Hend eq_refl); lia|].
    revert H0. rewrite /end_change /= Hlevel.
    destruct (Z.eqb_spec (1 + Z.of_nat (S d) - 1) 0); [lia|].
    intros [= <-]. simpl. split; [done|]. split; [done|].
    exists d. split; [done|]. lia.
  - revert H0. rewrite /set_filter /update_items Hpos //. intros [= <-]. eauto.
  - revert H0. rewrite /set_sort_key /update_items Hpos //. intros [= <-]. eauto.
  - revert H0. rewrite /set_sort_reverse /update_items Hpos //. intros [= <-]. eauto.
Qed.

Lemma run_batched body σ σ' (d d' : nat) :
  change_level (model σ) = (1 + Z.of_nat d)%Z →
  nesting d body = Some d' →
  run body σ = Ok σ' →
  items (model σ') = items (model σ) ∧ emitted (model σ') = emitted (model σ) ∧
  change_level (model σ') = (1 + Z.of_nat d')%Z.
Proof.
  revert σ d. induction body as [|o body IH]; intros σ d Hlevel Hn; simpl.
  - intros [= <-]. by injection Hn as <-.
  - intros Hr. inv_ok.
    assert (o = EndChange → 0 < d) as Hend.
    { intros ->. destruct d; [done|lia]. }
    destruct (step_batched o σ x d Hlevel Hend H0) as (Hi & He & d1 & Hd1 & Hl1).
    assert (nesting d1 body = Some d') as Hn1.
    { destruct o; simpl in *; try (by injection Hd1 as <-).
      destruct d; [done|]. by injection Hd1 as <-. }
    destruct (IH x d1 Hl1 Hn1 Hr) as (Hi' & He' & Hl'). by rewrite Hi' He' Hi He.
Qed.
End batches.

(** ** Sorted insertion *)

(** The first index whose element satisfies [P], the length when there is
    none. *)
Fixpoint first_index (P : Item → bool) (l : list Item) : nat :=
  match l with
  | [] => 0
  | x :: l' => if P x then 0 else S (first_index P l')
  end.

(** The derived list is in the order of the sort key: ascending, or
    descending when [rev] is set. *)
Definition ordered (rev : bool) (key : Item → Z) (l : list Item) : Prop :=
  ∀ i j x y, i ≤ j → l !! i = Some x → l !! j = Some y →
    if rev then (key y ≤ key x)%Z else (key x ≤ key y)%Z.

(** "existing key is not less than k", and "not greater than k" when the
    direction is reversed *)
Definition not_before (rev : bool) (key : Item → Z) (k : Z) (x : Item) : bool :=
  if rev then negb (key x >? k)%Z else negb (key x <? k)%Z.

Lemma first_index_le P l : first_index P l ≤ length l.
Proof. induction l as [|x l IH]; simpl; [done|]. destruct (P x); lia. Qed.

Lemma first_index_unique P l r :
  r ≤ length l →
  (∀ i x, i < r → l !! i = Some x → P x = false) →
  (∀ x, l !! r = Some x → P x = true) →
  first_index P l = r.
Proof.
  revert r. induction l as [|y l IH]; intros r Hr Hlt Hat; simpl in *.
  - lia.
  - destruct r as [|r].
    + by rewrite (Hat y).
    + rewrite (Hlt 0 y); [lia|done|]. f_equal. apply IH; [lia| |done].
      intros i x Hi Hx. apply (Hlt (S i)); [lia|done].
Qed.

Lemma first_index_spec P l :
  (∀ i x, i < first_index P l → l !! i = Some x → P x = false) ∧
  (∀ x, l !! first_index P l = Some x → P x = true).
Proof.
  induction l as [|y l [IH1 IH2]]; simpl.
  - split; [lia|done].
  - destruct (P y) eqn:Hy.
    + split; [lia|]. by intros x [= <-].
    + split; [|done]. intros [|i] x Hi; simpl; [by intros [= <-]|].
      apply IH1. lia.
Qed.

Section bisect.
Context `{Regex}.
Implicit Types (s : FilteredListModel) (w : store).

Lemma find_sorted_index_loop_S fuel w k l sort_key op low high :
  low < high →
  find_sorted_index_loop (S fuel) w k l sort_key op low high
  = x ← PyList.getitem ((low + high) `div` 2) l;
    if op (sort_key (w x)) k
    then find_sorted_index_loop fuel w k l sort_key op ((low + high) `div` 2 + 1) high
    else find_sorted_index_loop fuel w k l sort_key op low ((low + high) `div` 2).
Proof. intros Hlt. by rewrite /= decide_True. Qed.

Lemma find_sorted_index_loop_done fuel w k l sort_key op low high :
  ¬ low < high →
  find_sorted_index_loop fuel w k l sort_key op low high = Ok low.
Proof. intros Hlt. destruct fuel; by rewrite /= decide_False. Qed.

Lemma find_sorted_index_loop_spec fuel w k l sort_key op low high :
  let p := λ x, op (sort_key (w x)) k in
  low ≤ high → high ≤ length l → high - low ≤ fuel →
  (∀ i j x y, i ≤ j → l !! i = Some x → l !! j = Some y → p y = true → p x = true) →
  (∀ i x, i < low → l !! i = Some x → p x = true) →
  (∀ i x, high ≤ i → l !! i = Some x → p x = false) →
  ∃ r, find_sorted_index_loop fuel w k l sort_key op low high = Ok r ∧
       r ≤ length l ∧
       (∀ i x, i < r → l !! i = Some x → p x = true) ∧
       (∀ i x, r ≤ i → l !! i = Some x → p x = false).
Proof.
  intros p. revert low high.
  induction fuel as [|fuel IH]; intros low high Hlh Hhl Hfuel Hmono Hlow Hhigh.
  - rewrite find_sorted_index_loop_done; [lia|].
    exists low. split; [done|]. split; [lia|].
    split; [done|]. intros i x Hi. apply Hhigh. lia.
  - destruct (decide (low < high)) as [Hlt|Hlt]; last first.
    { rewrite find_sorted_index_loop_done; [done|].
      exists low. split; [done|]. split; [lia|].
      split; [done|]. intros i x Hi. apply Hhigh. lia. }
    rewrite find_sorted_index_loop_S; [done|].
    remember ((low + high) `div` 2) as mid eqn:Hmid.
    assert (low ≤ mid ∧ mid < high) as [Hm1 Hm2].
    { subst mid. split.
      - apply Nat.div_le_lower_bound; lia.
      - apply Nat.Div0.div_lt_upper_bound; lia. }
    clear Hmid.
    destruct (lookup_lt_is_Some_2 l mid) as [x Hx]; [lia|].
    rewrite /PyList.getitem Hx /=.
    destruct (op (sort_key (w x)) k) eqn:Hp.
    + apply IH; [lia|lia|lia|done| |done].
      intros i y Hi Hy. apply (Hmono i mid y x); [lia|done|done|done].
    + apply IH; [lia|lia|lia|done|done|].
      intros i y Hi Hy. destruct (p y) eqn:Hpy; [|done].
      rewrite -Hp. symmetry. apply (Hmono mid i x y); [lia|done|done|done].
Qed.

Lemma ordered_monotone rev key k l :
  ordered rev key l →
  ∀ i j x y, i ≤ j → l !! i = Some x → l !! j = Some y →
    sort_operator rev (key y) k = true → sort_operator rev (key x) k = true.
Proof.
  intros Hord i j x y Hij Hx Hy. specialize (Hord i j x y Hij Hx Hy).
  rewrite /sort_operator. destruct rev; lia.
Qed.

(** On a list in the order of the sort key, the binary search returns the
    first index whose key is not before the key of the item. *)
Lemma find_sorted_index_for_item_ordered w item l sort_key rev :
  ordered rev (λ x, sort_key (w x)) l →
  find_sorted_index_for_item w item l sort_key (sort_operator rev)
  = Ok (first_index (not_before rev (λ x, sort_key (w x)) (sort_key (w item))) l).
Proof.
  intros Hord. rewrite /find_sorted_index_for_item.
  destruct (find_sorted_index_loop_spec (length l) w (sort_key (w item)) l sort_key
              (sort_operator rev) 0 (length l))
    as (r & -> & Hr & Hlt & Hge); [lia|lia|lia| | | |].
  - by apply (ordered_monotone rev (λ x, sort_key (w x))).
  - lia.
  - intros i x Hi Hx. apply lookup_lt_Some in Hx. lia.
  - f_equal. symmetry. apply first_index_unique; [done| |].
    + intros i x Hi Hx. specialize (Hlt i x Hi Hx). simpl in Hlt.
      rewrite /not_before. rewrite /sort_operator in Hlt. destruct rev; by rewrite Hlt.
    + intros x Hx. specialize (Hge r x (le_n _) Hx). simpl in Hge.
      rewrite /not_before. rewrite /sort_operator in Hge. destruct rev; by rewrite Hge.
Qed.

(** The binary search returns an index of the list, whatever the list. *)
Lemma find_sorted_index_loop_total fuel w k l sort_key op low high :
  low ≤ high → high ≤ length l → high - low ≤ fuel →
  ∃ r, find_sorted_index_loop fuel w k l sort_key op low high = Ok r ∧
       low ≤ r ≤ high.
Proof.
  revert low high.
  induction fuel as [|fuel IH]; intros low high Hlh Hhl Hfuel.
  - rewrite find_sorted_index_loop_done; [lia|]. exists low. split; [done|lia].
  - destruct (decide (low < high)) as [Hlt|Hlt]; last first.
    { rewrite find_sorted_index_loop_done; [done|]. exists low. split; [done|lia]. }
    rewrite find_sorted_index_loop_S; [done|].
    remember ((low + high) `div` 2) as mid eqn:Hmid.
    assert (low ≤ mid ∧ mid < high) as [Hm1 Hm2].
    { subst mid. split.
      - apply Nat.div_le_lower_bound; lia.
      - apply Nat.Div0.div_lt_upper_bound; lia. }
    clear Hmid.
    destruct (lookup_lt_is_Some_2 l mid) as [x Hx]; [lia|].
    rewrite /PyList.getitem Hx /=.
    destruct (op (sort_key (w x)) k).
    + destruct (IH (mid + 1) high) as (r & -> & ?); [lia|lia|lia|].
      exists r. split; [done|lia].
    + destruct (IH low mid) as (r & -> & ?); [lia|lia|lia|].
      exists r. split; [done|lia].
Qed.

Lemma find_sorted_index_for_item_total w item l sort_key op :
  ∃ r, find_sorted_index_for_item w item l sort_key op = Ok r ∧ r ≤ length l.
Proof.
  rewrite /find_sorted_index_for_item.
  destruct (find_sorted_index_loop_total (length l) w (sort_key (w item)) l sort_key op
              0 (length l)) as (r & -> & ?); [lia|lia|lia|].
  exists r. split; [done|lia].
Qed.

(** The insertion of an item that passes the filter into a derived list in
    the order of the sort key. *)
Lemma item_inserted_sorted w key item (before_index : Z) s (sk : attrs → Z) :
  let k := λ x, sk (w x) in
  let pos := first_index (not_before (sort_reverse s) k (k item)) (items s) in
  (change_level s ≤ 0)%Z →
  sort_key s = Some sk →
  key = items_key s →
  item ∉ master_items s →
  matches (filter s) (w item) = Ok true →
  ordered (sort_reverse s) k (items s) →
  ∃ s', item_inserted w key item before_index s = Ok s' ∧
        items s' = take pos (items s) ++ item :: drop pos (items s) ∧
        emitted s' = emitted s ++ [ItemInserted key item pos] ∧
        pos ≤ length (items s) ∧
        (∀ i x, i < pos → items s !! i = Some x →
                not_before (sort_reverse s) k (k item) x = false) ∧
        (∀ x, items s !! pos = Some x →
              not_before (sort_reverse s) k (k item) x = true).
Proof.
  intros k pos Hlevel Hkey -> Hnot Hm Hord.
  rewrite /item_inserted String.eqb_refl.
  apply contains_false in Hnot. rewrite Hnot /=.
  rewrite /inserted_master_item /=.
  assert ((0 <? change_level s)%Z = false) as -> by lia.
  rewrite Hm /= Hkey.
  rewrite (find_sorted_index_for_item_ordered w item (items s) sk _ Hord) /=.
  eexists. split; [done|]. simpl. split; [done|]. split; [done|].
  split; [apply first_index_le|]. apply first_index_spec.
Qed.

End bisect.

(** ** A derived list as a view of the master list *)

(** [its] holds the items of [L] that satisfy [P], each once; when the view
    is not sorted it holds them in the order of [L]. *)
Definition view (P : Item → Prop) `{∀ x, Decision (P x)} (sorted : bool)
    (L its : list Item) : Prop :=
  its ≡ₚ base.filter P L ∧ (sorted = false → its = base.filter P L).

Section views.
Context (P : Item → Prop) `{∀ x, Decision (P x)}.
Implicit Types (l L its : list Item) (x y : Item) (b : bool).

Lemma view_NoDup b L its : NoDup L → view P b L its → NoDup its.
Proof. intros Hnd [Hp _]. rewrite Hp. by apply NoDup_filter. Qed.

Lemma view_elem_of b L its y : view P b L its → y ∈ its ↔ y ∈ L ∧ P y.
Proof. intros [Hp _]. rewrite Hp list_elem_of_filter. tauto. Qed.

Lemma view_length b L its : view P b L its → length its ≤ length L.
Proof. intros [Hp _]. rewrite Hp. apply length_filter. Qed.

Lemma view_filter b L : view P b L (base.filter P L).
Proof. done. Qed.

Lemma view_insert b l1 l2 its x pos :
  view P b (l1 ++ l2) its → P x →
  (b = false → pos = length (base.filter P l1)) →
  view P b (l1 ++ x :: l2) (PyList.insert pos x its).
Proof.
  intros [Hp He] Hx Hpos. split.
  - rewrite insert_Permutation Hp !filter_app filter_cons_True //.
    by rewrite -Permutation_middle.
  - intros ->. rewrite He // Hpos // !filter_app filter_cons_True //.
    by rewrite /PyList.insert take_app_length drop_app_length.
Qed.

Lemma view_skip b l1 l2 its x :
  view P b (l1 ++ l2) its → ¬ P x → view P b (l1 ++ x :: l2) its.
Proof.
  intros [Hp He] Hx. rewrite /view !filter_app filter_cons_False //.
  by rewrite -filter_app.
Qed.

Lemma view_unskip b l1 l2 its x :
  view P b (l1 ++ x :: l2) its → ¬ P x → view P b (l1 ++ l2) its.
Proof.
  intros [Hp He] Hx. revert Hp He. rewrite /view !filter_app filter_cons_False //.
Qed.

Lemma view_index b l1 l2 its x :
  NoDup (l1 ++ x :: l2) → view P b (l1 ++ x :: l2) its → P x →
  ∃ idx, PyList.index x its = Ok idx ∧ its !! idx = Some x ∧
         (b = false → idx = length (base.filter P l1)).
Proof.
  intros Hnd Hv Hx.
  assert (x ∈ its) as Hin.
  { rewrite (view_elem_of _ _ _ _ Hv). split; [|done]. set_solver. }
  destruct (index_elem_of _ _ Hin) as [idx Hidx]. exists idx.
  split; [done|]. split; [by apply index_lookup|].
  intros ->. destruct Hv as [_ He]. specialize (He eq_refl). subst its.
  revert Hidx. rewrite !filter_app filter_cons_True //.
  intros [Hi Hfirst]%index_Ok.
  assert (x ∉ base.filter P l1) as Hnot.
  { rewrite list_elem_of_filter. apply NoDup_app in Hnd as (_ & Hd & _).
    intros [_ Hl1]. apply (Hd _ Hl1). by left. }
  set (n := length (base.filter P l1)) in *.
  destruct (decide (idx < n)) as [Hlt|Hge].
  - exfalso. apply Hnot. rewrite lookup_app_l // in Hi.
    by eapply list_elem_of_lookup_2.
  - destruct (decide (n < idx)) as [Hgt|]; [|lia].
    exfalso. apply (Hfirst n Hgt). by rewrite list_lookup_middle.
Qed.

Lemma view_delete b l1 l2 its x idx :
  NoDup (l1 ++ x :: l2) → view P b (l1 ++ x :: l2) its → P x →
  PyList.index x its = Ok idx →
  view P b (l1 ++ l2) (delete idx its).
Proof.
  intros Hnd Hv Hx Hidx.
  destruct (view_index _ _ _ _ _ Hnd Hv Hx) as (idx' & Hidx' & Hl & Hpos).
  assert (idx' = idx) as -> by congruence.
  destruct Hv as [Hp He]. split.
  - apply (inj (x ::.)).
    transitivity its; [symmetry; by apply delete_Permutation|].
    rewrite Hp !filter_app filter_cons_True //.
    symmetry. apply Permutation_middle.
  - intros ->. rewrite He // Hpos // !filter_app filter_cons_True //.
    rewrite delete_take_drop take_app_length cons_middle assoc drop_app_length' //.
    rewrite length_app /=. lia.
Qed.

Lemma view_ext (Q : Item → Prop) `{∀ x, Decision (Q x)} b L its :
  (∀ y, y ∈ L → P y ↔ Q y) → view P b L its → view Q b L its.
Proof.
  intros Hpq. rewrite /view.
  assert (base.filter P L = base.filter Q L) as ->; [|done].
  clear its. induction L as [|y L IH]; [done|].
  assert (base.filter P L = base.filter Q L) as IH'.
  { apply IH. intros z Hz. apply Hpq. by right. }
  destruct (decide (P y)) as [Hy|Hy].
  - rewrite !filter_cons_True //; [|by rewrite IH'].
    apply Hpq; [by left|done].
  - rewrite !filter_cons_False //.
    rewrite -Hpq //. by left.
Qed.
End views.

(** ** Lists in the order of the sort key *)

Definition key_le (rev : bool) (key : Item → Z) (x y : Item) : Prop :=
  if rev then (key y ≤ key x)%Z else (key x ≤ key y)%Z.

#[global] Instance key_le_trans rev key : Transitive (key_le rev key).
Proof. intros x y z. rewrite /key_le. destruct rev; lia. Qed.

#[global] Instance key_le_total rev key : Total (key_le rev key).
Proof. intros x y. rewrite /key_le. destruct rev; lia. Qed.

Lemma key_le_flip rev key x y : key_le (negb rev) key x y ↔ flip (key_le rev key) x y.
Proof. rewrite /key_le /flip. by destruct rev. Qed.

Lemma ordered_StronglySorted rev key l :
  ordered rev key l ↔ StronglySorted (key_le rev key) l.
Proof.
  split.
  - induction l as [|x l IH]; intros Hord; [constructor|].
    apply StronglySorted_cons. split.
    + apply Forall_forall. intros y [j Hj]%list_elem_of_lookup.
      apply (Hord 0 (S j) x y); [lia|done|done].
    + apply IH. intros i j y z Hij Hy Hz. apply (Hord (S i) (S j)); [lia|done|done].
  - induction 1 as [|x l Hl IH Hx]; intros i j y z Hij Hy Hz.
    + by rewrite lookup_nil in Hy.
    + rewrite Forall_forall in Hx.
      destruct i as [|i], j as [|j]; simpl in *; simplify_eq.
      * destruct rev; lia.
      * apply Hx. by eapply list_elem_of_lookup_2.
      * lia.
      * apply (IH i j); [lia|done|done].
Qed.

Lemma ordered_delete rev key l i : ordered rev key l → ordered rev key (delete i l).
Proof.
  intros Hord a b x y Hab. rewrite !list_lookup_delete.
  repeat case_decide; intros Hx Hy; (eapply Hord; [|done|done]); lia.
Qed.

Lemma ordered_ext rev key key' l :
  (∀ y, y ∈ l → key y = key' y) → ordered rev key l → ordered rev key' l.
Proof.
  intros Heq Hord i j x y Hij Hx Hy.
  rewrite -!Heq; [by eapply list_elem_of_lookup_2..|]. by eapply Hord.
Qed.

Lemma lookup_pyinsert_lt (l : list Item) pos x a :
  a < pos → pos ≤ length l → PyList.insert pos x l !! a = l !! a.
Proof.
  intros Ha Hpos. rewrite /PyList.insert lookup_app_l; [rewrite length_take; lia|].
  by rewrite lookup_take_lt.
Qed.

Lemma lookup_pyinsert_gt (l : list Item) pos x a :
  pos < a → pos ≤ length l → PyList.insert pos x l !! a = l !! (a - 1).
Proof.
  intros Ha Hpos. rewrite /PyList.insert lookup_app_r length_take; [lia|].
  replace (a - pos `min` length l) with (S (a - 1 - pos)) by lia.
  simpl. rewrite lookup_drop. f_equal. lia.
Qed.

Lemma not_before_false rev key k x :
  not_before rev key k x = false → if rev then (k < key x)%Z else (key x < k)%Z.
Proof. rewrite /not_before. destruct rev; lia. Qed.

Lemma not_before_true rev key k x :
  not_before rev key k x = true → if rev then (key x ≤ k)%Z else (k ≤ key x)%Z.
Proof. rewrite /not_before. destruct rev; lia. Qed.

Lemma ordered_insert rev key l x :
  ordered rev key l →
  ordered rev key (PyList.insert (first_index (not_before rev key (key x)) l) x l).
Proof.
  intros Hord.
  pose proof (first_index_le (not_before rev key (key x)) l) as Hpos.
  destruct (first_index_spec (not_before rev key (key x)) l) as [Hlt Hat].
  set (pos := first_index _ l) in *.
  assert (∀ a y, a < pos → l !! a = Some y → key_le rev key y x) as Hbefore.
  { intros a y Ha Hy. specialize (Hlt a y Ha Hy). apply not_before_false in Hlt.
    rewrite /key_le. destruct rev; lia. }
  assert (∀ a y, pos ≤ a → l !! a = Some y → key_le rev key x y) as Hafter.
  { intros a y Ha Hy.
    destruct (lookup_lt_is_Some_2 l pos) as [z Hz].
    { apply lookup_lt_Some in Hy. lia. }
    specialize (Hat z Hz). apply not_before_true in Hat.
    specialize (Hord pos a z y Ha Hz Hy). rewrite /key_le. destruct rev; lia. }
  intros a b y z Hab Hy Hz. change (key_le rev key y z).
  destruct (lt_eq_lt_dec a pos) as [[Ha| ->]|Ha];
    destruct (lt_eq_lt_dec b pos) as [[Hb| ->]|Hb]; try lia.
  - rewrite lookup_pyinsert_lt in Hy; [lia..|].
    rewrite lookup_pyinsert_lt in Hz; [lia..|].
    apply (Hord a b); [lia|done|done].
  - rewrite lookup_pyinsert_lt in Hy; [lia..|].
    rewrite lookup_pyinsert in Hz; [lia|]. simplify_eq.
    by eapply Hbefore.
  - rewrite lookup_pyinsert_lt in Hy; [lia..|].
    rewrite lookup_pyinsert_gt in Hz; [lia..|].
    apply (Hord a (b - 1)); [lia|done|done].
  - rewrite lookup_pyinsert in Hy; [lia|].
    rewrite lookup_pyinsert in Hz; [lia|]. simplify_eq.
    rewrite /key_le. destruct rev; lia.
  - rewrite lookup_pyinsert in Hy; [lia|].
    rewrite lookup_pyinsert_gt in Hz; [lia..|]. simplify_eq.
    apply (Hafter (b - 1)); [lia|done].
  - rewrite lookup_pyinsert_gt in Hy; [lia..|].
    rewrite lookup_pyinsert_gt in Hz; [lia..|].
    apply (Hord (a - 1) (b - 1)); [lia|done|done].
Qed.

Lemma StronglySorted_sorted_insert key x l :
  StronglySorted (key_le false key) l →
  StronglySorted (key_le false key) (sorted_insert key x l).
Proof.
  induction 1 as [|y l Hl IH Hy]; simpl.
  - repeat constructor.
  - destruct (Z.leb_spec (key x) (key y)).
    + apply StronglySorted_cons. split; [|by constructor].
      constructor; [done|]. eapply Forall_impl; [done|].
      intros z. rewrite /key_le. lia.
    + apply StronglySorted_cons. split; [|done].
      apply Forall_forall. intros z. rewrite sorted_insert_Permutation.
      intros [->|Hz]%elem_of_cons; [rewrite /key_le; lia|].
      rewrite Forall_forall in Hy. by apply Hy.
Qed.

Lemma StronglySorted_stable_sort key l :
  StronglySorted (key_le false key) (stable_sort key l).
Proof.
  induction l as [|x l IH]; simpl; [constructor|].
  by apply StronglySorted_sorted_insert.
Qed.

Lemma Sorted_flip_key_le key l :
  Sorted (flip (key_le false key)) l → Sorted (key_le true key) l.
Proof.
  induction 1 as [|a l' Hl' IH Hhd]; constructor; [done|].
  destruct Hhd; constructor. by apply (key_le_flip false).
Qed.

Lemma ordered_py_sort key rev l : ordered rev key (py_sort key rev l).
Proof.
  apply ordered_StronglySorted. rewrite /py_sort. destruct rev.
  - apply Sorted_StronglySorted; [apply _|].
    apply Sorted_flip_key_le, Sorted_reverse, StronglySorted_Sorted,
      StronglySorted_stable_sort.
  - apply StronglySorted_stable_sort.
Qed.

Lemma ordered_filter (P : Item → Prop) `{∀ x, Decision (P x)} rev key l :
  ordered rev key l → ordered rev key (base.filter P l).
Proof.
  rewrite !ordered_StronglySorted.
  induction 1 as [|x l Hl IH Hx]; [constructor|].
  destruct (decide (P x)).
  - rewrite filter_cons_True //. constructor; [done|].
    rewrite Forall_forall in Hx. apply Forall_forall.
    intros y [_ Hy]%list_elem_of_filter. by apply Hx.
  - by rewrite filter_cons_False.
Qed.

(** Two lists in the order of the sort key that hold the same items are
    equal when no two of the items have the same key. *)
Lemma ordered_unique rev key l1 l2 :
  (∀ x y, x ∈ l1 → y ∈ l1 → key x = key y → x = y) →
  ordered rev key l1 → ordered rev key l2 → l1 ≡ₚ l2 → l1 = l2.
Proof.
  intros Hinj H1%ordered_StronglySorted H2%ordered_StronglySorted Hp.
  eapply StronglySorted_unique_strong; [|done|done|done].
  intros x y Hx Hy Hxy Hyx. apply Hinj; [done|by rewrite Hp|].
  revert Hxy Hyx. rewrite /key_le. destruct rev; lia.
Qed.

(** ** The single-item paths keep the derived list in step *)

Definition is_sorted (s : FilteredListModel) : bool :=
  match sort_key s with Some _ => true | None => false end.

Section single_item.
Context `{Regex}.
Implicit Types (s : FilteredListModel) (w : store) (x y : Item) (l : list Item).

Lemma find_unsorted_index_loop_middle w x f l1 l2 index :
  x ∉ l1 → total_on w f l1 →
  find_unsorted_index_loop w x f (l1 ++ x :: l2) index
  = Ok (index + length (base.filter (passes w f) l1)).
Proof.
  revert index. induction l1 as [|y l1 IH]; intros index Hx Ht; simpl.
  - rewrite decide_True //. f_equal. lia.
  - apply not_elem_of_cons in Hx as [Hne Hx].
    apply total_on_cons in Ht as [[b Hb] Ht].
    rewrite decide_False; [done|]. rewrite Hb /= IH //. f_equal.
    destruct b.
    + rewrite filter_cons_True //=; lia.
    + rewrite filter_cons_False //. rewrite /passes Hb. congruence.
Qed.

(** What [__inserted_master_item] does when no batch is open. *)
Lemma inserted_master_item_Ok w i x s s' l1 l2 :
  (change_level s ≤ 0)%Z →
  master_items s = l1 ++ x :: l2 → x ∉ l1 → total_on w (filter s) l1 →
  inserted_master_item w i x s = Ok s' →
  ∃ b, matches (filter s) (w x) = Ok b ∧
       if b : bool then
         ∃ pos, s' = notify_insert_item (items_key s) x pos
                       (with_items (PyList.insert pos x (items s)) s) ∧
                match sort_key s with
                | Some k =>
                  find_sorted_index_for_item w x (items s) k
                    (sort_operator (sort_reverse s)) = Ok pos
                | None => pos = length (base.filter (passes w (filter s)) l1)
                end
       else s' = s.
Proof.
  intros Hlevel Hm Hx Ht. rewrite /inserted_master_item.
  assert ((0 <? change_level s)%Z = false) as -> by lia.
  intros Hi. inv_ok. exists x0. split; [done|].
  destruct x0; inv_ok; [|done]. subst.
  destruct (sort_key s) as [k|]; [by eauto|].
  revert H1. rewrite /find_unsorted_index_for_item Hm
    find_unsorted_index_loop_middle //=.
  intros [= <-]. eauto.
Qed.

Lemma inserted_master_item_view w i x s s' l1 l2 :
  (change_level s ≤ 0)%Z →
  master_items s = l1 ++ x :: l2 → NoDup (l1 ++ x :: l2) →
  total_on w (filter s) (l1 ++ l2) →
  view (passes w (filter s)) (is_sorted s) (l1 ++ l2) (items s) →
  inserted_master_item w i x s = Ok s' →
  total_on w (filter s') (master_items s') ∧
  view (passes w (filter s')) (is_sorted s') (master_items s') (items s') ∧
  evolves s s'.
Proof.
  intros Hlevel Hm Hnd Ht Hv Hi.
  pose proof (inserted_master_item_evolves _ _ _ _ _ Hi) as Hev.
  assert (x ∉ l1) as Hx1.
  { apply NoDup_app in Hnd as (_ & Hd & _). intros Hin. apply (Hd _ Hin). by left. }
  assert (total_on w (filter s) l1) as Ht1.
  { intros y Hy. apply Ht. set_solver. }
  destruct (inserted_master_item_Ok _ _ _ _ _ _ _ Hlevel Hm Hx1 Ht1 Hi) as (b & Hb & Hs').
  assert (is_sorted s' = is_sorted s) as ->.
  { rewrite /is_sorted. by destruct Hev as [_ _ _ -> _ _ _ _]. }
  rewrite (ev_master _ _ Hev) (ev_filter _ _ Hev) Hm. split; [|split; [|done]].
  - intros y [Hy|[->|Hy]%elem_of_cons]%elem_of_app; [apply Ht; set_solver|eauto|].
    apply Ht. set_solver.
  - destruct b.
    + destruct Hs' as (pos & -> & Hk). simpl.
      apply view_insert; [done|done|].
      rewrite /is_sorted. by destruct (sort_key s).
    + subst. apply view_skip; [done|]. rewrite /passes Hb. congruence.
Qed.

(** What [__removed_master_item] does when no batch is open. *)
Lemma removed_master_item_Ok i x s s' :
  (change_level s ≤ 0)%Z →
  removed_master_item i x s = Ok s' →
  if decide (x ∈ items s) then
    ∃ idx, PyList.index x (items s) = Ok idx ∧
           s' = notify_remove_item (items_key s) x idx (with_items (delete idx (items s)) s)
  else s' = s.
Proof.
  intros Hlevel. rewrite /removed_master_item.
  assert ((0 <? change_level s)%Z = false) as -> by lia.
  rewrite /PyList.contains. case_decide.
  - rewrite bool_decide_true //. intros Hr. inv_ok.
    match goal with H : PyList.del _ _ = Ok _ |- _ => apply del_Ok in H as [? ->] end.
    subst. eauto.
  - rewrite bool_decide_false //. by intros [= <-].
Qed.

Lemma removed_master_item_view (P : Item → Prop) `{∀ y, Decision (P y)} b i x s s' l1 l2 :
  (change_level s ≤ 0)%Z →
  NoDup (l1 ++ x :: l2) →
  view P b (l1 ++ x :: l2) (items s) →
  removed_master_item i x s = Ok s' →
  view P b (l1 ++ l2) (items s') ∧ evolves s s'.
Proof.
  intros Hlevel Hnd Hv Hr.
  pose proof (removed_master_item_evolves _ _ _ _ Hr) as Hev. split; [|done].
  apply removed_master_item_Ok in Hr; [|done].
  case_decide as Hin.
  - destruct Hr as (idx & Hidx & ->). simpl.
    eapply view_delete; [done|done| |done].
    by apply (view_elem_of P b _ _ x Hv) in Hin as [_ ?].
  - subst. apply view_unskip with x; [done|]. intros HP. apply Hin.
    apply (view_elem_of P b _ _ x Hv). split; [set_solver|done].
Qed.
End single_item.

(** ** The invariant of the single-item paths *)

(** No batch is open, the master list holds no item twice, the filter
    gives a verdict on every master item, and the derived list is a view of
    the master list. *)
Record in_step `{Regex} (w : store) (s : FilteredListModel) : Prop := {
  is_level : (change_level s ≤ 0)%Z;
  is_master : NoDup (master_items s);
  is_total : total_on w (filter s) (master_items s);
  is_view : view (passes w (filter s)) (is_sorted s) (master_items s) (items s) }.

Section in_step.
Context `{Regex}.
Implicit Types (s : FilteredListModel) (w : store) (x y : Item) (l : list Item).

Lemma evolves_is_sorted s s' : evolves s s' → is_sorted s' = is_sorted s.
Proof. intros Hev. by rewrite /is_sorted (ev_sort_key _ _ Hev). Qed.

Lemma in_step_insert w i x s s' l1 l2 :
  (change_level s ≤ 0)%Z →
  master_items s = l1 ++ x :: l2 → NoDup (l1 ++ x :: l2) →
  total_on w (filter s) (l1 ++ l2) →
  view (passes w (filter s)) (is_sorted s) (l1 ++ l2) (items s) →
  inserted_master_item w i x s = Ok s' →
  in_step w s' ∧ evolves s s'.
Proof.
  intros Hlevel Hm Hnd Ht Hv Hi.
  destruct (inserted_master_item_view _ _ _ _ _ _ _ Hlevel Hm Hnd Ht Hv Hi)
    as (Ht' & Hv' & Hev).
  split; [|done]. split; [|  |done|done].
  - by rewrite (ev_change_level _ _ Hev).
  - by rewrite (ev_master _ _ Hev) Hm.
Qed.

Lemma updated_master_item_in_step w w' x s s' :
  in_step w s → x ∈ master_items s → (∀ y, y ≠ x → w' y = w y) →
  updated_master_item w' x s = Ok s' →
  in_step w' s' ∧ evolves s s'.
Proof.
  intros [Hlevel Hnd Ht Hv] Hx Hw Hu.
  pose proof (updated_master_item_evolves _ _ _ _ Hu) as Hev. split; [|done].
  destruct (list_elem_of_split _ _ Hx) as (l1 & l2 & Hm).
  rewrite Hm in Hnd Ht Hv.
  assert (x ∉ l1 ++ l2) as Hx12.
  { apply NoDup_app in Hnd as (_ & Hd & Hnd2). apply NoDup_cons in Hnd2 as [? _].
    intros [Hin|Hin]%elem_of_app; [|done]. apply (Hd _ Hin). by left. }
  assert (∀ y, y ∈ l1 ++ l2 → w' y = w y) as Hw12.
  { intros y Hy. apply Hw. by intros ->. }
  assert (total_on w' (filter s) (l1 ++ l2)) as Ht'.
  { intros y Hy. rewrite Hw12 //. apply Ht. set_solver. }
  assert (∀ y, y ∈ l1 ++ l2 → passes w (filter s) y ↔ passes w' (filter s) y) as Hext.
  { intros y Hy. by rewrite /passes Hw12. }
  assert (x ∈ items s ↔ passes w (filter s) x) as Hin.
  { rewrite (view_elem_of _ _ _ _ x Hv). set_solver. }
  (* the two calls the procedure is made of *)
  assert (∀ i s1, removed_master_item i x s = Ok s1 →
            view (passes w' (filter s)) (is_sorted s) (l1 ++ l2) (items s1) ∧
            evolves s s1) as Hremove.
  { intros i s1 Hr.
    destruct (removed_master_item_view _ _ _ _ _ _ _ _ Hlevel Hnd Hv Hr) as [Hv1 Hev1].
    split; [|done]. by eapply view_ext. }
  assert (∀ i s1 s2, evolves s s1 →
            view (passes w' (filter s)) (is_sorted s) (l1 ++ l2) (items s1) →
            inserted_master_item w' i x s1 = Ok s2 → in_step w' s2) as Hinsert.
  { intros i s1 s2 Hev1 Hv1 Hi.
    eapply (in_step_insert w' i x s1 s2 l1 l2).
    - by rewrite (ev_change_level _ _ Hev1).
    - by rewrite (ev_master _ _ Hev1).
    - done.
    - by rewrite (ev_filter _ _ Hev1).
    - by rewrite (ev_filter _ _ Hev1) (evolves_is_sorted _ _ Hev1).
    - done. }
  assert (¬ x ∈ items s →
          view (passes w' (filter s)) (is_sorted s) (l1 ++ l2) (items s)) as Habsent.
  { intros Hnot. eapply view_ext; [done|]. apply view_unskip with x; [done|].
    by rewrite -Hin. }
  revert Hu. rewrite /updated_master_item.
  assert ((0 <? change_level s)%Z = false) as -> by lia.
  intros Hu. inv_ok. rename x0 into b, H0 into Hb.
  assert (total_on w' (filter s) (master_items s)) as Htm.
  { rewrite Hm. intros y [Hy|[->|Hy]%elem_of_cons]%elem_of_app;
      [apply Ht'; set_solver|eauto|apply Ht'; set_solver]. }
  assert (∀ b', (x ∈ items s ↔ b' = true) → b = b' → in_step w' s) as Hsame.
  { intros b' Hb' <-. split; [done|by rewrite Hm|done|]. rewrite Hm.
    eapply view_ext; [|done].
    intros y [Hy|[->|Hy]%elem_of_cons]%elem_of_app;
      [apply Hext; set_solver| |apply Hext; set_solver].
    rewrite -Hin Hb' /passes Hb. split; congruence. }
  destruct (PyList.contains x (items s)) eqn:Hc;
    [apply contains_true in Hc|apply contains_false in Hc].
  - destruct b.
    + destruct (sort_key s) as [k|] eqn:Hk; simpl in Hu; [|inv_ok; subst; by eapply Hsame].
      inv_ok. repeat case_decide; inv_ok; subst.
      * match goal with Hr : removed_master_item _ _ _ = Ok _ |- _ =>
          destruct (Hremove _ _ Hr) as [Hv1 Hev1] end.
        by eapply Hinsert.
      * match goal with Hr : removed_master_item _ _ _ = Ok _ |- _ =>
          destruct (Hremove _ _ Hr) as [Hv1 Hev1] end.
        by eapply Hinsert.
      * by eapply Hsame.
    + inv_ok. destruct (Hremove _ _ Hu) as [Hv1 Hev1].
      split.
      * by rewrite (ev_change_level _ _ Hev1).
      * by rewrite (ev_master _ _ Hev1) Hm.
      * by rewrite (ev_master _ _ Hev1) (ev_filter _ _ Hev1).
      * rewrite (ev_master _ _ Hev1) (ev_filter _ _ Hev1) (evolves_is_sorted _ _ Hev1) Hm.
        apply view_skip; [done|]. rewrite /passes Hb. congruence.
  - destruct b.
    + destruct (sort_key s) as [k|] eqn:Hk; simpl in Hu; inv_ok.
      * eapply Hinsert; [apply evolves_refl|by apply Habsent|done].
      * eapply Hinsert; [apply evolves_refl|by apply Habsent|done].
    + inv_ok. subst. eapply (Hsame false); [|done]. split; [done|congruence].
Qed.
End in_step.

(** ** The single-item paths and the order of the sort key *)

Section keeps_order.
Context `{Regex}.
Implicit Types (s : FilteredListModel) (w : store) (x y : Item) (l : list Item).

Lemma inserted_master_item_ordered w i x s s' k :
  sort_key s = Some k →
  ordered (sort_reverse s) (λ y, k (w y)) (items s) →
  inserted_master_item w i x s = Ok s' →
  ordered (sort_reverse s') (λ y, k (w y)) (items s').
Proof.
  intros Hk Hord. rewrite /inserted_master_item.
  destruct (0 <? change_level s)%Z; [by intros [= <-]|].
  intros Hi. inv_ok. destruct x0; inv_ok; subst; [|done].
  rewrite Hk find_sorted_index_for_item_ordered // in H1. inv_ok. subst.
  simpl. by apply (ordered_insert _ (λ y, k (w y))).
Qed.

Lemma removed_master_item_ordered i x s s' key :
  ordered (sort_reverse s) key (items s) →
  removed_master_item i x s = Ok s' →
  ordered (sort_reverse s') key (items s').
Proof.
  intros Hord. rewrite /removed_master_item.
  destruct (0 <? change_level s)%Z; [by intros [= <-]|].
  destruct (PyList.contains x (items s)); [|by intros [= <-]].
  intros Hr. inv_ok.
  match goal with Hd : PyList.del _ _ = Ok _ |- _ => apply del_Ok in Hd as [? ->] end.
  subst. simpl. by apply ordered_delete.
Qed.

Lemma updated_master_item_ordered w x s s' k :
  sort_key s = Some k →
  ordered (sort_reverse s) (λ y, k (w y)) (items s) →
  updated_master_item w x s = Ok s' →
  ordered (sort_reverse s') (λ y, k (w y)) (items s').
Proof.
  intros Hk Hord. rewrite /updated_master_item.
  destruct (0 <? change_level s)%Z; [by intros [= <-]|].
  intros Hu. inv_ok. rewrite Hk in Hu.
  assert (∀ i j s1 s2, removed_master_item i x s = Ok s1 →
            inserted_master_item w j x s1 = Ok s2 →
            ordered (sort_reverse s2) (λ y, k (w y)) (items s2)) as Hmove.
  { intros i j s1 s2 Hr Hi.
    pose proof (removed_master_item_evolves _ _ _ _ Hr) as Hev1.
    eapply removed_master_item_ordered in Hr; [|done].
    eapply inserted_master_item_ordered; [|done|done].
    by rewrite (ev_sort_key _ _ Hev1). }
  destruct x0.
  - inv_ok. destruct (PyList.contains x (items s)).
    + inv_ok. repeat case_decide; inv_ok; subst; [| |done].
      * by eapply Hmove.
      * by eapply Hmove.
    + by eapply inserted_master_item_ordered.
  - destruct (PyList.contains x (items s)); inv_ok; subst; [|done].
    by eapply removed_master_item_ordered.
Qed.
End keeps_order.

(** ** The container and the engine in step *)

(** The engine is attached to the container: it has its key, mirrors its
    items, and listens to each of them. *)
Record attached (σ : system) : Prop := {
  at_key : lm_key (container σ) = items_key (model σ);
  at_items : lm_items (container σ) = master_items (model σ);
  at_listeners : listeners (model σ) = list_to_set (master_items (model σ)) }.

(** The notifications of the container and of its items. *)
Definition container_op (o : op) : Prop :=
  match o with
  | InsertItem _ _ | RemoveItem _ | ItemChanged _ _ => True
  | _ => False
  end.

(** The operation does not change the sort key of an item of the derived
    list. *)
Definition key_stable (σ : system) (o : op) : Prop :=
  match o with
  | ItemChanged x d =>
    ∀ k, sort_key (model σ) = Some k → x ∈ items (model σ) → k d = k (world σ x)
  | _ => True
  end.

Lemma item_index_Ok i n k :
  PyList.item_index i n = Ok k → k < n.
Proof.
  rewrite /PyList.item_index. cbv zeta.
  destruct (_ && _) eqn:Hb; [|done].
  apply andb_prop in Hb as [Hb1 Hb2]. intros [= <-].
  destruct (i <? 0)%Z; lia.
Qed.

Lemma insertz_split (l : list Item) i x :
  ∃ l1 l2, l = l1 ++ l2 ∧ PyList.insertz i x l = l1 ++ x :: l2 ∧
           length l1 = PyList.insert_index i (length l).
Proof.
  exists (take (PyList.insert_index i (length l)) l),
         (drop (PyList.insert_index i (length l)) l).
  split; [by rewrite take_drop|]. split; [done|].
  rewrite length_take /PyList.insert_index. destruct (Z.ltb_spec i 0); lia.
Qed.

Lemma remove_split (l : list Item) i x l' :
  PyList.getitemz i l = Ok x → PyList.delz i l = Ok l' →
  ∃ l1 l2, l = l1 ++ x :: l2 ∧ l' = l1 ++ l2.
Proof.
  rewrite /PyList.getitemz /PyList.delz.
  destruct (PyList.item_index i (length l)) as [k|] eqn:Hk; simpl; [|done].
  intros Hx%getitem_Ok [_ ->]%del_Ok.
  exists (take k l), (drop (S k) l). split.
  - by rewrite take_drop_middle.
  - apply delete_take_drop.
Qed.

(** The master list follows the container at every step. *)
Section mirror_steps.
Context `{Regex}.

Lemma evolves_attached (w : store) (c : ListModel) (m0 m : FilteredListModel) :
  evolves m0 m →
  lm_key c = items_key m0 → lm_items c = master_items m0 →
  listeners m0 = list_to_set (master_items m0) → NoDup (master_items m0) →
  attached {| world := w; container := c; model := m |} ∧ NoDup (master_items m).
Proof.
  intros Hev Hk Hi Hl Hnd. split; [split; simpl|].
  - by rewrite (ev_key _ _ Hev).
  - by rewrite (ev_master _ _ Hev).
  - by rewrite (ev_master _ _ Hev) (ev_listeners _ _ Hev).
  - by rewrite (ev_master _ _ Hev).
Qed.

Lemma step_mirror (o : op) (σ σ' : system) :
  attached σ → NoDup (master_items (model σ)) →
  step o σ = Ok σ' →
  attached σ' ∧ NoDup (master_items (model σ')).
Proof.
  intros [Hkey Hitems Hl] Hnd.
  destruct o as [index value|index|value d| | |f|k|b]; simpl; intros Hstep.
  - rewrite Hkey /item_inserted String.eqb_refl in Hstep. inv_ok. subst.
    match goal with Hn : negb _ = true |- _ =>
      apply negb_true_iff, contains_false in Hn; rename Hn into Hx end.
    match goal with Hi : inserted_master_item _ _ _ _ = _ |- _ =>
      apply inserted_master_item_evolves in Hi; rename Hi into Hev end.
    destruct (insertz_split (master_items (model σ)) index value) as (l1 & l2 & Hm & Hins & _).
    eapply evolves_attached; [exact Hev|done|by rewrite /= Hitems| |]; simpl.
    + rewrite Hl Hins Hm !list_to_set_app_L list_to_set_cons. set_solver.
    + rewrite Hins -Permutation_middle. constructor; [by rewrite -Hm|by rewrite -Hm].
  - revert Hstep. rewrite /lm_remove_item Hitems.
    destruct (PyList.getitemz index _) as [value|] eqn:Hget; simpl; [|done].
    destruct (PyList.delz index _) as [l'|] eqn:Hdel; simpl; [|done].
    destruct (remove_split _ _ _ _ Hget Hdel) as (l1 & l2 & Hm & ->).
    rewrite Hkey /item_removed String.eqb_refl Hdel /=.
    intros Hstep. inv_ok. subst.
    match goal with Hi : removed_master_item _ _ _ = _ |- _ =>
      apply removed_master_item_evolves in Hi; rename Hi into Hev end.
    rewrite Hm in Hnd.
    assert (value ∉ l1 ++ l2) as Hx.
    { apply NoDup_app in Hnd as (_ & Hd & Hnd2). apply NoDup_cons in Hnd2 as [? _].
      intros [Hin|Hin]%elem_of_app; [|done]. apply (Hd _ Hin). by left. }
    eapply evolves_attached; [exact Hev|done|done| |]; simpl.
    + rewrite Hl Hm !list_to_set_app_L list_to_set_cons.
      apply not_elem_of_app in Hx as [Hx1 Hx2].
      assert (value ∉ (list_to_set l1 : gset Item)) by by rewrite elem_of_list_to_set.
      assert (value ∉ (list_to_set l2 : gset Item)) by by rewrite elem_of_list_to_set.
      set_solver.
    + rewrite -Permutation_middle in Hnd. by apply NoDup_cons in Hnd as [_ ?].
  - case_decide; inv_ok; subst.
    + match goal with Hi : item_content_changed _ _ _ = _ |- _ =>
        revert Hi; rewrite /item_content_changed; intros Hc end.
      inv_ok.
      match goal with Hi : updated_master_item _ _ _ = _ |- _ =>
        apply updated_master_item_evolves in Hi; rename Hi into Hev end.
      by eapply evolves_attached.
    + by split.
  - injection Hstep as <-. by split.
  - inv_ok. subst.
    match goal with Hi : end_change _ _ = _ |- _ =>
      revert Hi; rewrite /end_change; simpl; intros Hend end.
    destruct (_ =? _)%Z.
    + apply update_items_evolves in Hend. by eapply evolves_attached.
    + injection Hend as <-. by split.
  - inv_ok. subst.
    match goal with Hi : set_filter _ _ _ = _ |- _ =>
      apply update_items_evolves in Hi; rename Hi into Hev end.
    by eapply evolves_attached.
  - inv_ok. subst.
    match goal with Hi : set_sort_key _ _ _ = _ |- _ =>
      apply update_items_evolves in Hi; rename Hi into Hev end.
    by eapply evolves_attached.
  - inv_ok. subst.
    match goal with Hi : set_sort_reverse _ _ _ = _ |- _ =>
      apply update_items_evolves in Hi; rename Hi into Hev end.
    by eapply evolves_attached.
Qed.
End mirror_steps.

(** ** Batches and the master list *)

(** The container after the insertions and removals of a sequence of
    operations. *)
Fixpoint container_after (ops : list op) (c : ListModel) : result ListModel :=
  match ops with
  | [] => Ok c
  | InsertItem index value :: ops' => container_after ops' (lm_insert_item index value c)
  | RemoveItem index :: ops' =>
    '(_, c') ← lm_remove_item index c; container_after ops' c'
  | _ :: ops' => container_after ops' c
  end.

(** The attributes of the objects after the updates of a sequence of
    operations. *)
Fixpoint world_after (ops : list op) (w : store) : store :=
  match ops with
  | [] => w
  | ItemChanged value d :: ops' => world_after ops' (store_set w value d)
  | _ :: ops' => world_after ops' w
  end.

(** The filter, the sort key and the sort direction of an engine, and what
    they are after the assignments of a sequence of operations. *)
Definition settings (s : FilteredListModel) : Filter * option (attrs → Z) * bool :=
  (filter s, sort_key s, sort_reverse s).

Fixpoint settings_after (ops : list op) (st : Filter * option (attrs → Z) * bool)
    : Filter * option (attrs → Z) * bool :=
  match ops with
  | [] => st
  | SetFilter f :: ops' => settings_after ops' (f, st.1.2, st.2)
  | SetSortKey k :: ops' => settings_after ops' (st.1.1, k, st.2)
  | SetSortReverse b :: ops' => settings_after ops' (st.1.1, st.1.2, b)
  | _ :: ops' => settings_after ops' st
  end.

Lemma nesting_app (d d2 : nat) (ops1 ops2 : list op) :
  nesting d (ops1 ++ ops2) = Some d2 →
  ∃ d1, nesting d ops1 = Some d1 ∧ nesting d1 ops2 = Some d2.
Proof.
  revert d. induction ops1 as [|o ops1 IH]; intros d; simpl; [by eauto|].
  destruct o; try apply IH. destruct d; [done|apply IH].
Qed.

Section batches_and_master.
Context `{Regex}.
Implicit Types (s : FilteredListModel) (w : store) (σ : system).

Lemma run_app ops1 ops2 σ σ' :
  run (ops1 ++ ops2) σ = Ok σ' →
  ∃ σm, run ops1 σ = Ok σm ∧ run ops2 σm = Ok σ'.
Proof.
  revert σ. induction ops1 as [|o ops1 IH]; intros σ; simpl; [by eauto|].
  destruct (step o σ) as [σ1|]; simpl; [apply IH|done].
Qed.

Lemma run_mirror ops σ σ' :
  attached σ → NoDup (master_items (model σ)) →
  run ops σ = Ok σ' →
  attached σ' ∧ NoDup (master_items (model σ')).
Proof.
  revert σ. induction ops as [|o ops IH]; intros σ Ha Hnd; simpl.
  - by intros [= <-].
  - destruct (step o σ) as [σ1|] eqn:Hs; simpl; [|done].
    destruct (step_mirror _ _ _ Ha Hnd Hs) as [Ha1 Hnd1]. by apply IH.
Qed.

Lemma run_container_after ops σ σ' :
  run ops σ = Ok σ' →
  container_after ops (container σ) = Ok (container σ') ∧
  world σ' = world_after ops (world σ).
Proof.
  revert σ. induction ops as [|o ops IH]; intros σ; simpl.
  - by intros [= <-].
  - destruct (step o σ) as [σ1|] eqn:Hs; simpl; [|done]. intros Hr.
    apply IH in Hr as [Hc Hw].
    destruct o; simpl in Hs.
    + destruct (item_inserted _ _ _ _ _); simpl in Hs; [|done]. by injection Hs as <-.
    + destruct (lm_remove_item _ _) as [[value c]|]; simpl in *; [|done].
      destruct (item_removed _ _ _ _); simpl in Hs; [|done]. by injection Hs as <-.
    + destruct (if decide _ then _ else _); simpl in Hs; [|done]. by injection Hs as <-.
    + by injection Hs as <-.
    + destruct (end_change _ _); simpl in Hs; [|done]. by injection Hs as <-.
    + destruct (set_filter _ _ _); simpl in Hs; [|done]. by injection Hs as <-.
    + destruct (set_sort_key _ _ _); simpl in Hs; [|done]. by injection Hs as <-.
    + destruct (set_sort_reverse _ _ _); simpl in Hs; [|done]. by injection Hs as <-.
Qed.

Lemma step_batched_settings o σ σ' (d : nat) :
  change_level (model σ) = (1 + Z.of_nat d)%Z →
  (o = EndChange → 0 < d) →
  step o σ = Ok σ' →
  settings (model σ') = settings_after [o] (settings (model σ)).
Proof.
  intros Hlevel Hend.
  assert (∀ s, change_level s = change_level (model σ) → (0 <? change_level s)%Z = true)
    as Hpos by (intros; lia).
  destruct o; simpl; intros Hs; inv_ok; subst; simpl.
  - revert H0. rewrite /item_inserted. destruct (String.eqb _ _); [|by intros [= <-]].
    intros Hi. inv_ok. revert Hi. rewrite /inserted_master_item Hpos //.
    by intros [= <-].
  - destruct x as [value c]. inv_ok. subst. simpl.
    revert H1. rewrite /item_removed. destruct (String.eqb _ _); [|by intros [= <-]].
    intros Hi. inv_ok. revert Hi. rewrite /removed_master_item Hpos //.
    by intros [= <-].
  - case_decide; inv_ok; [|by subst].
    revert H0. rewrite /item_content_changed /updated_master_item Hpos //.
    intros Hi. inv_ok. by subst.
  - done.
  - destruct d as [|d]; [specialize (Hend eq_refl); lia|].
    revert H0. rewrite /end_change /= Hlevel.
    destruct (Z.eqb_spec (1 + Z.of_nat (S d) - 1) 0); [lia|].
    by intros [= <-].
  - revert H0. rewrite /set_filter /update_items Hpos //. by intros [= <-].
  - revert H0. rewrite /set_sort_key /update_items Hpos //. by intros [= <-].
  - revert H0. rewrite /set_sort_reverse /update_items Hpos //. by intros [= <-].
Qed.

Lemma settings_after_cons o ops st :
  settings_after (o :: ops) st = settings_after ops (settings_after [o] st).
Proof. by destruct o. Qed.

Lemma run_batched_settings body σ σ' (d d' : nat) :
  change_level (model σ) = (1 + Z.of_nat d)%Z →
  nesting d body = Some d' →
  run body σ = Ok σ' →
  settings (model σ') = settings_after body (settings (model σ)).
Proof.
  revert σ d. induction body as [|o body IH]; intros σ d Hlevel Hn; simpl.
  - by intros [= <-].
  - destruct (step o σ) as [σ1|] eqn:Hs; simpl; [|done]. intros Hr.
    assert (o = EndChange → 0 < d) as Hend.
    { intros ->. destruct d; [done|lia]. }
    destruct (step_batched o σ σ1 d Hlevel Hend Hs) as (_ & _ & d1 & Hd1 & Hl1).
    assert (nesting d1 body = Some d') as Hn1.
    { destruct o; simpl in *; try (by injection Hd1 as <-).
      destruct d; [done|]. by injection Hd1 as <-. }
    rewrite (IH σ1 d1 Hl1 Hn1 Hr).
    rewrite (step_batched_settings o σ σ1 d Hlevel Hend Hs).
    by destruct o.
Qed.

(** C5. [begin_change] and [end_change] nest through the counter of the
    engine.  Take an attached engine with no batch open and run
    [begin_change], a well-nested sequence of container notifications,
    setting changes and inner batches, and the closing [end_change].  At
    every point inside the batch the derived list and the published events
    are what they were before the batch, while the master list has followed
    every insertion and removal of the container, and the assigned settings
    are stored.  The [end_change] that returns the counter to 0 is one call
    of [__update_items]: it leaves the master list and the settings alone,
    leaves the derived list built from the master list, the filter and the
    sort settings of that moment, and its events turn the derived list from
    before the batch into that list. *)
Theorem C5_batching (σ σ2 : system) (body : list op) :
  attached σ → NoDup (master_items (model σ)) →
  change_level (model σ) = 0%Z →
  nesting 0 body = Some 0 →
  run (BeginChange :: body ++ [EndChange]) σ = Ok σ2 →
  (∀ pre post, body = pre ++ post →
     ∃ σp, run (BeginChange :: pre) σ = Ok σp ∧
           (0 < change_level (model σp))%Z ∧
           items (model σp) = items (model σ) ∧
           emitted (model σp) = emitted (model σ) ∧
           container_after pre (container σ) = Ok (container σp) ∧
           master_items (model σp) = lm_items (container σp) ∧
           listeners (model σp) = list_to_set (master_items (model σp)) ∧
           settings (model σp) = settings_after pre (settings (model σ)) ∧
           world σp = world_after pre (world σ)) ∧
  ∃ σ1, run (BeginChange :: body) σ = Ok σ1 ∧
        change_level (model σ1) = 1%Z ∧
        end_change (world σ1) (model σ1)
        = update_items (world σ1) (with_change_level 0 (model σ1)) ∧
        step EndChange σ1 = Ok σ2 ∧
        change_level (model σ2) = 0%Z ∧
        world σ2 = world σ1 ∧ container σ2 = container σ1 ∧
        master_items (model σ2) = master_items (model σ1) ∧
        master_items (model σ2) = lm_items (container σ2) ∧
        settings (model σ2) = settings (model σ1) ∧
        build_items (world σ2) (model σ2) = Ok (items (model σ2)) ∧
        ∃ es, emitted (model σ2) = emitted (model σ) ++ es ∧
              replay es (items (model σ)) = Ok (items (model σ2)).
Proof.
  intros Ha Hnd Hlevel Hn Hrun.
  set (σb := with_model σ (begin_change (model σ))).
  assert (change_level (model σb) = (1 + Z.of_nat 0)%Z) as Hlb by (simpl; lia).
  assert (attached σb ∧ NoDup (master_items (model σb))) as [Hab Hndb].
  { by apply (run_mirror [BeginChange] σ). }
  assert (∀ pre d1 σp, nesting 0 pre = Some d1 → run pre σb = Ok σp →
            (0 < change_level (model σp))%Z ∧
            items (model σp) = items (model σ) ∧
            emitted (model σp) = emitted (model σ) ∧
            container_after pre (container σ) = Ok (container σp) ∧
            master_items (model σp) = lm_items (container σp) ∧
            listeners (model σp) = list_to_set (master_items (model σp)) ∧
            settings (model σp) = settings_after pre (settings (model σ)) ∧
            world σp = world_after pre (world σ) ∧
            change_level (model σp) = (1 + Z.of_nat d1)%Z) as Hin.
  { intros pre d1 σp Hn1 Hr1.
    destruct (run_batched pre σb σp 0 d1 Hlb Hn1 Hr1) as (Hi & He & Hl).
    destruct (run_mirror pre σb σp Hab Hndb Hr1) as [[_ Hm Hls] _].
    destruct (run_container_after pre σb σp Hr1) as [Hc Hw].
    pose proof (run_batched_settings pre σb σp 0 d1 Hlb Hn1 Hr1) as Hset.
    split; [lia|]. split; [done|]. split; [done|]. split; [done|].
    split; [done|]. split; [done|]. split; [done|]. split; [done|]. done. }
  simpl in Hrun. change (run (body ++ [EndChange]) σb = Ok σ2) in Hrun.
  apply run_app in Hrun as (σ1 & Hb & He). split.
  - intros pre post ->.
    apply nesting_app in Hn as (d1 & Hn1 & _).
    apply run_app in Hb as (σp & Hp & _).
    exists σp. split; [done|].
    destruct (Hin pre d1 σp Hn1 Hp) as (? & ? & ? & ? & ? & ? & ? & ? & _).
    by repeat split.
  - exists σ1. split; [done|].
    destruct (Hin body 0 σ1 Hn Hb) as (_ & Hi & Hev & _ & Hm & _ & _ & _ & Hl).
    simpl in Hl. split; [done|].
    assert (end_change (world σ1) (model σ1)
            = update_items (world σ1) (with_change_level 0 (model σ1))) as Hend.
    { by rewrite /end_change Hl /=. }
    split; [done|]. simpl in He.
    destruct (end_change (world σ1) (model σ1)) as [m|e] eqn:Hm1; simpl in He; [|done].
    injection He as <-. split; [by rewrite /= Hm1|]. simpl.
    symmetry in Hend.
    pose proof (update_items_evolves _ _ _ Hend) as [_ Hm2 Hf2 Hk2 Hr2 Hl2 _ (es & Hes & Hrep)].
    simpl in *.
    split; [done|]. split; [done|]. split; [done|]. split; [done|].
    split; [by rewrite Hm2|]. split; [by rewrite /settings Hf2 Hk2 Hr2|].
    split; [by eapply update_items_result in Hend as [_ ?]|].
    exists es. by rewrite Hes Hev -Hi.
Qed.
End batches_and_master.

Section steps.
Context `{Regex}.
Implicit Types (s : FilteredListModel) (w : store) (x y : Item) (σ : system).

Lemma item_inserted_in_step w x i s s' :
  in_step w s → listeners s = list_to_set (master_items s) →
  item_inserted w (items_key s) x i s = Ok s' →
  in_step w s' ∧ (x ∉ master_items s) ∧
  master_items s' = PyList.insertz i x (master_items s) ∧
  listeners s' = list_to_set (master_items s') ∧
  evolves (with_listeners ({[x]} ∪ listeners s)
             (with_master (PyList.insertz i x (master_items s)) s)) s'.
Proof.
  intros [Hlevel Hnd Ht Hv] Hl. rewrite /item_inserted String.eqb_refl.
  intros Hi. inv_ok. apply negb_true_iff, contains_false in H0.
  destruct (insertz_split (master_items s) i x) as (l1 & l2 & Hm & Hins & _).
  rewrite Hm in Hnd Ht Hv.
  assert (NoDup (l1 ++ x :: l2)) as Hnd'.
  { rewrite -Permutation_middle. constructor; [by rewrite -Hm|done]. }
  match type of Hi with inserted_master_item _ _ _ ?s2 = _ =>
    destruct (in_step_insert w i x s2 s' l1 l2 Hlevel Hins Hnd' Ht Hv Hi) as [Hs' Hev]
  end.
  split; [done|]. split; [done|].
  rewrite (ev_master _ _ Hev) (ev_listeners _ _ Hev) /=. split; [done|]. split; [|done].
  rewrite Hl Hins Hm !list_to_set_app_L list_to_set_cons. set_solver.
Qed.

Lemma item_removed_in_step w x i s s' l1 l2 :
  in_step w s → listeners s = list_to_set (master_items s) →
  master_items s = l1 ++ x :: l2 →
  PyList.delz i (master_items s) = Ok (l1 ++ l2) →
  item_removed (items_key s) x i s = Ok s' →
  in_step w s' ∧ master_items s' = l1 ++ l2 ∧
  listeners s' = list_to_set (master_items s') ∧
  evolves (with_listeners (listeners s ∖ {[x]}) (with_master (l1 ++ l2) s)) s'.
Proof.
  intros [Hlevel Hnd Ht Hv] Hl Hm Hdel. rewrite /item_removed String.eqb_refl Hdel /=.
  intros Hr. inv_ok. rewrite Hm in Hnd Ht Hv.
  match type of Hr with removed_master_item _ _ ?s2 = _ =>
    destruct (removed_master_item_view (passes w (filter s)) (is_sorted s) i x s2 s' l1 l2
                Hlevel Hnd Hv Hr) as [Hv' Hev]
  end.
  assert (x ∉ l1 ++ l2) as Hx.
  { apply NoDup_app in Hnd as (_ & Hd & Hnd2). apply NoDup_cons in Hnd2 as [? _].
    intros [Hin|Hin]%elem_of_app; [|done]. apply (Hd _ Hin). by left. }
  assert (NoDup (l1 ++ l2)) as Hnd'.
  { rewrite -Permutation_middle in Hnd. by apply NoDup_cons in Hnd as [_ ?]. }
  split; [|split; [by rewrite (ev_master _ _ Hev)|split; [|done]]].
  - split.
    + by rewrite (ev_change_level _ _ Hev).
    + by rewrite (ev_master _ _ Hev).
    + rewrite (ev_master _ _ Hev) (ev_filter _ _ Hev) /=.
      intros y Hy. apply Ht. set_solver.
    + by rewrite (ev_master _ _ Hev) (ev_filter _ _ Hev) (evolves_is_sorted _ _ Hev).
  - rewrite (ev_master _ _ Hev) (ev_listeners _ _ Hev) /= Hl Hm.
    rewrite !list_to_set_app_L list_to_set_cons.
    apply not_elem_of_app in Hx as [Hx1 Hx2].
    assert (x ∉ (list_to_set l1 : gset Item)) by by rewrite elem_of_list_to_set.
    assert (x ∉ (list_to_set l2 : gset Item)) by by rewrite elem_of_list_to_set.
    set_solver.
Qed.

Lemma store_set_other w x d y : y ≠ x → store_set w x d y = w y.
Proof. intros Hne. by rewrite /store_set decide_False. Qed.

Lemma item_content_changed_in_step w x d s s' :
  in_step w s →
  item_content_changed (store_set w x d) x s = Ok s' →
  in_step (store_set w x d) s' ∧ evolves s s'.
Proof.
  intros Hs. rewrite /item_content_changed. intros Hc. inv_ok.
  apply contains_true in H0.
  eapply updated_master_item_in_step; [done|done| |done].
  intros y Hy. by apply store_set_other.
Qed.

Lemma in_step_store_other w x d s :
  in_step w s → x ∉ master_items s → in_step (store_set w x d) s.
Proof.
  intros [Hlevel Hnd Ht Hv] Hx.
  assert (∀ y, y ∈ master_items s → store_set w x d y = w y) as Hw.
  { intros y Hy. apply store_set_other. by intros ->. }
  split; [done|done| |].
  - intros y Hy. rewrite Hw //. by apply Ht.
  - eapply view_ext; [|done]. intros y Hy. by rewrite /passes Hw.
Qed.

(** The settings that the notifications of the container leave alone. *)
Definition same_settings (s s' : FilteredListModel) : Prop :=
  items_key s' = items_key s ∧ filter s' = filter s ∧ sort_key s' = sort_key s ∧
  sort_reverse s' = sort_reverse s ∧ change_level s' = change_level s.

Lemma evolves_same_settings s s' : evolves s s' → same_settings s s'.
Proof. intros []. by rewrite /same_settings. Qed.

Lemma step_in_step o σ σ' :
  container_op o → attached σ → in_step (world σ) (model σ) →
  step o σ = Ok σ' →
  attached σ' ∧ in_step (world σ') (model σ') ∧ same_settings (model σ) (model σ').
Proof.
  intros Hop [Hkey Hitems Hl] Hs.
  destruct o as [index value|index|value d| | | | |]; try done; simpl; intros Hstep.
  - rewrite Hkey in Hstep.
    destruct (item_inserted _ _ _ _ _) as [m|] eqn:Hi; simpl in Hstep; [|done].
    injection Hstep as <-. simpl.
    destruct (item_inserted_in_step _ _ _ _ _ Hs Hl Hi) as (Hs' & _ & Hm & Hl' & Hev).
    apply evolves_same_settings in Hev as Hset.
    split; [|done]. split; simpl; [|by rewrite Hm Hitems|done].
    by destruct Hset as (-> & _).
  - revert Hstep. rewrite /lm_remove_item Hitems.
    destruct (PyList.getitemz index _) as [value|] eqn:Hget; simpl; [|done].
    destruct (PyList.delz index _) as [l'|] eqn:Hdel; simpl; [|done].
    destruct (remove_split _ _ _ _ Hget Hdel) as (l1 & l2 & Hm & ->).
    rewrite Hkey.
    destruct (item_removed _ _ _ _) as [m|] eqn:Hr; simpl; [|done].
    intros [= <-]. simpl.
    destruct (item_removed_in_step _ _ _ _ _ l1 l2 Hs Hl Hm Hdel Hr)
      as (Hs' & Hm' & Hl' & Hev).
    apply evolves_same_settings in Hev as Hset.
    split; [|done]. split; simpl; [|done|done].
    by destruct Hset as (-> & _).
  - case_decide as Hin.
    + destruct (item_content_changed _ _ _) as [m|] eqn:Hc; simpl in Hstep; [|done].
      injection Hstep as <-. simpl.
      destruct (item_content_changed_in_step _ _ _ _ _ Hs Hc) as [Hs' Hev].
      split; [|split; [done|by apply evolves_same_settings]].
      split; simpl.
      * by rewrite (ev_key _ _ Hev).
      * by rewrite (ev_master _ _ Hev).
      * by rewrite (ev_master _ _ Hev) (ev_listeners _ _ Hev).
    + simpl in Hstep. injection Hstep as <-. simpl.
      split; [by split|]. split; [|done].
      apply in_step_store_other; [done|].
      by rewrite Hl elem_of_list_to_set in Hin.
Qed.

Lemma run_in_step ops σ σ' :
  Forall container_op ops → attached σ → in_step (world σ) (model σ) →
  run ops σ = Ok σ' →
  attached σ' ∧ in_step (world σ') (model σ') ∧ same_settings (model σ) (model σ').
Proof.
  intros Hops. revert σ. induction Hops as [|o ops Ho Hops IH]; intros σ Ha Hs; simpl.
  - intros [= <-]. by rewrite /same_settings.
  - destruct (step o σ) as [σ1|] eqn:Hstep; simpl; [|done]. intros Hr.
    destruct (step_in_step _ _ _ Ho Ha Hs Hstep) as (Ha1 & Hs1 & Hset1).
    destruct (IH _ Ha1 Hs1 Hr) as (Ha2 & Hs2 & Hset2).
    split; [done|]. split; [done|].
    destruct Hset1 as (? & ? & ? & ? & ?), Hset2 as (? & ? & ? & ? & ?).
    rewrite /same_settings. split_and!; congruence.
Qed.
End steps.

Section runs.
Context `{Regex}.
Implicit Types (s : FilteredListModel) (w : store) (x y : Item) (σ : system).

Lemma item_inserted_ordered w key x i s s' k :
  sort_key s = Some k →
  ordered (sort_reverse s) (λ y, k (w y)) (items s) →
  item_inserted w key x i s = Ok s' →
  ordered (sort_reverse s') (λ y, k (w y)) (items s').
Proof.
  intros Hk Hord. rewrite /item_inserted.
  destruct (String.eqb key (items_key s)); [|by intros [= <-]].
  intros Hi. inv_ok. by eapply inserted_master_item_ordered in Hi.
Qed.

Lemma item_removed_ordered key x i s s' sk :
  ordered (sort_reverse s) sk (items s) →
  item_removed key x i s = Ok s' →
  ordered (sort_reverse s') sk (items s').
Proof.
  intros Hord. rewrite /item_removed.
  destruct (String.eqb key (items_key s)); [|by intros [= <-]].
  intros Hi. inv_ok. by eapply removed_master_item_ordered in Hi.
Qed.

Lemma step_ordered o σ σ' k :
  container_op o → key_stable σ o →
  sort_key (model σ) = Some k →
  ordered (sort_reverse (model σ)) (λ y, k (world σ y)) (items (model σ)) →
  step o σ = Ok σ' →
  ordered (sort_reverse (model σ')) (λ y, k (world σ' y)) (items (model σ')).
Proof.
  intros Hop Hstable Hk Hord.
  destruct o as [index value|index|value d| | | | |]; try done; simpl; intros Hstep.
  - destruct (item_inserted _ _ _ _ _) as [m|] eqn:Hi; simpl in Hstep; [|done].
    injection Hstep as <-. simpl. by eapply item_inserted_ordered.
  - destruct (lm_remove_item _ _) as [[value c]|]; simpl in Hstep; [|done].
    destruct (item_removed _ _ _ _) as [m|] eqn:Hr; simpl in Hstep; [|done].
    injection Hstep as <-. simpl. by eapply item_removed_ordered.
  - assert (ordered (sort_reverse (model σ))
              (λ y, k (store_set (world σ) value d y)) (items (model σ))) as Hord'.
    { eapply ordered_ext; [|done]. intros y Hy. simpl.
      rewrite /store_set. destruct (decide (y = value)) as [->|]; [|done].
      symmetry. by apply Hstable. }
    case_decide.
    + destruct (item_content_changed _ _ _) as [m|] eqn:Hc; simpl in Hstep; [|done].
      injection Hstep as <-. simpl.
      revert Hc. rewrite /item_content_changed. intros Hc. inv_ok.
      by eapply updated_master_item_ordered.
    + simpl in Hstep. by injection Hstep as <-.
Qed.

(** No operation of the run changes the sort key of an item that the
    derived list holds at that moment. *)
Fixpoint stable_run (ops : list op) (σ : system) : Prop :=
  match ops with
  | [] => True
  | o :: ops' =>
    key_stable σ o ∧
    match step o σ with
    | Ok σ' => stable_run ops' σ'
    | Raise _ => True
    end
  end.

Lemma run_ordered ops σ σ' k :
  Forall container_op ops → attached σ → in_step (world σ) (model σ) →
  stable_run ops σ →
  sort_key (model σ) = Some k →
  ordered (sort_reverse (model σ)) (λ y, k (world σ y)) (items (model σ)) →
  run ops σ = Ok σ' →
  ordered (sort_reverse (model σ')) (λ y, k (world σ' y)) (items (model σ')).
Proof.
  intros Hops. revert σ.
  induction Hops as [|o ops Ho Hops IH]; intros σ Ha Hs Hst Hk Hord; simpl.
  - by intros [= <-].
  - destruct (step o σ) as [σ1|] eqn:Hstep; simpl; [|done].
    intros Hr. destruct Hst as [Hst1 Hst2]. rewrite Hstep in Hst2.
    destruct (step_in_step _ _ _ Ho Ha Hs Hstep) as (Ha1 & Hs1 & _ & _ & Hk1 & _).
    eapply IH; [done|done|done|by rewrite Hk1| |done].
    by eapply step_ordered.
Qed.

(** The derived list is the one [__build_items] builds, as after the
    creation of the engine or a resynchronization. *)
Lemma built_in_step w s :
  (change_level s ≤ 0)%Z → build_items w s = Ok (items s) →
  in_step w s ∧
  ∀ k, sort_key s = Some k → ordered (sort_reverse s) (λ y, k (w y)) (items s).
Proof.
  intros Hlevel (Hnd & Ht & Hi)%build_items_Ok. split.
  - split; [done|done|done|]. rewrite Hi /view /ordered_master /is_sorted.
    destruct (sort_key s); [|done]. split; [|done].
    by rewrite py_sort_Permutation.
  - intros k Hk. rewrite Hi /ordered_master Hk.
    apply ordered_filter, ordered_py_sort.
Qed.

Lemma in_step_built_unsorted w s :
  in_step w s → sort_key s = None → build_items w s = Ok (items s).
Proof.
  intros [Hlevel Hnd Ht [_ Hv]] Hk. apply build_items_Ok.
  split; [done|]. split; [done|].
  rewrite /ordered_master Hk. apply Hv. by rewrite /is_sorted Hk.
Qed.

Lemma in_step_built_sorted w s k :
  in_step w s → sort_key s = Some k →
  ordered (sort_reverse s) (λ y, k (w y)) (items s) →
  (∀ x y, x ∈ master_items s → y ∈ master_items s → k (w x) = k (w y) → x = y) →
  build_items w s = Ok (items s).
Proof.
  intros [Hlevel Hnd Ht Hv] Hk Hord Hinj. apply build_items_Ok.
  split; [done|]. split; [done|].
  apply (ordered_unique (sort_reverse s) (λ y, k (w y))).
  - intros x y Hx Hy. apply Hinj.
    + by apply (view_elem_of _ _ _ _ x Hv) in Hx as [? _].
    + by apply (view_elem_of _ _ _ _ y Hv) in Hy as [? _].
  - done.
  - rewrite /ordered_master Hk. apply ordered_filter, ordered_py_sort.
  - destruct Hv as [Hp _]. etrans; [exact Hp|].
    by rewrite ordered_master_Permutation.
Qed.

Lemma in_step_facts w s :
  in_step w s →
  NoDup (items s) ∧ length (items s) ≤ length (master_items s) ∧
  ∀ x, x ∈ items s ↔ x ∈ master_items s ∧ passes w (filter s) x.
Proof.
  intros [Hlevel Hnd Ht Hv]. split; [by eapply view_NoDup|].
  split; [by eapply view_length|]. intros x. by eapply view_elem_of.
Qed.

(** C1 (amended). Take an engine attached to its container, with no batch
    open and its derived list equal to the sort-then-filter of the master
    list, and let the container report insertions and removals and the items
    report updates.  Afterwards the derived list holds exactly the master
    items that pass the filter, each once, so it is no longer than the master
    list.  Without a sort key it is the filtered master list in source order.
    With a sort key, and as long as no update changed the sort key of an item
    of the derived list, it is in the order of the sort key, and it is the
    sort-then-filter of the master list when no two master items have the
    same key. *)
Theorem C1_derived_list (σ0 σ : system) (ops : list op) :
  attached σ0 →
  (change_level (model σ0) ≤ 0)%Z →
  build_items (world σ0) (model σ0) = Ok (items (model σ0)) →
  Forall container_op ops →
  run ops σ0 = Ok σ →
  let m := model σ in
  let w := world σ in
  NoDup (items m) ∧
  length (items m) ≤ length (master_items m) ∧
  (∀ x, x ∈ items m ↔ x ∈ master_items m ∧ passes w (filter m) x) ∧
  (sort_key m = None → build_items w m = Ok (items m)) ∧
  (∀ k, sort_key m = Some k → stable_run ops σ0 →
        ordered (sort_reverse m) (λ y, k (w y)) (items m) ∧
        ((∀ x y, x ∈ master_items m → y ∈ master_items m →
                 k (w x) = k (w y) → x = y) →
         build_items w m = Ok (items m))).
Proof.
  intros Ha Hlevel Hb Hops Hr m w.
  destruct (built_in_step _ _ Hlevel Hb) as [Hs0 Hord0].
  destruct (run_in_step _ _ _ Hops Ha Hs0 Hr) as (Ha' & Hs' & _ & _ & Hk' & _).
  destruct (in_step_facts _ _ Hs') as (Hnd & Hlen & Hmem).
  split; [done|]. split; [done|]. split; [done|].
  split; [by apply in_step_built_unsorted|].
  intros k Hk Hst.
  assert (ordered (sort_reverse m) (λ y, k (w y)) (items m)) as Hord.
  { apply (run_ordered ops σ0 σ k); [done|done|done|done|by rewrite -Hk'| |done].
    apply Hord0. by rewrite -Hk'. }
  split; [done|]. intros Hinj. by eapply in_step_built_sorted.
Qed.
End runs.

(** ** Where a single insertion places an item *)

Section sorted_insertion.
Context `{Regex}.

(** C3. With a sort key set and no batch open, the insertion of an item
    that passes the filter into a derived list in the order of the sort
    key places the item at the first index whose key is not less than the
    key of the item (not greater, when [sort_reverse] is set), and the
    published event carries that index. *)
Theorem C3_sorted_insertion w key item (before_index : Z) s (sk : attrs → Z) :
  let k := λ x, sk (w x) in
  let pos := first_index (not_before (sort_reverse s) k (k item)) (items s) in
  (change_level s ≤ 0)%Z →
  sort_key s = Some sk →
  key = items_key s →
  item ∉ master_items s →
  matches (filter s) (w item) = Ok true →
  ordered (sort_reverse s) k (items s) →
  ∃ s', item_inserted w key item before_index s = Ok s' ∧
        items s' = take pos (items s) ++ item :: drop pos (items s) ∧
        emitted s' = emitted s ++ [ItemInserted key item pos] ∧
        pos ≤ length (items s) ∧
        (∀ i x, i < pos → items s !! i = Some x →
                not_before (sort_reverse s) k (k item) x = false) ∧
        (∀ x, items s !! pos = Some x →
              not_before (sort_reverse s) k (k item) x = true).
Proof. apply item_inserted_sorted. Qed.

(** C4 (amended). With a sort key set, the binary search returns the
    first index of the derived list whose key is not strictly before the key
    of the new item: every item before that index has a key strictly before
    the new key, and the item at that index, if there is one, has not.  The
    new item is inserted at that index and the event carries it.  So an item
    whose sort key equals the key of items of the derived list is placed
    before all of these items, in the ascending and in the reversed direction
    alike. *)
Theorem C4_ties_before w key item (before_index : Z) s (sk : attrs → Z) :
  let k := λ x, sk (w x) in
  (change_level s ≤ 0)%Z →
  sort_key s = Some sk →
  key = items_key s →
  item ∉ master_items s →
  matches (filter s) (w item) = Ok true →
  ordered (sort_reverse s) k (items s) →
  ∃ s' pos, item_inserted w key item before_index s = Ok s' ∧
            find_sorted_index_for_item w item (items s) sk
              (sort_operator (sort_reverse s)) = Ok pos ∧
            pos ≤ length (items s) ∧
            (∀ i x, i < pos → items s !! i = Some x →
                    if sort_reverse s then (k item < k x)%Z else (k x < k item)%Z) ∧
            (∀ x, items s !! pos = Some x →
                  if sort_reverse s then (k x ≤ k item)%Z else (k item ≤ k x)%Z) ∧
            items s' = take pos (items s) ++ item :: drop pos (items s) ∧
            emitted s' = emitted s ++ [ItemInserted key item pos] ∧
            items s' !! pos = Some item ∧
            ∀ j y, items s !! j = Some y → k y = k item →
                   pos ≤ j ∧ items s' !! (S j) = Some y.
Proof.
  intros k Hlevel Hk Hkey Hnot Hm Hord.
  destruct (item_inserted_sorted w key item before_index s sk Hlevel Hk Hkey Hnot Hm Hord)
    as (s' & Hs' & Hitems & Hev & Hpos & Hlt & Hat).
  pose proof (find_sorted_index_for_item_ordered w item (items s) sk (sort_reverse s) Hord)
    as Hfind.
  set (pos := first_index _ _) in *.
  assert (∀ i x, i < pos → items s !! i = Some x →
            if sort_reverse s then (k item < k x)%Z else (k x < k item)%Z) as Hbefore.
  { intros i x Hi Hx. by apply not_before_false, (Hlt i). }
  exists s', pos. split; [done|]. split; [done|]. split; [done|]. split; [done|].
  split; [intros x Hx; by apply not_before_true, Hat|].
  split; [done|]. split; [done|]. rewrite Hitems. split.
  - by apply (lookup_pyinsert pos item (items s)).
  - intros j y Hj Hy.
    assert (pos ≤ j) as Hle.
    { destruct (decide (pos ≤ j)) as [|Hgt]; [done|]. exfalso.
      assert (j < pos) as Hjp by lia.
      specialize (Hbefore j y Hjp Hj). destruct (sort_reverse s); lia. }
    split; [done|].
    rewrite (lookup_pyinsert_gt (items s) pos item (S j)); [lia|done|].
    by replace (S j - 1) with j by lia.
Qed.
End sorted_insertion.

(** ** A newly created engine *)

Section creation.
Context `{Regex}.
Implicit Types (s : FilteredListModel) (w : store) (x y : Item) (σ : system).

Lemma insertz_end (l : list Item) x : PyList.insertz (Z.of_nat (length l)) x l = l ++ [x].
Proof.
  rewrite /PyList.insertz /PyList.insert_index.
  destruct (Z.ltb_spec (Z.of_nat (length l)) 0); [lia|].
  rewrite Nat2Z.id Nat.min_id /PyList.insert. by rewrite firstn_all drop_all.
Qed.

Lemma attach_loop_in_step w l s s' :
  in_step w s → listeners s = list_to_set (master_items s) →
  attach_loop w (items_key s) l (length (master_items s)) s = Ok s' →
  in_step w s' ∧ listeners s' = list_to_set (master_items s') ∧
  master_items s' = master_items s ++ l ∧ same_settings s s'.
Proof.
  revert s. induction l as [|x l IH]; intros s Hs Hl; simpl.
  - intros [= <-]. by rewrite app_nil_r /same_settings.
  - intros Ha. inv_ok.
    destruct (item_inserted_in_step _ _ _ _ _ Hs Hl H0) as (Hs1 & _ & Hm1 & Hl1 & Hev).
    apply evolves_same_settings in Hev as (Hk1 & Hf1 & Hsk1 & Hsr1 & Hcl1). simpl in *.
    rewrite insertz_end in Hm1.
    destruct (IH x0 Hs1 Hl1) as (Hs2 & Hl2 & Hm2 & Hk2 & Hf2 & Hsk2 & Hsr2 & Hcl2).
    { rewrite Hk1 Hm1 length_app /= Nat.add_1_r. done. }
    split; [done|]. split; [done|]. split; [by rewrite Hm2 Hm1 -assoc|].
    rewrite /same_settings. split_and!; congruence.
Qed.

Lemma new_model_in_step w key : in_step w (new_model key).
Proof.
  split; simpl; [done|constructor| |done].
  by intros x ?%elem_of_nil.
Qed.

Lemma create_in_step w key c σ0 :
  create w key c = Ok σ0 →
  attached σ0 ∧ in_step (world σ0) (model σ0) ∧ same_settings (new_model key) (model σ0).
Proof.
  rewrite /create. destruct (String.eqb_spec key (lm_key c)) as [->|]; [|done].
  intros Hc. inv_ok. subst. simpl.
  destruct (attach_loop_in_step w (lm_items c) (new_model (lm_key c)) x)
    as (Hs & Hl & Hm & Hset); [apply new_model_in_step|done|done|].
  split; [|done]. destruct Hset as (Hk & _).
  split; simpl; [by rewrite Hk|by rewrite Hm|done].
Qed.

Lemma filter_passes_all w (l : list Item) :
  base.filter (passes w (BaseFilter true)) l = l.
Proof.
  induction l as [|x l IH]; [done|]. by rewrite filter_cons_True // IH.
Qed.

(** C10. An engine whose filter was never assigned has the filter
    [Filter(True)], which every item passes.  With no sort key set, after
    any notifications of the container and of its items, the derived list is
    the master list, in source order, and an insertion that the container
    reports next is made at the same position of the derived list and
    published with that position. *)
Theorem C10_default_filter (w : store) (key : string) (c : ListModel)
    (ops : list op) (σ0 σ : system) :
  create w key c = Ok σ0 →
  Forall container_op ops →
  run ops σ0 = Ok σ →
  filter (model σ) = BaseFilter true ∧
  (∀ x, passes (world σ) (filter (model σ)) x) ∧
  sort_key (model σ) = None ∧
  items (model σ) = master_items (model σ) ∧
  master_items (model σ) = lm_items (container σ) ∧
  ∀ index value σ', step (InsertItem index value) σ = Ok σ' →
    let pos := PyList.insert_index index (length (items (model σ))) in
    items (model σ') = take pos (items (model σ)) ++ value :: drop pos (items (model σ)) ∧
    items (model σ') = master_items (model σ') ∧
    emitted (model σ') = emitted (model σ) ++ [ItemInserted key value pos].
Proof.
  intros Hc Hops Hr.
  destruct (create_in_step _ _ _ _ Hc) as (Ha0 & Hs0 & Hk0 & Hf0 & Hsk0 & _).
  destruct (run_in_step _ _ _ Hops Ha0 Hs0 Hr) as (Ha & Hs & Hk & Hf & Hsk & _).
  simpl in *. rewrite Hf0 in Hf. rewrite Hsk0 in Hsk. rewrite Hk0 in Hk.
  assert (items (model σ) = master_items (model σ)) as Hitems.
  { destruct Hs as [_ _ _ [_ Hv]]. rewrite Hv; [by rewrite /is_sorted Hsk|].
    by rewrite Hf filter_passes_all. }
  split; [done|]. split; [by rewrite Hf|]. split; [done|]. split; [done|].
  split; [by destruct Ha|].
  intros index value σ' Hstep.
  assert (Forall container_op [InsertItem index value]) as Hop1 by by repeat constructor.
  assert (run [InsertItem index value] σ = Ok σ') as Hr1 by by rewrite /= Hstep.
  destruct (run_in_step _ _ _ Hop1 Ha Hs Hr1) as (Ha' & Hs' & _ & Hf' & Hsk' & _).
  assert (items (model σ') = master_items (model σ')) as Hitems'.
  { destruct Hs' as [_ _ _ [_ Hv]]. rewrite Hv; [by rewrite /is_sorted Hsk' Hsk|].
    by rewrite Hf' Hf filter_passes_all. }
  destruct Ha as [Hkey _ _]. rewrite Hkey in Hstep.
  destruct (item_inserted _ _ _ _ _) as [m|] eqn:Hi; simpl in Hstep; [|done].
  injection Hstep as <-. simpl in *.
  revert Hi. rewrite /item_inserted String.eqb_refl.
  destruct (PyList.contains value _) eqn:Hc'; simpl; [done|].
  apply contains_false in Hc'. intros Hi.
  destruct (insertz_split (master_items (model σ)) index value)
    as (l1 & l2 & Hm & Hins & Hlen).
  eapply inserted_master_item_Ok with (l1 := l1) (l2 := l2) in Hi as (b & Hb & Hres).
  - simpl in Hb, Hres. rewrite Hf /= in Hb. injection Hb as <-.
    destruct Hres as (p & -> & Hp). simpl in *. rewrite Hsk Hf filter_passes_all in Hp.
    subst p. rewrite Hitems -Hlen Hk.
    split; [done|]. split; [by rewrite /PyList.insertz -Hlen|done].
  - by destruct Hs.
  - done.
  - intros Hin. apply Hc'. rewrite Hm. set_solver.
  - simpl. rewrite Hf. intros y _. by exists true.
Qed.
End creation.

(** * Filter objects in memory and their deep copy

    The filters of Python are objects that refer to their children.  This
    part models the store of filter objects, [matches] as a traversal of
    the store, and [__deepcopy__] with its memo dictionary. *)

Abbreviation loc := nat.

(** The attributes a subclass of [Filter] assigns; [Unset] is an object on
    which they are not assigned yet, as between [cls.__new__(cls)] and the
    end of [__deepcopy__].  The list of children of an [AndFilter] or
    [OrFilter] is private to the object ([copy.copy(filters)] in
    [__init__]) and is held in the object. *)
Inductive body :=
  | Base
  | And (filters : list loc)
  | Or (filters : list loc)
  | Not (filter : loc)
  | Eq (key : string) (v : value) (cmp : value → value → bool)
  | NotEq (key : string) (v : value) (cmp : value → value → bool)
  | StartsWith (key : string) (v : string)
  | Text (key : string) (text : string)
  | PartialDate (key : string) (year month day : option Z)
  | Predicate (predicate : attrs → bool)
  | Unset.

(** A filter object: the attribute [__default] of class [Filter], and the
    attributes of the subclass. *)
Record object := {
  o_default : bool;
  o_body : body }.

Abbreviation heap := (gmap loc object).
Abbreviation memo := (gmap loc loc).

Section heap_filters.
Context `{Regex}.

(** [matches], called on the object at [l].  The bound is the depth of
    recursion allowed. *)
Fixpoint matches_at (fuel : nat) (h : heap) (l : loc) (d : attrs) : result bool :=
  match fuel with
  | 0 => Raise OutOfFuel
  | S fuel' =>
    match h !! l with
    | None => Raise AttributeError
    | Some o =>
      match o_body o with
      | Base => Ok (o_default o)
      | And filters => py_all (map (λ g, matches_at fuel' h g d) filters)
      | Or filters => py_any (map (λ g, matches_at fuel' h g d) filters)
      | Not filter => b ← matches_at fuel' h filter d; Ok (negb b)
      | Eq key v cmp => matches (EqFilter key v cmp) d
      | NotEq key v cmp => matches (NotEqFilter key v cmp) d
      | StartsWith key v => matches (StartsWithFilter key v) d
      | Text key text => matches (TextFilter key text) d
      | PartialDate key year month day => matches (PartialDateFilter key year month day) d
      | Predicate predicate => matches (PredicateFilter predicate) d
      | Unset => Raise AttributeError
      end
    end
  end.
End heap_filters.

(** [Filter.__deepcopy__]: a new object of the same class, entered in the
    memo, with [__default] copied. *)
Definition new_object (o : object) : object :=
  {| o_default := o_default o;
     o_body := match o_body o with Base => Base | _ => Unset end |}.

(** [copy.deepcopy(x, memo)] on a filter object, and on the list of
    children: an object met before is answered from the memo; otherwise its
    [__deepcopy__] allocates the copy, enters it in the memo, copies the
    children and then assigns the attributes of the subclass. *)
Fixpoint deepcopy (fuel : nat) (l : loc) (st : heap * memo)
    : result (loc * (heap * memo)) :=
  match fuel with
  | 0 => Raise OutOfFuel
  | S fuel' =>
    let deepcopy_list :=
      fix deepcopy_list (ls : list loc) (st : heap * memo)
          : result (list loc * (heap * memo)) :=
        match ls with
        | [] => Ok ([], st)
        | g :: ls' =>
          '(g', st1) ← deepcopy fuel' g st;
          '(ls'', st2) ← deepcopy_list ls' st1;
          Ok (g' :: ls'', st2)
        end in
    match st.2 !! l with
    | Some l' => Ok (l', st)
    | None =>
      match st.1 !! l with
      | None => Raise AttributeError
      | Some o =>
        let l' := fresh (dom st.1) in
        let st1 := (<[l' := new_object o]> st.1, <[l := l']> st.2) in
        let finish (b : body) (st2 : heap * memo) :=
          Ok (l', (<[l' := {| o_default := o_default o; o_body := b |}]> st2.1, st2.2)) in
        match o_body o with
        | Base => Ok (l', st1)
        | And filters =>
          '(filters', st2) ← deepcopy_list filters st1; finish (And filters') st2
        | Or filters =>
          '(filters', st2) ← deepcopy_list filters st1; finish (Or filters') st2
        | Not filter =>
          '(filter', st2) ← deepcopy fuel' filter st1; finish (Not filter') st2
        | Unset => Raise AttributeError
        | b => finish b st1
        end
      end
    end
  end.

(** [deepcopy] on a list of children, as a function of its own. *)
Fixpoint deepcopy_list (fuel : nat) (ls : list loc) (st : heap * memo)
    : result (list loc * (heap * memo)) :=
  match ls with
  | [] => Ok ([], st)
  | g :: ls' =>
    '(g', st1) ← deepcopy fuel g st;
    '(ls'', st2) ← deepcopy_list fuel ls' st1;
    Ok (g' :: ls'', st2)
  end.

(** ** Objects that represent a predicate tree *)

(** The number of objects on the longest path from the root of a tree. *)
Fixpoint height (t : Filter) : nat :=
  match t with
  | AndFilter ts | OrFilter ts => S (foldr (λ t n, height t `max` n) 0 ts)
  | NotFilter f => S (height f)
  | _ => 1
  end.

Definition object_of (b : bool) (bd : body) : object :=
  {| o_default := b; o_body := bd |}.

(** The object at [l] and the objects it reaches are fully initialised and
    have the shape of the tree [t]; every object met satisfies [P]. *)
Fixpoint repr (P : loc → Prop) (h : heap) (t : Filter) (l : loc) : Prop :=
  let repr_list :=
    fix repr_list (ts : list Filter) (ls : list loc) : Prop :=
      match ts, ls with
      | [], [] => True
      | t :: ts', g :: ls' => repr P h t g ∧ repr_list ts' ls'
      | _, _ => False
      end in
  P l ∧
  match t with
  | BaseFilter default => h !! l = Some (object_of default Base)
  | AndFilter ts => ∃ b ls, h !! l = Some (object_of b (And ls)) ∧ repr_list ts ls
  | OrFilter ts => ∃ b ls, h !! l = Some (object_of b (Or ls)) ∧ repr_list ts ls
  | NotFilter f => ∃ b g, h !! l = Some (object_of b (Not g)) ∧ repr P h f g
  | EqFilter key v cmp => ∃ b, h !! l = Some (object_of b (Eq key v cmp))
  | NotEqFilter key v cmp => ∃ b, h !! l = Some (object_of b (NotEq key v cmp))
  | StartsWithFilter key v => ∃ b, h !! l = Some (object_of b (StartsWith key v))
  | TextFilter key text => ∃ b, h !! l = Some (object_of b (Text key text))
  | PartialDateFilter key year month day =>
    ∃ b, h !! l = Some (object_of b (PartialDate key year month day))
  | PredicateFilter predicate => ∃ b, h !! l = Some (object_of b (Predicate predicate))
  end.

Section repr_facts.
Implicit Types (P : loc → Prop) (h : heap) (t : Filter) (l : loc).

Lemma repr_list_Forall2 P h ts ls :
  (fix repr_list (ts : list Filter) (ls : list loc) : Prop :=
     match ts, ls with
     | [], [] => True
     | t :: ts', g :: ls' => repr P h t g ∧ repr_list ts' ls'
     | _, _ => False
     end) ts ls ↔ Forall2 (repr P h) ts ls.
Proof.
  revert ls. induction ts as [|t ts IH]; intros [|g ls]; simpl.
  - split; [constructor|done].
  - split; [done|inv 1].
  - split; [done|inv 1].
  - rewrite IH. split; [intros []; by constructor|inv 1; done].
Qed.

Lemma repr_And P h ts l :
  repr P h (AndFilter ts) l ↔
  P l ∧ ∃ b ls, h !! l = Some (object_of b (And ls)) ∧ Forall2 (repr P h) ts ls.
Proof. simpl. by setoid_rewrite repr_list_Forall2. Qed.

Lemma repr_Or P h ts l :
  repr P h (OrFilter ts) l ↔
  P l ∧ ∃ b ls, h !! l = Some (object_of b (Or ls)) ∧ Forall2 (repr P h) ts ls.
Proof. simpl. by setoid_rewrite repr_list_Forall2. Qed.

Lemma repr_P P h t l : repr P h t l → P l.
Proof. destruct t; simpl; tauto. Qed.

Lemma height_pos t : 0 < height t.
Proof. destruct t; simpl; lia. Qed.

Lemma height_child ts t :
  t ∈ ts → height t ≤ foldr (λ t n, height t `max` n) 0 ts.
Proof.
  induction ts as [|t' ts IH]; simpl; [by intros ?%elem_of_nil|].
  intros [->|Hin]%elem_of_cons; [lia|]. specialize (IH Hin). lia.
Qed.

(** A heap that keeps the fully initialised objects of another. *)
Definition grows (h h' : heap) : Prop :=
  ∀ x o, h !! x = Some o → o_body o ≠ Unset → h' !! x = Some o.

Lemma grows_refl h : grows h h.
Proof. by intros x o. Qed.

Lemma grows_trans h1 h2 h3 : grows h1 h2 → grows h2 h3 → grows h1 h3.
Proof. intros H12 H23 x o Hx Ho. apply H23; [|done]. by apply H12. Qed.

Lemma subseteq_grows h h' : h ⊆ h' → grows h h'.
Proof. intros Hsub x o Hx _. by eapply lookup_weaken. Qed.

Lemma grows_insert_unset h l o o' :
  h !! l = Some o → o_body o = Unset → grows h (<[l := o']> h).
Proof.
  intros Hl Ho x ox Hx Hox. destruct (decide (x = l)) as [->|].
  - congruence.
  - by rewrite lookup_insert_ne.
Qed.

(** [repr] reads fully initialised objects, at locations that satisfy [P]. *)
Lemma repr_mono P (Q : loc → Prop) h h' t l :
  (∀ x o, P x → h !! x = Some o → o_body o ≠ Unset → Q x ∧ h' !! x = Some o) →
  repr P h t l → repr Q h' t l.
Proof.
  intros Hgr. revert l.
  induction t as [| ts IH | ts IH | f IH | | | | | |] using Filter_tree_ind; intros l.
  - simpl. intros [HP Hl]. by destruct (Hgr _ _ HP Hl).
  - rewrite !repr_And. intros (HP & b & ls & Hl & Hts).
    destruct (Hgr _ _ HP Hl) as [HQ Hl']; [done|]. split; [done|].
    exists b, ls. split; [done|].
    clear Hl Hl'. induction Hts as [|t g ts ls Ht Hts IHts]; [constructor|].
    apply Forall_cons in IH as [IHt IH]. constructor; [by apply IHt|by apply IHts].
  - rewrite !repr_Or. intros (HP & b & ls & Hl & Hts).
    destruct (Hgr _ _ HP Hl) as [HQ Hl']; [done|]. split; [done|].
    exists b, ls. split; [done|].
    clear Hl Hl'. induction Hts as [|t g ts ls Ht Hts IHts]; [constructor|].
    apply Forall_cons in IH as [IHt IH]. constructor; [by apply IHt|by apply IHts].
  - simpl. intros (HP & b & g & Hl & Hf).
    destruct (Hgr _ _ HP Hl) as [HQ Hl']; [done|]. split; [done|].
    exists b, g. split; [done|]. by apply IH.
  - simpl. intros (HP & b & Hl). destruct (Hgr _ _ HP Hl) as [HQ Hl']; [done|]. eauto.
  - simpl. intros (HP & b & Hl). destruct (Hgr _ _ HP Hl) as [HQ Hl']; [done|]. eauto.
  - simpl. intros (HP & b & Hl). destruct (Hgr _ _ HP Hl) as [HQ Hl']; [done|]. eauto.
  - simpl. intros (HP & b & Hl). destruct (Hgr _ _ HP Hl) as [HQ Hl']; [done|]. eauto.
  - simpl. intros (HP & b & Hl). destruct (Hgr _ _ HP Hl) as [HQ Hl']; [done|]. eauto.
  - simpl. intros (HP & b & Hl). destruct (Hgr _ _ HP Hl) as [HQ Hl']; [done|]. eauto.
Qed.

Lemma repr_grows P h h' t l : grows h h' → repr P h t l → repr P h' t l.
Proof. intros Hgr. apply repr_mono. intros x o HP Hx Ho. split; [done|]. by apply Hgr. Qed.

(** The tree that a location represents is determined by the heap. *)
Lemma repr_functional P (Q : loc → Prop) h t t' l :
  repr P h t l → repr Q h t' l → t = t'.
Proof.
  revert t' l.
  induction t as [| ts IH | ts IH | f IH | | | | | |] using Filter_tree_ind;
    intros t' l Ht Ht'.
  - destruct t'; simpl in *; naive_solver.
  - apply repr_And in Ht as (_ & b & ls & Hl & Hts).
    destruct t'; try (simpl in Ht'; naive_solver).
    apply repr_And in Ht' as (_ & b' & ls' & Hl' & Hts').
    rewrite Hl in Hl'. simplify_eq. f_equal. clear Hl.
    revert filters Hts'. induction Hts as [|t g ts ls Ht Hts IHts]; intros ts' Hts'.
    + by inv Hts'.
    + inv Hts'. apply Forall_cons in IH as [IHt IH]. f_equal; [by eapply IHt|by apply IHts].
  - apply repr_Or in Ht as (_ & b & ls & Hl & Hts).
    destruct t'; try (simpl in Ht'; naive_solver).
    apply repr_Or in Ht' as (_ & b' & ls' & Hl' & Hts').
    rewrite Hl in Hl'. simplify_eq. f_equal. clear Hl.
    revert filters Hts'. induction Hts as [|t g ts ls Ht Hts IHts]; intros ts' Hts'.
    + by inv Hts'.
    + inv Hts'. apply Forall_cons in IH as [IHt IH]. f_equal; [by eapply IHt|by apply IHts].
  - simpl in Ht. destruct Ht as (_ & b & g & Hl & Hf).
    destruct t'; simpl in Ht'; naive_solver.
  - destruct t'; simpl in *; naive_solver.
  - destruct t'; simpl in *; naive_solver.
  - destruct t'; simpl in *; naive_solver.
  - destruct t'; simpl in *; naive_solver.
  - destruct t'; simpl in *; naive_solver.
  - destruct t'; simpl in *; naive_solver.
Qed.
End repr_facts.

(** ** Evaluating a represented tree *)

Section heap_matches.
Context `{Regex}.

Lemma matches_at_repr P h t l d fuel :
  repr P h t l → height t ≤ fuel → matches_at fuel h l d = matches t d.
Proof.
  revert l fuel.
  induction t as [| ts IH | ts IH | f IH | | | | | |] using Filter_tree_ind;
    intros l [|fuel] Ht Hfuel; try (simpl in Hfuel; lia).
  - simpl in *. destruct Ht as [_ ->]. done.
  - apply repr_And in Ht as (_ & b & ls & Hl & Hts). simpl in *. rewrite Hl /=. f_equal.
    assert (∀ t, t ∈ ts → height t ≤ fuel) as Hh.
    { intros t Ht. pose proof (height_child ts t Ht). lia. }
    clear Hfuel Hl. induction Hts as [|t g ts ls Ht Hts IHts]; [done|].
    apply Forall_cons in IH as [IHt IH]. simpl. f_equal.
    + apply IHt; try done. apply Hh. by left.
    + apply IHts; try done. intros t' Ht'. apply Hh. by right.
  - apply repr_Or in Ht as (_ & b & ls & Hl & Hts). simpl in *. rewrite Hl /=. f_equal.
    assert (∀ t, t ∈ ts → height t ≤ fuel) as Hh.
    { intros t Ht. pose proof (height_child ts t Ht). lia. }
    clear Hfuel Hl. induction Hts as [|t g ts ls Ht Hts IHts]; [done|].
    apply Forall_cons in IH as [IHt IH]. simpl. f_equal.
    + apply IHt; try done. apply Hh. by left.
    + apply IHts; try done. intros t' Ht'. apply Hh. by right.
  - simpl in *. destruct Ht as (_ & b & g & -> & Hf). simpl.
    rewrite (IH g fuel Hf); [lia|done].
  - simpl in *. by destruct Ht as (_ & b & ->).
  - simpl in *. by destruct Ht as (_ & b & ->).
  - simpl in *. by destruct Ht as (_ & b & ->).
  - simpl in *. by destruct Ht as (_ & b & ->).
  - simpl in *. by destruct Ht as (_ & b & ->).
  - simpl in *. by destruct Ht as (_ & b & ->).
Qed.
End heap_matches.

(** ** The deep copy of a represented tree *)

Section deepcopy_facts.
Implicit Types (h : heap) (m : memo) (t : Filter) (l : loc).

Lemma deepcopy_S fuel l st :
  deepcopy (S fuel) l st =
  match st.2 !! l with
  | Some l' => Ok (l', st)
  | None =>
    match st.1 !! l with
    | None => Raise AttributeError
    | Some o =>
      let l' := fresh (dom st.1) in
      let st1 := (<[l' := new_object o]> st.1, <[l := l']> st.2) in
      let finish (b : body) (st2 : heap * memo) :=
        Ok (l', (<[l' := {| o_default := o_default o; o_body := b |}]> st2.1, st2.2)) in
      match o_body o with
      | Base => Ok (l', st1)
      | And filters =>
        '(filters', st2) ← deepcopy_list fuel filters st1; finish (And filters') st2
      | Or filters =>
        '(filters', st2) ← deepcopy_list fuel filters st1; finish (Or filters') st2
      | Not filter =>
        '(filter', st2) ← deepcopy fuel filter st1; finish (Not filter') st2
      | Unset => Raise AttributeError
      | b => finish b st1
      end
    end
  end.
Proof.
  assert (∀ ls st',
    (fix deepcopy_list (ls : list loc) (st : heap * memo)
        : result (list loc * (heap * memo)) :=
       match ls with
       | [] => Ok ([], st)
       | g :: ls' =>
         '(g', st1) ← deepcopy fuel g st;
         '(ls'', st2) ← deepcopy_list ls' st1;
         Ok (g' :: ls'', st2)
       end) ls st' = deepcopy_list fuel ls st') as Heq.
  { induction ls as [|g ls IH]; intros st'; simpl; [done|].
    destruct (deepcopy fuel g st') as [[g' st1]|]; simpl; [|done].
    by rewrite IH. }
  simpl. destruct (st.2 !! l); [done|]. destruct (st.1 !! l) as [o|]; [|done].
  destruct (o_body o); try done; by rewrite Heq.
Qed.

(** Not an object of the heap the copy started from. *)
Definition Fresh (h0 : heap) (x : loc) : Prop := x ∉ dom h0.

(** The memo maps the objects with a tree of height at most [B] to finished
    copies of them.  The entries of the objects whose copy is still under
    construction are the ones of greater height. *)
Definition memo_ok (h0 h : heap) (m : memo) (B : nat) : Prop :=
  ∀ x x' t1, m !! x = Some x' → repr (λ _, True) h0 t1 x → height t1 ≤ B →
             repr (Fresh h0) h t1 x'.

(** What a call of [deepcopy] does to the heap and the memo: it keeps what
    is there and enters finished copies. *)
Record copied (h0 h : heap) (m : memo) (h' : heap) (m' : memo) : Prop := {
  cp_heap : h ⊆ h';
  cp_memo : m ⊆ m';
  cp_new : ∀ x x' t1, m' !! x = Some x' → m !! x = None →
                      repr (λ _, True) h0 t1 x → repr (Fresh h0) h' t1 x' }.

Lemma copied_refl h0 h m : copied h0 h m h m.
Proof. split; [done|done|]. intros x x' t1 Hx Hn. congruence. Qed.

Lemma copied_trans h0 h1 m1 h2 m2 h3 m3 :
  copied h0 h1 m1 h2 m2 → copied h0 h2 m2 h3 m3 → copied h0 h1 m1 h3 m3.
Proof.
  intros [Hh12 Hm12 Hn12] [Hh23 Hm23 Hn23]. split.
  - by etrans.
  - by etrans.
  - intros x x' t1 Hx Hn Ht. destruct (m2 !! x) as [x''|] eqn:Hx2.
    + assert (x'' = x') as ->.
      { eapply lookup_weaken in Hx2; [|done]. congruence. }
      eapply repr_grows; [by apply subseteq_grows|]. by eapply Hn12.
    + by eapply Hn23.
Qed.

Lemma memo_ok_copied h0 h m h' m' B :
  memo_ok h0 h m B → copied h0 h m h' m' → memo_ok h0 h' m' B.
Proof.
  intros Hok [Hh Hm Hn] x x' t1 Hx Ht HB. destruct (m !! x) as [x''|] eqn:Hx1.
  - assert (x'' = x') as ->.
    { eapply lookup_weaken in Hx1; [|done]. congruence. }
    eapply repr_grows; [by apply subseteq_grows|]. by eapply Hok.
  - by eapply Hn.
Qed.

Lemma memo_ok_le h0 h m B B' : B' ≤ B → memo_ok h0 h m B → memo_ok h0 h m B'.
Proof. intros HB Hok x x' t1 Hx Ht Hh. eapply Hok; [done|done|lia]. Qed.
End deepcopy_facts.

Section deepcopy_correct.
Variable h0 : heap.
Implicit Types (h : heap) (m : memo) (t : Filter) (l : loc).

Lemma fresh_not_in h : fresh (dom h) ∉ dom h.
Proof. apply is_fresh. Qed.

Lemma alloc_memo_ok h m l o t B :
  h0 ⊆ h → m !! l = None → repr (λ _, True) h0 t l → height t ≤ B →
  memo_ok h0 h m B →
  memo_ok h0 (<[fresh (dom h) := o]> h) (<[l := fresh (dom h)]> m) (height t - 1).
Proof.
  intros Hsub Hml Ht HB Hok x x' t1 Hx Ht1 Hh.
  destruct (decide (x = l)) as [->|Hne].
  - assert (t1 = t) as -> by by eapply repr_functional.
    pose proof (height_pos t). lia.
  - rewrite lookup_insert_ne // in Hx.
    eapply repr_grows; [apply subseteq_grows, insert_subseteq|].
    + apply not_elem_of_dom, fresh_not_in.
    + eapply Hok; [done|done|lia].
Qed.

Lemma finish_copied h m l l' o h2 m2 h' t :
  h ⊆ h' → m !! l = None → repr (λ _, True) h0 t l →
  copied h0 (<[l' := o]> h) (<[l := l']> m) h2 m2 →
  grows h2 h' → repr (Fresh h0) h' t l' →
  copied h0 h m h' m2.
Proof.
  intros Hh Hml Ht [Hh12 Hm12 Hn12] Hgr Hrepr. split; [done| |].
  - etrans; [|done]. by apply insert_subseteq.
  - intros x x' t1 Hx Hn Ht1. destruct (decide (x = l)) as [->|Hne].
    + assert (m2 !! l = Some l') as Hl'.
      { eapply lookup_weaken; [|done]. by rewrite lookup_insert_eq. }
      assert (t1 = t) as -> by by eapply repr_functional.
      congruence.
    + eapply repr_grows; [done|]. eapply Hn12; [done| |done].
      by rewrite lookup_insert_ne.
Qed.

(** The property of a tree that the induction establishes. *)
Definition copies (t : Filter) : Prop :=
  ∀ fuel l h m B,
    height t ≤ fuel → height t ≤ B → repr (λ _, True) h0 t l →
    h0 ⊆ h → memo_ok h0 h m B →
    ∃ l' h' m', deepcopy fuel l (h, m) = Ok (l', (h', m')) ∧
                repr (Fresh h0) h' t l' ∧ copied h0 h m h' m'.

Lemma deepcopy_list_copies ts fuel B :
  Forall copies ts →
  ∀ ls h m,
    Forall2 (repr (λ _, True) h0) ts ls →
    (∀ t, t ∈ ts → height t ≤ fuel ∧ height t ≤ B) →
    h0 ⊆ h → memo_ok h0 h m B →
    ∃ ls' h' m', deepcopy_list fuel ls (h, m) = Ok (ls', (h', m')) ∧
                 Forall2 (repr (Fresh h0) h') ts ls' ∧ copied h0 h m h' m'.
Proof.
  induction 1 as [|t ts Ht Hts IH]; intros ls h m Hrepr Hh Hsub Hok.
  - inv Hrepr. exists [], h, m. split; [done|]. split; [constructor|apply copied_refl].
  - inv Hrepr. rename y into g, l' into ls.
    destruct (Hh t) as [Hf HB]; [by left|].
    destruct (Ht fuel g h m B Hf HB) as (g' & h1 & m1 & Hg & Hrg & Hc1); [done..|].
    destruct (IH ls h1 m1) as (ls' & h2 & m2 & Hls & Hrls & Hc2).
    + done.
    + intros t' Ht'. apply Hh. by right.
    + etrans; [done|]. by destruct Hc1.
    + by eapply memo_ok_copied.
    + exists (g' :: ls'), h2, m2. simpl. rewrite Hg /= Hls /=. split; [done|].
      split; [|by eapply copied_trans]. constructor; [|done].
      eapply repr_grows; [|done]. apply subseteq_grows. by destruct Hc2.
Qed.

Lemma deepcopy_copies t : copies t.
Proof.
  induction t as [b| ts IH | ts IH | f IH | | | | | |] using Filter_tree_ind;
    intros fuel l h m B Hfuel HB Ht Hsub Hok;
    (destruct fuel as [|fuel]; [pose proof (height_pos (BaseFilter true)); simpl in *; lia|]);
    rewrite deepcopy_S /=;
    (destruct (m !! l) as [l''|] eqn:Hml;
      [exists l'', h, m; split; [done|]; split;
         [exact (Hok _ _ _ Hml Ht HB)|apply copied_refl]|]);
    pose proof (fresh_not_in h) as Hfresh;
    assert (Fresh h0 (fresh (dom h))) as HFresh
      by (intros Hin; apply Hfresh; by eapply (subseteq_dom h0 h));
    assert (h !! fresh (dom h) = None) as Hnone by by apply not_elem_of_dom.
  - (* Filter *)
    destruct Ht as [_ Hl]. rewrite (lookup_weaken _ _ _ _ Hl Hsub) /=.
    eexists _, _, _. split; [done|].
    assert (repr (Fresh h0) (<[fresh (dom h) := new_object (object_of b Base)]> h)
              (BaseFilter b) (fresh (dom h))) as Hrepr.
    { split; [done|]. by rewrite lookup_insert_eq. }
    split; [done|].
    eapply (finish_copied h m l _ _ _ _ _ (BaseFilter b));
      [by apply insert_subseteq|done|by split|apply copied_refl|apply grows_refl|done].
  - (* AndFilter *)
    apply repr_And in Ht as Ht'. destruct Ht' as (_ & b & ls & Hl & Hts).
    rewrite (lookup_weaken _ _ _ _ Hl Hsub) /=.
    destruct (deepcopy_list_copies ts fuel (height (AndFilter ts) - 1) IH ls
                (<[fresh (dom h) := new_object (object_of b (And ls))]> h)
                (<[l := fresh (dom h)]> m))
      as (ls' & h2 & m2 & -> & Hrls & Hc); simpl.
    + done.
    + intros t Hin. pose proof (height_child ts t Hin). simpl in *. lia.
    + etrans; [done|]. by apply insert_subseteq.
    + exact (alloc_memo_ok h m l _ _ B Hsub Hml Ht HB Hok).
    + eexists _, _, _. split; [done|].
      assert (grows h2 (<[fresh (dom h) := object_of b (And ls')]> h2)) as Hgr.
      { eapply grows_insert_unset;
          [eapply lookup_weaken; [|by destruct Hc]; by rewrite lookup_insert_eq|done]. }
      assert (repr (Fresh h0) (<[fresh (dom h) := object_of b (And ls')]> h2)
                (AndFilter ts) (fresh (dom h))) as Hrepr.
      { apply repr_And. split; [done|]. exists b, ls'. rewrite lookup_insert_eq.
        split; [done|]. eapply Forall2_impl; [done|].
        intros t g. by apply repr_grows. }
      split; [done|].
      eapply (finish_copied h m l _ _ _ _ _ (AndFilter ts)); [|done|done|done|done|done].
      apply insert_subseteq_r; [done|].
      etrans; [by apply insert_subseteq|by destruct Hc].
  - (* OrFilter *)
    apply repr_Or in Ht as Ht'. destruct Ht' as (_ & b & ls & Hl & Hts).
    rewrite (lookup_weaken _ _ _ _ Hl Hsub) /=.
    destruct (deepcopy_list_copies ts fuel (height (OrFilter ts) - 1) IH ls
                (<[fresh (dom h) := new_object (object_of b (Or ls))]> h)
                (<[l := fresh (dom h)]> m))
      as (ls' & h2 & m2 & -> & Hrls & Hc); simpl.
    + done.
    + intros t Hin. pose proof (height_child ts t Hin). simpl in *. lia.
    + etrans; [done|]. by apply insert_subseteq.
    + exact (alloc_memo_ok h m l _ _ B Hsub Hml Ht HB Hok).
    + eexists _, _, _. split; [done|].
      assert (grows h2 (<[fresh (dom h) := object_of b (Or ls')]> h2)) as Hgr.
      { eapply grows_insert_unset;
          [eapply lookup_weaken; [|by destruct Hc]; by rewrite lookup_insert_eq|done]. }
      assert (repr (Fresh h0) (<[fresh (dom h) := object_of b (Or ls')]> h2)
                (OrFilter ts) (fresh (dom h))) as Hrepr.
      { apply repr_Or. split; [done|]. exists b, ls'. rewrite lookup_insert_eq.
        split; [done|]. eapply Forall2_impl; [done|].
        intros t g. by apply repr_grows. }
      split; [done|].
      eapply (finish_copied h m l _ _ _ _ _ (OrFilter ts)); [|done|done|done|done|done].
      apply insert_subseteq_r; [done|].
      etrans; [by apply insert_subseteq|by destruct Hc].
  - (* NotFilter *)
    pose proof Ht as (_ & b & g & Hl & Hf).
    rewrite (lookup_weaken _ _ _ _ Hl Hsub) /=.
    destruct (IH fuel g (<[fresh (dom h) := new_object (object_of b (Not g))]> h)
                (<[l := fresh (dom h)]> m) (height (NotFilter f) - 1))
      as (g' & h2 & m2 & -> & Hrg & Hc); simpl.
    + simpl in *. lia.
    + simpl in *. lia.
    + done.
    + etrans; [done|]. by apply insert_subseteq.
    + exact (alloc_memo_ok h m l _ _ B Hsub Hml Ht HB Hok).
    + eexists _, _, _. split; [done|].
      assert (grows h2 (<[fresh (dom h) := object_of b (Not g')]> h2)) as Hgr.
      { eapply grows_insert_unset;
          [eapply lookup_weaken; [|by destruct Hc]; by rewrite lookup_insert_eq|done]. }
      assert (repr (Fresh h0) (<[fresh (dom h) := object_of b (Not g')]> h2)
                (NotFilter f) (fresh (dom h))) as Hrepr.
      { split; [done|]. exists b, g'. rewrite lookup_insert_eq.
        split; [done|]. by apply (repr_grows _ h2). }
      split; [done|].
      eapply (finish_copied h m l _ _ _ _ _ (NotFilter f)); [|done|done|done|done|done].
      apply insert_subseteq_r; [done|].
      etrans; [by apply insert_subseteq|by destruct Hc].
  - pose proof Ht as (_ & b & Hl). rewrite (lookup_weaken _ _ _ _ Hl Hsub) /=.
    eexists _, _, _. split; [done|].
    assert (repr (Fresh h0) (<[fresh (dom h) := object_of b (Eq key v cmp)]>
              (<[fresh (dom h) := new_object (object_of b (Eq key v cmp))]> h))
              (EqFilter key v cmp) (fresh (dom h))) as Hrepr.
    { split; [done|]. exists b. by rewrite lookup_insert_eq. }
    split; [done|].
    eapply (finish_copied h m l _ _ _ _ _ (EqFilter key v cmp));
      [|done|done|apply copied_refl| |done].
    + rewrite insert_insert_eq. by apply insert_subseteq.
    + eapply grows_insert_unset; [by rewrite lookup_insert_eq|done].
  - pose proof Ht as (_ & b & Hl). rewrite (lookup_weaken _ _ _ _ Hl Hsub) /=.
    eexists _, _, _. split; [done|].
    assert (repr (Fresh h0) (<[fresh (dom h) := object_of b (NotEq key v cmp)]>
              (<[fresh (dom h) := new_object (object_of b (NotEq key v cmp))]> h))
              (NotEqFilter key v cmp) (fresh (dom h))) as Hrepr.
    { split; [done|]. exists b. by rewrite lookup_insert_eq. }
    split; [done|].
    eapply (finish_copied h m l _ _ _ _ _ (NotEqFilter key v cmp));
      [|done|done|apply copied_refl| |done].
    + rewrite insert_insert_eq. by apply insert_subseteq.
    + eapply grows_insert_unset; [by rewrite lookup_insert_eq|done].
  - pose proof Ht as (_ & b & Hl). rewrite (lookup_weaken _ _ _ _ Hl Hsub) /=.
    eexists _, _, _. split; [done|].
    assert (repr (Fresh h0) (<[fresh (dom h) := object_of b (StartsWith key v)]>
              (<[fresh (dom h) := new_object (object_of b (StartsWith key v))]> h))
              (StartsWithFilter key v) (fresh (dom h))) as Hrepr.
    { split; [done|]. exists b. by rewrite lookup_insert_eq. }
    split; [done|].
    eapply (finish_copied h m l _ _ _ _ _ (StartsWithFilter key v));
      [|done|done|apply copied_refl| |done].
    + rewrite insert_insert_eq. by apply insert_subseteq.
    + eapply grows_insert_unset; [by rewrite lookup_insert_eq|done].
  - pose proof Ht as (_ & b & Hl). rewrite (lookup_weaken _ _ _ _ Hl Hsub) /=.
    eexists _, _, _. split; [done|].
    assert (repr (Fresh h0) (<[fresh (dom h) := object_of b (Text key text)]>
              (<[fresh (dom h) := new_object (object_of b (Text key text))]> h))
              (TextFilter key text) (fresh (dom h))) as Hrepr.
    { split; [done|]. exists b. by rewrite lookup_insert_eq. }
    split; [done|].
    eapply (finish_copied h m l _ _ _ _ _ (TextFilter key text));
      [|done|done|apply copied_refl| |done].
    + rewrite insert_insert_eq. by apply insert_subseteq.
    + eapply grows_insert_unset; [by rewrite lookup_insert_eq|done].
  - pose proof Ht as (_ & b & Hl). rewrite (lookup_weaken _ _ _ _ Hl Hsub) /=.
    eexists _, _, _. split; [done|].
    assert (repr (Fresh h0)
              (<[fresh (dom h) := object_of b (PartialDate key year month day)]>
              (<[fresh (dom h) := new_object (object_of b (PartialDate key year month day))]> h))
              (PartialDateFilter key year month day) (fresh (dom h))) as Hrepr.
    { split; [done|]. exists b. by rewrite lookup_insert_eq. }
    split; [done|].
    eapply (finish_copied h m l _ _ _ _ _ (PartialDateFilter key year month day));
      [|done|done|apply copied_refl| |done].
    + rewrite insert_insert_eq. by apply insert_subseteq.
    + eapply grows_insert_unset; [by rewrite lookup_insert_eq|done].
  - pose proof Ht as (_ & b & Hl). rewrite (lookup_weaken _ _ _ _ Hl Hsub) /=.
    eexists _, _, _. split; [done|].
    assert (repr (Fresh h0) (<[fresh (dom h) := object_of b (Predicate predicate)]>
              (<[fresh (dom h) := new_object (object_of b (Predicate predicate))]> h))
              (PredicateFilter predicate) (fresh (dom h))) as Hrepr.
    { split; [done|]. exists b. by rewrite lookup_insert_eq. }
    split; [done|].
    eapply (finish_copied h m l _ _ _ _ _ (PredicateFilter predicate));
      [|done|done|apply copied_refl| |done].
    + rewrite insert_insert_eq. by apply insert_subseteq.
    + eapply grows_insert_unset; [by rewrite lookup_insert_eq|done].
Qed.
End deepcopy_correct.

Section deepcopy_independent.
Context `{Regex}.

(** C7. The deep copy of a filter object that represents a predicate tree
    (fully initialised, of any of the classes) succeeds and returns a new
    object.  The copy gives the result of the original on every item; and it
    still gives it in every later heap, whatever has been assigned to the
    objects that existed before the copy or allocated after it. *)
Theorem C7_deepcopy_independent (h : heap) (l : loc) (t : Filter) :
  repr (λ _, True) h t l →
  ∃ l' h' m',
    deepcopy (height t) l (h, ∅) = Ok (l', (h', m')) ∧
    h ⊆ h' ∧ l' ∉ dom h ∧
    (∀ d, matches_at (height t) h' l' d = matches_at (height t) h l d) ∧
    (∀ h'', (∀ x, x ∈ dom h' → x ∉ dom h → h'' !! x = h' !! x) →
            ∀ d, matches_at (height t) h'' l' d = matches_at (height t) h l d).
Proof.
  intros Ht.
  destruct (deepcopy_copies h t (height t) l h ∅ (height t))
    as (l' & h' & m' & Hcopy & Hrepr & Hc); [done|done|done|done| |].
  { intros x x' t1 Hx. by rewrite lookup_empty in Hx. }
  exists l', h', m'. split; [done|]. split; [by destruct Hc|].
  split; [by apply repr_P in Hrepr|].
  assert (∀ d, matches_at (height t) h l d = matches t d) as Horig.
  { intros d. by eapply matches_at_repr. }
  split.
  - intros d. rewrite Horig. by eapply matches_at_repr.
  - intros h'' Hsame d. rewrite Horig.
    eapply (matches_at_repr (λ _, True)); [|done].
    eapply repr_mono; [|done]. intros x o Hx Hlook _. split; [done|].
    rewrite Hsame //. apply elem_of_dom. by eexists.
Qed.
End deepcopy_independent.

(** * Further properties of the code *)

(** ** Combining predicates *)

Section filter_laws.
Context `{Regex}.

Lemma py_all_result (rs : list (result bool)) (r : result bool) :
  py_all rs = r ↔
  (Forall (λ r', r' = Ok true) rs ∧ r = Ok true) ∨
  ∃ rs1 r' rs2, rs = rs1 ++ r' :: rs2 ∧ Forall (λ r', r' = Ok true) rs1 ∧
                r' = r ∧ r ≠ Ok true.
Proof.
  revert r. induction rs as [|r0 rs IH]; intros r; simpl.
  - split.
    + intros <-. left. by split.
    + intros [[_ ->]|(rs1 & r' & rs2 & Hrs & _)]; [done|]. by destruct rs1.
  - destruct r0 as [[]|e]; simpl.
    + rewrite IH. split.
      * intros [[Hall ->]|(rs1 & r' & rs2 & -> & Hall & <- & Hne)].
        -- left. split; [by constructor|done].
        -- right. exists (Ok true :: rs1), r', rs2. split; [done|].
           split; [by constructor|done].
      * intros [[Hall ->]|(rs1 & r' & rs2 & Hrs & Hall & <- & Hne)].
        -- left. split; [|done]. by inv Hall.
        -- right. destruct rs1 as [|r1 rs1]; simplify_eq/=.
           exists rs1, r', rs2. split; [done|]. split; [by inv Hall|done].
    + split.
      * intros <-. right. exists [], (Ok false), rs. by repeat split.
      * intros [[Hall _]|(rs1 & r' & rs2 & Hrs & Hall & <- & Hne)]; [by inv Hall|].
        destruct rs1 as [|r1 rs1]; simplify_eq/=; [done|]. by inv Hall.
    + split.
      * intros <-. right. exists [], (Raise e), rs. by repeat split.
      * intros [[Hall _]|(rs1 & r' & rs2 & Hrs & Hall & <- & Hne)]; [by inv Hall|].
        destruct rs1 as [|r1 rs1]; simplify_eq/=; [done|]. by inv Hall.
Qed.

Lemma py_any_result (rs : list (result bool)) (r : result bool) :
  py_any rs = r ↔
  (Forall (λ r', r' = Ok false) rs ∧ r = Ok false) ∨
  ∃ rs1 r' rs2, rs = rs1 ++ r' :: rs2 ∧ Forall (λ r', r' = Ok false) rs1 ∧
                r' = r ∧ r ≠ Ok false.
Proof.
  revert r. induction rs as [|r0 rs IH]; intros r; simpl.
  - split.
    + intros <-. left. by split.
    + intros [[_ ->]|(rs1 & r' & rs2 & Hrs & _)]; [done|]. by destruct rs1.
  - destruct r0 as [[]|e]; simpl.
    + split.
      * intros <-. right. exists [], (Ok true), rs. by repeat split.
      * intros [[Hall _]|(rs1 & r' & rs2 & Hrs & Hall & <- & Hne)]; [by inv Hall|].
        destruct rs1 as [|r1 rs1]; simplify_eq/=; [done|]. by inv Hall.
    + rewrite IH. split.
      * intros [[Hall ->]|(rs1 & r' & rs2 & -> & Hall & <- & Hne)].
        -- left. split; [by constructor|done].
        -- right. exists (Ok false :: rs1), r', rs2. split; [done|].
           split; [by constructor|done].
      * intros [[Hall ->]|(rs1 & r' & rs2 & Hrs & Hall & <- & Hne)].
        -- left. split; [|done]. by inv Hall.
        -- right. destruct rs1 as [|r1 rs1]; simplify_eq/=.
           exists rs1, r', rs2. split; [done|]. split; [by inv Hall|done].
    + split.
      * intros <-. right. exists [], (Raise e), rs. by repeat split.
      * intros [[Hall _]|(rs1 & r' & rs2 & Hrs & Hall & <- & Hne)]; [by inv Hall|].
        destruct rs1 as [|r1 rs1]; simplify_eq/=; [done|]. by inv Hall.
Qed.

Lemma map_eq_app_cons {A B} (f : A → B) (l : list A) (k1 : list B) (y : B) (k2 : list B) :
  map f l = k1 ++ y :: k2 →
  ∃ l1 x l2, l = l1 ++ x :: l2 ∧ map f l1 = k1 ∧ f x = y ∧ map f l2 = k2.
Proof.
  intros Hm. change (f <$> l = k1 ++ y :: k2) in Hm.
  apply fmap_app_inv in Hm as (l1 & l' & -> & Hl' & ->).
  destruct l' as [|x l2]; [done|]. injection Hl' as -> ->. by exists l1, x, l2.
Qed.

(** X1. The result of an [AndFilter] is the result of its first child
    that does not return [True] (be it [False] or an exception), and [True]
    when every child returns [True]; the children after that one are not
    evaluated.  Likewise an [OrFilter] gives the result of its first child
    that does not return [False], and [False] when there is none. *)
Theorem X1_and_or_first_decisive (fs : list Filter) (d : attrs) (r : result bool) :
  (matches (AndFilter fs) d = r ↔
   (Forall (λ g, matches g d = Ok true) fs ∧ r = Ok true) ∨
   ∃ fs1 g fs2, fs = fs1 ++ g :: fs2 ∧ Forall (λ g, matches g d = Ok true) fs1 ∧
                matches g d = r ∧ r ≠ Ok true) ∧
  (matches (OrFilter fs) d = r ↔
   (Forall (λ g, matches g d = Ok false) fs ∧ r = Ok false) ∨
   ∃ fs1 g fs2, fs = fs1 ++ g :: fs2 ∧ Forall (λ g, matches g d = Ok false) fs1 ∧
                matches g d = r ∧ r ≠ Ok false).
Proof.
  split.
  - change (matches (AndFilter fs) d) with (py_all (map (λ g, matches g d) fs)).
    rewrite py_all_result. split.
    + intros [[Hall ->]|(rs1 & r' & rs2 & Hrs & Hall & <- & Hne)].
      * left. split; [|done]. by apply Forall_map in Hall.
      * right. apply map_eq_app_cons in Hrs as (fs1 & g & fs2 & -> & <- & <- & <-).
        exists fs1, g, fs2. split; [done|]. split; [by apply Forall_map in Hall|done].
    + intros [[Hall ->]|(fs1 & g & fs2 & -> & Hall & <- & Hne)].
      * left. split; [by apply Forall_map|done].
      * right. eexists _, _, _. rewrite map_app /=. split; [done|].
        split; [by apply Forall_map|done].
  - change (matches (OrFilter fs) d) with (py_any (map (λ g, matches g d) fs)).
    rewrite py_any_result. split.
    + intros [[Hall ->]|(rs1 & r' & rs2 & Hrs & Hall & <- & Hne)].
      * left. split; [|done]. by apply Forall_map in Hall.
      * right. apply map_eq_app_cons in Hrs as (fs1 & g & fs2 & -> & <- & <- & <-).
        exists fs1, g, fs2. split; [done|]. split; [by apply Forall_map in Hall|done].
    + intros [[Hall ->]|(fs1 & g & fs2 & -> & Hall & <- & Hne)].
      * left. split; [by apply Forall_map|done].
      * right. eexists _, _, _. rewrite map_app /=. split; [done|].
        split; [by apply Forall_map|done].
Qed.

(** X2. De Morgan's laws hold for the filters, exceptions and the order
    of evaluation included: the negation of a conjunction gives, on every
    item, the result of the disjunction of the negated children, and the
    negation of a disjunction that of the conjunction of the negated
    children; a [NotEqFilter] gives the result of the negation of the
    [EqFilter] with the same key, value and comparison. *)
Theorem X2_negation_laws (fs : list Filter) key v cmp (d : attrs) :
  matches (NotFilter (AndFilter fs)) d = matches (OrFilter (map NotFilter fs)) d ∧
  matches (NotFilter (OrFilter fs)) d = matches (AndFilter (map NotFilter fs)) d ∧
  matches (NotEqFilter key v cmp) d = matches (NotFilter (EqFilter key v cmp)) d.
Proof.
  split; [|split].
  - change ((b ← py_all (map (λ g, matches g d) fs); Ok (negb b))
            = py_any (map (λ g, matches g d) (map NotFilter fs))).
    induction fs as [|f fs IH]; simpl; [done|].
    destruct (matches f d) as [[]|e]; simpl; [apply IH|done|done].
  - change ((b ← py_any (map (λ g, matches g d) fs); Ok (negb b))
            = py_all (map (λ g, matches g d) (map NotFilter fs))).
    induction fs as [|f fs IH]; simpl; [done|].
    destruct (matches f d) as [[]|e]; simpl; [done|apply IH|done].
  - simpl. by destruct (getattr d key).
Qed.

(** X3. A [PartialDateFilter] reads the attribute before anything else, so
    an item without it raises [AttributeError] whatever the fields of the
    filter.  On an attribute that is not a date, a filter with a field set
    to a non-zero value raises [AttributeError], and a filter with no such
    field matches. *)
Theorem X3_partial_date_attribute key year month day (d : attrs) :
  (d !! key = None →
   matches (PartialDateFilter key year month day) d = Raise AttributeError) ∧
  (∀ v, d !! key = Some v → (∀ y m dd, v ≠ VDate y m dd) →
        matches (PartialDateFilter key year month day) d
        = if truthy year || truthy month || truthy day
          then Raise AttributeError else Ok true).
Proof.
  split.
  - intros Hd. by rewrite /= /getattr Hd.
  - intros v Hd Hv. rewrite /= /getattr Hd /=.
    assert (∀ field get, field_differs field v get
              = if truthy field then Raise AttributeError else Ok false) as Hf.
    { intros [n|] get; simpl; [|done]. destruct (n =? 0)%Z; simpl; [done|].
      destruct v as [| | | |y m dd]; try done. by destruct (Hv y m dd). }
    rewrite !Hf.
    destruct (truthy year); simpl; [done|].
    destruct (truthy month); simpl; [done|].
    by destruct (truthy day).
Qed.
End filter_laws.

(** ** Filters that read no attribute *)

(** The filter is built from constants and the combinators only: it holds
    no class whose [matches] reads an attribute, and no callable of the
    host. *)
Fixpoint attribute_free (f : Filter) : Prop :=
  match f with
  | BaseFilter _ => True
  | AndFilter fs | OrFilter fs =>
    (fix all (fs : list Filter) : Prop :=
       match fs with
       | [] => True
       | g :: fs' => attribute_free g ∧ all fs'
       end) fs
  | NotFilter g => attribute_free g
  | _ => False
  end.

Section attribute_free.
Context `{Regex}.

Lemma attribute_free_list (fs : list Filter) :
  (fix all (fs : list Filter) : Prop :=
     match fs with
     | [] => True
     | g :: fs' => attribute_free g ∧ all fs'
     end) fs ↔ Forall attribute_free fs.
Proof.
  induction fs as [|g fs IH]; [by split; [constructor|]|].
  rewrite Forall_cons IH. done.
Qed.

(** The children of a combinator that all give a verdict of their own on
    every item. *)
Lemma constant_children (fs : list Filter) :
  Forall (λ g, ∃ b, ∀ d, matches g d = Ok b) fs →
  ∃ bs, ∀ d, map (λ g, matches g d) fs = map Ok bs.
Proof.
  induction 1 as [|g fs [b Hb] _ [bs Hbs]]; [by exists []|].
  exists (b :: bs). intros d. by rewrite /= Hb Hbs.
Qed.

Lemma py_all_Ok (bs : list bool) : py_all (map Ok bs) = Ok (forallb id bs).
Proof. induction bs as [|[] bs IH]; simpl; done. Qed.

Lemma py_any_Ok (bs : list bool) : py_any (map Ok bs) = Ok (existsb id bs).
Proof. induction bs as [|[] bs IH]; simpl; done. Qed.

(** X20. A filter built from [Filter] constants, [AndFilter], [OrFilter]
    and [NotFilter] only reads no attribute of the item: [matches] returns
    one and the same verdict on every item, whatever its attributes, and
    never raises. *)
Theorem X20_attribute_free_constant (f : Filter) :
  attribute_free f → ∃ b, ∀ d, matches f d = Ok b.
Proof.
  induction f as [b|fs IH|fs IH|g IH| | | | | |p] using Filter_tree_ind;
    simpl; try done; try by eexists.
  - rewrite attribute_free_list. intros Hfs.
    destruct (constant_children fs) as [bs Hbs].
    { induction Hfs as [|g fs Hg Hfs IH']; inv IH; constructor; auto. }
    exists (forallb id bs). intros d. by rewrite Hbs py_all_Ok.
  - rewrite attribute_free_list. intros Hfs.
    destruct (constant_children fs) as [bs Hbs].
    { induction Hfs as [|g fs Hg Hfs IH']; inv IH; constructor; auto. }
    exists (existsb id bs). intros d. by rewrite Hbs py_any_Ok.
  - intros Hg. destruct (IH Hg) as [b Hb]. exists (negb b). intros d. by rewrite Hb.
Qed.
End attribute_free.

(** ** The container *)

Lemma insert_remove_same (l : list Item) (p : nat) (x : Item) :
  p ≤ length l →
  PyList.insert p x l !! p = Some x ∧ delete p (PyList.insert p x l) = l.
Proof.
  intros Hp. split; [by apply lookup_pyinsert|].
  rewrite /PyList.insert delete_take_drop.
  rewrite take_app_le; [rewrite length_take; lia|]. rewrite take_take Nat.min_id.
  rewrite drop_app_ge; [rewrite length_take; lia|].
  rewrite length_take. replace (S p - p `min` length l) with 1 by lia.
  simpl. rewrite drop_0. apply take_drop.
Qed.

Lemma insert_remove_next (l : list Item) (p : nat) (x y : Item) :
  l !! p = Some y →
  PyList.insert p x l !! S p = Some y ∧ delete (S p) (PyList.insert p x l) = <[p := x]> l.
Proof.
  intros Hy. pose proof (lookup_lt_Some _ _ _ Hy) as Hp.
  split.
  - rewrite lookup_pyinsert_gt; [lia..|]. by rewrite /= Nat.sub_0_r.
  - rewrite /PyList.insert. rewrite -{3}(take_drop_middle l p y Hy).
    rewrite insert_app_r_alt length_take; [lia|].
    replace (p - p `min` length l) with 0 by lia. simpl.
    rewrite delete_take_drop.
    rewrite take_app_ge length_take; [lia|].
    replace (S p - p `min` length l) with 1 by lia.
    rewrite drop_app_ge length_take; [lia|].
    replace (S (S p) - p `min` length l) with 2 by lia.
    rewrite -assoc. f_equal. simpl. f_equal.
    rewrite (drop_S l y p Hy). done.
Qed.

(** X4. [insert_item(index, value)] followed by [remove_item(index)] on a
    container of [n] items.  For [0 <= index <= n], and for [index = -n-1],
    the second call removes the value just inserted and the container is as
    before.  For [-n <= index < 0] the value was inserted before the item at
    [index], and the second call removes that item instead: the value has
    taken its place.  For every other index the second call raises
    [IndexError]. *)
Theorem X4_insert_then_remove_item (index : Z) (value : Item) (c : ListModel) :
  let n := Z.of_nat (length (lm_items c)) in
  ((0 ≤ index ≤ n)%Z ∨ index = (- n - 1)%Z →
   lm_remove_item index (lm_insert_item index value c) = Ok (value, c)) ∧
  ((- n ≤ index < 0)%Z →
   ∃ x, lm_items c !! Z.to_nat (index + n) = Some x ∧
        lm_remove_item index (lm_insert_item index value c)
        = Ok (x, {| lm_key := lm_key c;
                    lm_items := <[Z.to_nat (index + n) := value]> (lm_items c) |})) ∧
  ((n < index)%Z ∨ (index < - n - 1)%Z →
   lm_remove_item index (lm_insert_item index value c) = Raise IndexError).
Proof.
  destruct c as [key l]. simpl.
  rewrite /lm_remove_item /lm_insert_item /PyList.getitemz /PyList.delz /PyList.insertz /=.
  rewrite !length_pyinsert /PyList.item_index /PyList.insert_index. cbv zeta.
  split; [|split].
  - intros Hi.
    assert (∃ p, p ≤ length l ∧
              (if (index <? 0)%Z then Z.to_nat (0 `max` (index + Z.of_nat (length l)))
               else Z.to_nat index `min` length l) = p ∧
              (if (0 <=? (if (index <? 0)%Z then (index + Z.of_nat (S (length l)))%Z else index))%Z
                  && ((if (index <? 0)%Z then (index + Z.of_nat (S (length l)))%Z else index)
                      <? Z.of_nat (S (length l)))%Z
               then Ok (Z.to_nat (if (index <? 0)%Z then (index + Z.of_nat (S (length l)))%Z
                                  else index))
               else Raise IndexError) = Ok p) as (p & Hp & -> & ->).
    { destruct Hi as [Hi| ->].
      - exists (Z.to_nat index). split; [lia|].
        destruct (Z.ltb_spec index 0); [lia|]. split; [lia|].
        destruct (Z.leb_spec 0 index); [|lia].
        destruct (Z.ltb_spec index (Z.of_nat (S (length l)))); [done|lia].
      - exists 0. split; [lia|].
        destruct (Z.ltb_spec (- Z.of_nat (length l) - 1) 0); [|lia]. split; [lia|].
        replace (- Z.of_nat (length l) - 1 + Z.of_nat (S (length l)))%Z with 0%Z by lia.
        done. }
    destruct (insert_remove_same l p value Hp) as [Hl Hd]. simpl.
    rewrite /PyList.getitem Hl /= /PyList.del decide_True; [rewrite length_pyinsert; lia|].
    by rewrite /= Hd.
  - intros Hi.
    destruct (lookup_lt_is_Some_2 l (Z.to_nat (index + Z.of_nat (length l)))) as [x Hx]; [lia|].
    exists x. split; [done|].
    destruct (Z.ltb_spec index 0); [|lia].
    destruct (Z.leb_spec 0 (index + Z.of_nat (S (length l)))); [|lia].
    destruct (Z.ltb_spec (index + Z.of_nat (S (length l))) (Z.of_nat (S (length l)))); [|lia].
    simpl.
    replace (Z.to_nat (0 `max` (index + Z.of_nat (length l))))
      with (Z.to_nat (index + Z.of_nat (length l))) by lia.
    replace (Z.to_nat (index + Z.of_nat (S (length l))))
      with (S (Z.to_nat (index + Z.of_nat (length l)))) by lia.
    destruct (insert_remove_next l _ value x Hx) as [Hl Hd].
    rewrite /PyList.getitem Hl /= /PyList.del decide_True; [rewrite length_pyinsert; lia|].
    by rewrite /= Hd.
  - intros Hi.
    destruct (Z.ltb_spec index 0).
    + destruct (Z.leb_spec 0 (index + Z.of_nat (S (length l)))); [lia|done].
    + destruct (Z.leb_spec 0 index); [|lia].
      destruct (Z.ltb_spec index (Z.of_nat (S (length l)))); [lia|done].
Qed.

(** ** The searches for the position of an item *)

Section searches.
Context `{Regex}.

Lemma find_sorted_index_loop_boundary fuel w k l sort_key op low high :
  let p := λ x, op (sort_key (w x)) k in
  low ≤ high → high ≤ length l → high - low ≤ fuel →
  (∀ x, low ≠ 0 → l !! (low - 1) = Some x → p x = true) →
  (∀ x, l !! high = Some x → p x = false) →
  ∃ r, find_sorted_index_loop fuel w k l sort_key op low high = Ok r ∧
       low ≤ r ≤ high ∧
       (∀ x, r ≠ 0 → l !! (r - 1) = Some x → p x = true) ∧
       (∀ x, l !! r = Some x → p x = false).
Proof.
  intros p. revert low high.
  induction fuel as [|fuel IH]; intros low high Hlh Hhl Hfuel Hlow Hhigh.
  - rewrite find_sorted_index_loop_done; [lia|].
    exists low. split; [done|]. split; [lia|]. split; [done|].
    by replace low with high by lia.
  - destruct (decide (low < high)) as [Hlt|Hlt]; last first.
    { rewrite find_sorted_index_loop_done; [done|].
      exists low. split; [done|]. split; [lia|]. split; [done|].
      by replace low with high by lia. }
    rewrite find_sorted_index_loop_S; [done|].
    remember ((low + high) `div` 2) as mid eqn:Hmid.
    assert (low ≤ mid ∧ mid < high) as [Hm1 Hm2].
    { subst mid. split.
      - apply Nat.div_le_lower_bound; lia.
      - apply Nat.Div0.div_lt_upper_bound; lia. }
    clear Hmid.
    destruct (lookup_lt_is_Some_2 l mid) as [x Hx]; [lia|].
    rewrite /PyList.getitem Hx /=.
    destruct (op (sort_key (w x)) k) eqn:Hp.
    + destruct (IH (mid + 1) high) as (r & -> & ? & ? & ?); [lia|lia|lia| |done|].
      * intros y _. replace (mid + 1 - 1) with mid by lia. rewrite Hx. by intros [= <-].
      * exists r. split; [done|]. split; [lia|done].
    + destruct (IH low mid) as (r & -> & ? & ? & ?); [lia|lia|lia|done| |].
      * intros y. rewrite Hx. by intros [= <-].
      * exists r. split; [done|]. split; [lia|done].
Qed.

(** X5. The binary search of [__find_sorted_index_for_item] ends on every
    list, sorted or not, without reading outside of it, and returns an index
    between 0 and the length.  The item just before the index, when there is
    one, satisfies the comparison with the key of the searched item, and the
    item at the index, when there is one, does not. *)
Theorem X5_find_sorted_index_boundary (w : store) (item : Item) (l : list Item)
    (sort_key : attrs → Z) (op : Z → Z → bool) :
  ∃ r, find_sorted_index_for_item w item l sort_key op = Ok r ∧ r ≤ length l ∧
       (∀ x, r ≠ 0 → l !! (r - 1) = Some x →
             op (sort_key (w x)) (sort_key (w item)) = true) ∧
       (∀ x, l !! r = Some x → op (sort_key (w x)) (sort_key (w item)) = false).
Proof.
  rewrite /find_sorted_index_for_item.
  destruct (find_sorted_index_loop_boundary (length l) w (sort_key (w item)) l sort_key op
              0 (length l)) as (r & -> & ? & ? & ?); [lia|lia|lia|done| |].
  - intros x Hx. apply lookup_lt_Some in Hx. lia.
  - exists r. split; [done|]. split; [lia|done].
Qed.

Lemma find_unsorted_index_loop_absent w x f l index :
  x ∉ l → total_on w f l →
  find_unsorted_index_loop w x f l index
  = Ok (index + length (base.filter (passes w f) l)).
Proof.
  revert index. induction l as [|y l IH]; intros index Hx Ht; simpl.
  - f_equal. lia.
  - apply not_elem_of_cons in Hx as [Hne Hx].
    apply total_on_cons in Ht as [[b Hb] Ht].
    rewrite decide_False; [done|]. rewrite Hb /= IH //. f_equal.
    destruct b.
    + rewrite filter_cons_True //=; lia.
    + rewrite filter_cons_False //. rewrite /passes Hb. congruence.
Qed.

(** X6. [__find_unsorted_index_for_item] returns the number of items that
    pass the filter among those before the first occurrence of the item in
    the master list, as long as the filter gives a verdict on each of them;
    the item itself and the items after it are not looked at.  For an item
    that is not in the list it returns the number of all items that pass. *)
Theorem X6_find_unsorted_index_counts (w : store) (x : Item) (f : Filter)
    (l1 l2 : list Item) :
  x ∉ l1 → total_on w f l1 →
  find_unsorted_index_for_item w x (l1 ++ x :: l2) f
  = Ok (length (base.filter (passes w f) l1)) ∧
  find_unsorted_index_for_item w x l1 f
  = Ok (length (base.filter (passes w f) l1)).
Proof.
  intros Hx Ht. rewrite /find_unsorted_index_for_item. split.
  - by rewrite find_unsorted_index_loop_middle.
  - by rewrite find_unsorted_index_loop_absent.
Qed.
End searches.

(** ** The single-item paths *)

Lemma index_first (l1 l2 : list Item) (x : Item) :
  x ∉ l1 → PyList.index x (l1 ++ x :: l2) = Ok (length l1).
Proof.
  intros Hx. apply index_Ok. split.
  - by rewrite list_lookup_middle.
  - intros j Hj Hl. rewrite lookup_app_l // in Hl.
    apply Hx. by eapply list_elem_of_lookup_2.
Qed.

Lemma delete_middle (l1 l2 : list Item) (x : Item) :
  delete (length l1) (l1 ++ x :: l2) = l1 ++ l2.
Proof. induction l1 as [|y l1 IH]; simpl; [done|]. by rewrite IH. Qed.

(** [__removed_master_item] always returns: outside a batch it removes the
    first occurrence of the item, if there is one, and publishes it. *)
Lemma removed_master_item_effect (index : Z) (item : Item) (s : FilteredListModel) :
  ∃ s', removed_master_item index item s = Ok s' ∧
        if decide ((change_level s ≤ 0)%Z ∧ item ∈ items s) then
          ∃ l1 l2, items s = l1 ++ item :: l2 ∧ (item ∉ l1) ∧
                   s' = notify_remove_item (items_key s) item (length l1)
                          (with_items (l1 ++ l2) s)
        else s' = s.
Proof.
  rewrite /removed_master_item /PyList.contains.
  destruct (decide _) as [[Hl Hin]|Hn].
  - assert ((0 <? change_level s)%Z = false) as -> by lia.
    rewrite bool_decide_true //.
    destruct (list_elem_of_split_l _ _ Hin) as (l1 & l2 & Hi & Hx).
    rewrite Hi index_first //=.
    rewrite /PyList.getitem list_lookup_middle //=.
    rewrite bool_decide_true //=.
    rewrite /PyList.del decide_True; [rewrite length_app /=; lia|]. simpl.
    rewrite delete_middle. eexists. split; [done|]. by exists l1, l2.
  - exists s. split; [|done].
    destruct (Z.ltb_spec 0 (change_level s)); [done|].
    rewrite bool_decide_false //. intros Hin. apply Hn. split; [lia|done].
Qed.

(** X7. [__removed_master_item] never raises: its assertion
    [self.__items[index] == item] cannot fail, since the index was just
    looked up.  When no batch is open and the derived list holds the item,
    its first occurrence is deleted and the removal is published with the
    index of that occurrence, whatever index the caller passed; in every
    other case nothing changes. *)
Theorem X7_removed_master_item_never_raises (index : Z) (item : Item)
    (s : FilteredListModel) :
  ∃ s', removed_master_item index item s = Ok s' ∧
        if decide ((change_level s ≤ 0)%Z ∧ item ∈ items s) then
          ∃ l1 l2, items s = l1 ++ item :: l2 ∧ (item ∉ l1) ∧
                   items s' = l1 ++ l2 ∧
                   emitted s' = emitted s ++ [ItemRemoved (items_key s) item (length l1)] ∧
                   master_items s' = master_items s
        else s' = s.
Proof.
  destruct (removed_master_item_effect index item s) as (s' & Hs' & Heff).
  exists s'. split; [done|]. case_decide; [|done].
  destruct Heff as (l1 & l2 & Hi & Hx & ->). by exists l1, l2.
Qed.

Section single_item_paths.
Context `{Regex}.

(** X8. The insertion of an item reported by the container into an
    engine with no sort key and no batch open.  The item enters the master
    list at the position a Python list gives to [before_index].  When it
    passes the filter it enters the derived list at the position that is the
    number of passing items among the master items before it, and the
    insertion is published with that position; when it does not pass, the
    derived list is unchanged and nothing is published. *)
Theorem X8_item_inserted_unsorted (w : store) (item : Item) (before_index : Z)
    (s : FilteredListModel) (b : bool) :
  let p := PyList.insert_index before_index (length (master_items s)) in
  let pos := length (base.filter (passes w (filter s)) (take p (master_items s))) in
  (change_level s ≤ 0)%Z → sort_key s = None → item ∉ master_items s →
  total_on w (filter s) (take p (master_items s)) →
  matches (filter s) (w item) = Ok b →
  ∃ s', item_inserted w (items_key s) item before_index s = Ok s' ∧
        master_items s' = take p (master_items s) ++ item :: drop p (master_items s) ∧
        items s' = (if b then PyList.insert pos item (items s) else items s) ∧
        emitted s' = emitted s ++
                     (if b then [ItemInserted (items_key s) item pos] else []).
Proof.
  intros p pos Hlevel Hk Hx Ht Hb.
  rewrite /item_inserted String.eqb_refl.
  rewrite (proj2 (contains_false _ _) Hx) /=.
  rewrite /inserted_master_item /=.
  assert ((0 <? change_level s)%Z = false) as -> by lia.
  rewrite Hb /=. destruct b; last first.
  { eexists. split; [done|]. simpl. by rewrite app_nil_r. }
  rewrite Hk /find_unsorted_index_for_item /PyList.insertz /PyList.insert.
  rewrite find_unsorted_index_loop_middle //=.
  { intros Hin. apply Hx. rewrite -(take_drop p (master_items s)).
    apply elem_of_app. by left. }
  eexists. split; [done|]. done.
Qed.
End single_item_paths.

(** ** The resynchronization *)

Section resynchronization_facts.
Context `{Regex}.

(** X9. Outside a batch, once [__build_items] has returned its list, the
    rest of [__update_items] cannot fail, whatever the derived list holds
    before, as long as it holds no item twice: the walk over the differences
    passes every assertion.  The engine is left with the list
    [__build_items] returned, the master items in sorted order that pass the
    filter; the master list is not touched, and the events published turn
    the old derived list into the new one. *)
Theorem X9_update_items_succeeds (w : store) (s : FilteredListModel)
    (target : list Item) :
  (change_level s ≤ 0)%Z →
  NoDup (items s) →
  build_items w s = Ok target →
  ∃ s' es, update_items w s = Ok s' ∧
           items s' = target ∧
           target = base.filter (passes w (filter s)) (ordered_master w s) ∧
           build_items w s' = Ok (items s') ∧
           master_items s' = master_items s ∧
           emitted s' = emitted s ++ es ∧
           replay es (items s) = Ok (items s').
Proof.
  intros Hlevel Hi Hb. apply build_items_Ok in Hb as (Hm & Ht & ->).
  destruct (update_items_ok w s Hlevel Hm Hi Ht) as (s' & Hu & Hev & Hit).
  destruct (ev_emitted _ _ Hev) as (es & He & Hr).
  exists s', es. split; [done|]. split; [done|]. split; [done|].
  split; [by eapply update_items_result|].
  split; [by apply (ev_master _ _ Hev)|done].
Qed.

Lemma update_items_loop_same (s : FilteredListModel) (done rest : list Item) :
  items s = done ++ rest → NoDup (items s) →
  update_items_loop rest (s, items s, length done) = Ok (s, items s, length (items s)).
Proof.
  revert done. induction rest as [|x rest IH]; intros done Hi Hnd; simpl.
  - by rewrite Hi app_nil_r.
  - rewrite /update_items_step.
    assert (x ∉ done) as Hx.
    { rewrite Hi in Hnd. apply NoDup_app in Hnd as (_ & Hd & _).
      intros Hin. apply (Hd _ Hin). by left. }
    rewrite (proj2 (contains_true x (items s))); [rewrite Hi; set_solver|].
    assert (PyList.index x (items s) = Ok (length done)) as ->
      by (rewrite Hi; by apply index_first).
    simpl. rewrite bool_decide_true //=. rewrite decide_False; [lia|]. simpl.
    specialize (IH (done ++ [x])). rewrite length_app /= Nat.add_1_r in IH.
    apply IH; [by rewrite -assoc|done].
Qed.

(** X10. A resynchronization of an engine whose derived list already is
    the list [__build_items] builds changes nothing and publishes
    nothing. *)
Theorem X10_update_items_in_sync (w : store) (s : FilteredListModel) :
  build_items w s = Ok (items s) → update_items w s = Ok s.
Proof.
  intros Hb. rewrite /update_items. destruct (0 <? change_level s)%Z; [done|].
  rewrite Hb /=.
  apply build_items_Ok in Hb as (Hm & Ht & Hi).
  assert (NoDup (items s)) as Hnd.
  { rewrite Hi. apply NoDup_filter. by rewrite ordered_master_Permutation. }
  rewrite (proj2 (unique_true _) Hm) (proj2 (unique_true _) Hnd) /=.
  rewrite (update_items_loop_same s [] (items s)) //=.
  destruct (length (items s)) eqn:Hlen; simpl; rewrite decide_False //; lia.
Qed.
End resynchronization_facts.

(** ** The setters of the filter and of the sort settings *)

(** The assignments to [filter], [sort_key] and [sort_reverse]. *)
Definition setting_op (o : op) : Prop :=
  match o with
  | SetFilter _ | SetSortKey _ | SetSortReverse _ => True
  | _ => False
  end.

Section setters.
Context `{Regex}.

(** X11. An assignment to [filter], [sort_key] or [sort_reverse] outside a
    batch stores the value and resynchronizes at once: when it returns, the
    derived list is the list [__build_items] builds under the new setting.
    The other two settings, the master list and the container are as
    before, and the published events turn the old derived list into the new
    one. *)
Theorem X11_setters_resynchronize (o : op) (σ σ' : system) :
  setting_op o →
  (change_level (model σ) ≤ 0)%Z →
  step o σ = Ok σ' →
  world σ' = world σ ∧ container σ' = container σ ∧
  master_items (model σ') = master_items (model σ) ∧
  filter (model σ') = match o with SetFilter f => f | _ => filter (model σ) end ∧
  sort_key (model σ') = match o with SetSortKey k => k | _ => sort_key (model σ) end ∧
  sort_reverse (model σ')
  = match o with SetSortReverse b => b | _ => sort_reverse (model σ) end ∧
  build_items (world σ') (model σ') = Ok (items (model σ')) ∧
  ∃ es, emitted (model σ') = emitted (model σ) ++ es ∧
        replay es (items (model σ)) = Ok (items (model σ')).
Proof.
  intros Ho Hlevel.
  destruct o as [| | | | |f|k|b]; try done; simpl; intros Hs; inv_ok; subst; simpl.
  all: match goal with Hu : _ = Ok ?m |- _ =>
         pose proof (update_items_evolves _ _ _ Hu) as [_ Hm Hf Hk Hr _ _ He];
         apply update_items_result in Hu as [_ Hb]; [|done]
       end.
  all: by rewrite Hm Hf Hk Hr.
Qed.

(** X12. Take an engine in sync with its master list, with no batch open,
    and an assignment to [sort_key] or to [sort_reverse].  Whenever
    [__build_items] returns a list under the new setting, the assignment
    succeeds and leaves that list, and it only reorders the derived list:
    the list holds the same items afterwards.  With a sort key the new list
    is in the order of the key, in the direction set; with the sort key set
    to [None] it is the filtered master list in source order. *)
Theorem X12_sort_settings_reorder (w : store) (s : FilteredListModel)
    (k : option (attrs → Z)) (b : bool) :
  (change_level s ≤ 0)%Z →
  build_items w s = Ok (items s) →
  (∀ l, build_items w (with_sort_key k s) = Ok l →
        ∃ s', set_sort_key w k s = Ok s' ∧ items s' = l ∧ items s' ≡ₚ items s ∧
              match k with
              | Some key => ordered (sort_reverse s) (λ x, key (w x)) (items s')
              | None => items s' = base.filter (passes w (filter s)) (master_items s)
              end) ∧
  (∀ l, build_items w (with_sort_reverse b s) = Ok l →
        ∃ s', set_sort_reverse w b s = Ok s' ∧ items s' = l ∧ items s' ≡ₚ items s ∧
              match sort_key s with
              | Some key => ordered b (λ x, key (w x)) (items s')
              | None => items s' = items s
              end).
Proof.
  intros Hlevel Hb. apply build_items_Ok in Hb as (_ & _ & Hi).
  assert (NoDup (master_items s) → NoDup (items s)) as Hnd.
  { intros Hm. rewrite Hi. apply NoDup_filter. by rewrite ordered_master_Permutation. }
  assert (items s ≡ₚ base.filter (passes w (filter s)) (master_items s)) as Hp.
  { by rewrite Hi ordered_master_Permutation. }
  split; intros l Hl; apply build_items_Ok in Hl as (Hm & Ht & ->).
  - destruct (update_items_ok w (with_sort_key k s) Hlevel Hm (Hnd Hm) Ht)
      as (s' & Hu & _ & Hi').
    exists s'. split; [done|]. split; [done|]. rewrite Hi' /ordered_master /=. split.
    + rewrite Hp. destruct k; [|done]. by rewrite py_sort_Permutation.
    + destruct k; [|done]. apply ordered_filter, ordered_py_sort.
  - destruct (update_items_ok w (with_sort_reverse b s) Hlevel Hm (Hnd Hm) Ht)
      as (s' & Hu & _ & Hi').
    exists s'. split; [done|]. split; [done|]. rewrite Hi' /ordered_master /=. split.
    + rewrite Hp. destruct (sort_key s); [|done]. by rewrite py_sort_Permutation.
    + destruct (sort_key s) eqn:Hk; [apply ordered_filter, ordered_py_sort|].
      by rewrite Hi /ordered_master Hk.
Qed.
End setters.

(** ** The sort of [__build_items] is stable *)

Section stable.
Context (P : Item → Prop) `{∀ x, Decision (P x)} (key : Item → Z).

Lemma filter_sorted_insert_ne x l :
  ¬ P x → base.filter P (sorted_insert key x l) = base.filter P l.
Proof.
  intros Hx. induction l as [|y l IH]; simpl.
  - by rewrite filter_cons_False.
  - destruct (key x <=? key y)%Z.
    + by rewrite filter_cons_False.
    + by rewrite !filter_cons IH.
Qed.
End stable.

Lemma filter_sorted_insert_eq (key : Item → Z) (v : Z) x l :
  key x = v →
  base.filter (λ y, key y = v) (sorted_insert key x l)
  = x :: base.filter (λ y, key y = v) l.
Proof.
  intros Hx. induction l as [|y l IH]; simpl.
  - by rewrite filter_cons_True.
  - destruct (Z.leb_spec (key x) (key y)).
    + by rewrite filter_cons_True.
    + rewrite filter_cons_False; [lia|]. rewrite IH. by rewrite (filter_cons_False _ y); [lia|].
Qed.

Lemma filter_stable_sort (key : Item → Z) (v : Z) l :
  base.filter (λ y, key y = v) (stable_sort key l) = base.filter (λ y, key y = v) l.
Proof.
  induction l as [|x l IH]; simpl; [done|].
  destruct (decide (key x = v)) as [Hx|Hx].
  - by rewrite filter_sorted_insert_eq // filter_cons_True // IH.
  - by rewrite filter_sorted_insert_ne // filter_cons_False // IH.
Qed.

Lemma filter_py_sort (key : Item → Z) (rev : bool) (v : Z) l :
  base.filter (λ y, key y = v) (py_sort key rev l) = base.filter (λ y, key y = v) l.
Proof.
  rewrite /py_sort. destruct rev; [|apply filter_stable_sort].
  by rewrite filter_reverse filter_stable_sort filter_reverse reverse_involutive.
Qed.

Lemma filter_comm (P Q : Item → Prop) `{∀ x, Decision (P x)} `{∀ x, Decision (Q x)}
    (l : list Item) :
  base.filter P (base.filter Q l) = base.filter Q (base.filter P l).
Proof. rewrite !list_filter_filter. apply list_filter_iff. tauto. Qed.

Section stable_build.
Context `{Regex}.

(** X13. With a sort key, the list [__build_items] builds holds the
    master items that pass the filter, in the order of the key, ascending or
    descending as [sort_reverse] says; and in both directions the items with
    one and the same key come in the order they have in the master list. *)
Theorem X13_build_items_stable (w : store) (s : FilteredListModel) (k : attrs → Z)
    (l : list Item) :
  sort_key s = Some k →
  build_items w s = Ok l →
  l ≡ₚ base.filter (passes w (filter s)) (master_items s) ∧
  ordered (sort_reverse s) (λ x, k (w x)) l ∧
  ∀ v, base.filter (λ x, k (w x) = v) l
       = base.filter (λ x, k (w x) = v)
           (base.filter (passes w (filter s)) (master_items s)).
Proof.
  intros Hk (Hm & Ht & ->)%build_items_Ok. rewrite /ordered_master Hk.
  split; [by rewrite py_sort_Permutation|].
  split; [apply ordered_filter, ordered_py_sort|].
  intros v.
  rewrite (filter_comm (λ x, k (w x) = v)) (filter_comm (λ x, k (w x) = v)).
  f_equal. apply (filter_py_sort (λ x, k (w x))).
Qed.
End stable_build.

(** ** The master list mirrors the container *)

Section mirror.
Context `{Regex}.

(** X14. Whatever the host does to an attached engine and its container
    (insertions, removals, updates of items, batches, changes of the filter
    and of the sort settings, at any batch depth), as long as no call raises:
    the master list of the engine is the list of the container, it holds no
    item twice, and the engine listens to exactly the master items. *)
Theorem X14_master_mirrors_container (ops : list op) (σ σ' : system) :
  attached σ → NoDup (master_items (model σ)) →
  run ops σ = Ok σ' →
  master_items (model σ') = lm_items (container σ') ∧
  NoDup (master_items (model σ')) ∧
  listeners (model σ') = list_to_set (master_items (model σ')) ∧
  items_key (model σ') = lm_key (container σ').
Proof.
  revert σ. induction ops as [|o ops IH]; intros σ Ha Hnd; simpl.
  - intros [= <-]. by destruct Ha.
  - intros Hr. inv_ok.
    match goal with Hs : step _ _ = _ |- _ =>
      destruct (step_mirror _ _ _ Ha Hnd Hs) as [Ha1 Hnd1] end.
    by eapply IH.
Qed.
End mirror.

(** ** The creation of an engine on a container *)

(** The engine that has just been attached to a container holding [l], with
    the filter and the sort settings of [__init__]. *)
Definition attached_model (key : string) (l : list Item) : FilteredListModel :=
  {| items_key := key; master_items := l; items := l;
     filter := BaseFilter true; sort_key := None; sort_reverse := false;
     change_level := 0; listeners := list_to_set l;
     emitted := imap (λ i x, ItemInserted key x i) l |}.

Section creation_result.
Context `{Regex}.


End creation_result.

(** ** Detaching the engine *)

Lemma detach_loop_effect (l : list Item) (s : FilteredListModel) :
  master_items s = l → NoDup l → listeners s = list_to_set l →
  ∃ s', detach_loop (reverse l) s = Ok s' ∧
        master_items s' = [] ∧ listeners s' = ∅ ∧ same_settings s s' ∧
        (∃ es, emitted s' = emitted s ++ es ∧ replay es (items s) = Ok (items s')) ∧
        ((0 < change_level s)%Z → items s' = items s ∧ emitted s' = emitted s) ∧
        ((change_level s ≤ 0)%Z → NoDup (items s) →
         ∀ x, x ∈ items s' ↔ x ∈ items s ∧ x ∉ l).
Proof.
  revert s. induction l as [|x l IH] using rev_ind; intros s Hm Hnd Hl.
  - exists s. simpl. split; [done|]. split; [done|]. split; [done|].
    split; [by rewrite /same_settings|]. split; [exists []; by rewrite app_nil_r|].
    split; [done|]. intros _ _ y. set_solver.
  - rewrite reverse_snoc /= /item_removed String.eqb_refl Hm.
    assert (PyList.delz (Z.of_nat (length (l ++ [x])) - 1) (l ++ [x]) = Ok l) as ->.
    { rewrite /PyList.delz /PyList.item_index length_app /=.
      destruct (Z.ltb_spec (Z.of_nat (length l + 1) - 1) 0); [lia|].
      destruct (Z.leb_spec 0 (Z.of_nat (length l + 1) - 1)); [|lia].
      destruct (Z.ltb_spec (Z.of_nat (length l + 1) - 1) (Z.of_nat (length l + 1))); [|lia].
      simpl. replace (Z.to_nat (Z.of_nat (length l + 1) - 1)) with (length l) by lia.
      rewrite /PyList.del decide_True; [rewrite length_app /=; lia|].
      by rewrite /= delete_middle app_nil_r. }
    simpl. rewrite decide_True; [rewrite Hl; set_solver|]. simpl.
    apply NoDup_app in Hnd as (Hnd & Hx & _).
    assert (x ∉ l) as Hxl by (intros Hin; apply (Hx _ Hin); by left).
    set (s2 := with_listeners _ _).
    destruct (removed_master_item_effect (Z.of_nat (length (l ++ [x])) - 1) x s2)
      as (s1 & Hs1 & Heff).
    rewrite Hs1 /=.
    pose proof (removed_master_item_evolves _ _ _ _ Hs1) as Hev.
    subst s2. simpl in Heff.
    destruct (IH s1) as (s' & Hs' & Hm' & Hl' & Hset' & (es' & He' & Hr') & Hpos' & Hneg').
    { by rewrite (ev_master _ _ Hev). }
    { done. }
    { rewrite (ev_listeners _ _ Hev) /= Hl list_to_set_app_L /=.
      assert (x ∉ (list_to_set l : gset Item)) by by rewrite elem_of_list_to_set.
      set_solver. }
    exists s'. split; [done|]. split; [done|]. split; [done|].
    pose proof (evolves_same_settings _ _ Hev) as (Hk1 & Hf1 & Hsk1 & Hsr1 & Hcl).
    simpl in Hk1, Hf1, Hsk1, Hsr1, Hcl.
    split; [|split; [|split]].
    + destruct Hset' as (? & ? & ? & ? & ?).
      rewrite /same_settings. split_and!; congruence.
    + destruct (ev_emitted _ _ Hev) as (es & He & Hr). simpl in He, Hr.
      exists (es ++ es'). split; [by rewrite He' He assoc|].
      by rewrite replay_app Hr.
    + intros Hpos. rewrite decide_False in Heff; [simpl; lia|]. subst s1.
      apply Hpos'. done.
    + intros Hlevel Hndi y.
      rewrite Hneg'; [lia| |].
      * case_decide as Hc.
        -- destruct Heff as (l1 & l2 & Hi & _ & ->). simpl in *.
           rewrite Hi in Hndi. rewrite -Permutation_middle in Hndi.
           by apply NoDup_cons in Hndi as [_ ?].
        -- by subst s1.
      * case_decide as Hc.
        -- destruct Heff as (l1 & l2 & Hi & Hx1 & ->). simpl in *.
           rewrite Hi in Hndi. rewrite Hi.
           rewrite -Permutation_middle in Hndi. apply NoDup_cons in Hndi as [Hx2 _].
           clear -Hx2. set_solver.
        -- subst s1. simpl.
           assert (x ∉ items s) as Hxi by (intros Hin; apply Hc; split; [lia|done]).
           clear -Hxi. set_solver.
Qed.

(** X16. Detaching an attached engine from its container, as [close]
    does, succeeds.  It empties the master list and stops listening to every
    item; the filter and the sort settings stay.  When no batch is open, an
    engine whose derived list holds master items only, each once, ends with
    an empty derived list, and has published the removal of each item.
    Inside a batch the derived list is left as it is and nothing is
    published. *)
Theorem X16_detach_empties (σ : system) :
  attached σ → NoDup (master_items (model σ)) →
  ∃ s', detach σ = Ok s' ∧
        master_items s' = [] ∧ listeners s' = ∅ ∧
        filter s' = filter (model σ) ∧ sort_key s' = sort_key (model σ) ∧
        sort_reverse s' = sort_reverse (model σ) ∧
        (∃ es, emitted s' = emitted (model σ) ++ es ∧
               replay es (items (model σ)) = Ok (items s')) ∧
        ((change_level (model σ) ≤ 0)%Z → NoDup (items (model σ)) →
         (∀ x, x ∈ items (model σ) → x ∈ master_items (model σ)) →
         items s' = []) ∧
        ((0 < change_level (model σ))%Z →
         items s' = items (model σ) ∧ emitted s' = emitted (model σ)).
Proof.
  intros [Hkey Hitems Hl] Hnd. rewrite /detach Hitems.
  destruct (detach_loop_effect (master_items (model σ)) (model σ) eq_refl Hnd Hl)
    as (s' & Hs' & Hm' & Hl' & (_ & Hf & Hk & Hr & _) & Hes & Hpos & Hneg).
  exists s'. split; [done|]. split; [done|]. split; [done|].
  split; [done|]. split; [done|]. split; [done|]. split; [done|]. split; [|done].
  intros Hlevel Hndi Hsub.
  apply elem_of_nil_inv. intros x [Hx1 Hx2]%Hneg; [|done|done].
  apply Hx2. by apply Hsub.
Qed.

(** ** What an update of an item publishes *)

Section update_events.
Context `{Regex}.

Lemma inserted_master_item_shape w i x s s' :
  inserted_master_item w i x s = Ok s' →
  s' = s ∨
  ∃ pos, s' = notify_insert_item (items_key s) x pos
                (with_items (PyList.insert pos x (items s)) s).
Proof.
  rewrite /inserted_master_item. destruct (0 <? _)%Z; intros Hi; inv_ok; [by left|].
  destruct x0; inv_ok; subst; eauto.
Qed.

Lemma removed_master_item_shape i x s s' :
  removed_master_item i x s = Ok s' →
  s' = s ∨
  ∃ l1 l2, items s = l1 ++ x :: l2 ∧ (x ∉ l1) ∧
           s' = notify_remove_item (items_key s) x (length l1) (with_items (l1 ++ l2) s).
Proof.
  intros Hr. destruct (removed_master_item_effect i x s) as (s1 & Hs1 & Heff).
  rewrite Hr in Hs1. injection Hs1 as <-. case_decide; [right|by left].
  destruct Heff as (l1 & l2 & ? & ? & ?). eauto.
Qed.

(** X17. An update of an item publishes nothing, or the insertion of the
    item, or its removal, or its removal followed by its insertion; the
    last, a move, happens only when a sort key is set.  No other item is
    mentioned, and the master list is not touched. *)
Theorem X17_updated_master_item_events (w : store) (item : Item) (s s' : FilteredListModel) :
  updated_master_item w item s = Ok s' →
  master_items s' = master_items s ∧
  ∃ es, emitted s' = emitted s ++ es ∧
        (es = [] ∨
         (∃ i, es = [ItemInserted (items_key s) item i]) ∨
         (∃ i, es = [ItemRemoved (items_key s) item i]) ∨
         (∃ i j, es = [ItemRemoved (items_key s) item i;
                       ItemInserted (items_key s) item j] ∧
                 sort_key s ≠ None)).
Proof.
  rewrite /updated_master_item. intros Hu.
  repeat match goal with
  | H : (if ?c then _ else _) = Ok _ |- _ => destruct c eqn:?
  | H : match ?c with _ => _ end = Ok _ |- _ => destruct c eqn:?
  | _ => progress inv_ok
  end; subst;
  repeat match goal with
  | H : removed_master_item _ _ _ = Ok _ |- _ =>
    apply removed_master_item_shape in H as [->|(? & ? & ? & ? & ->)]
  | H : inserted_master_item _ _ _ _ = Ok _ |- _ =>
    apply inserted_master_item_shape in H as [->|(? & ->)]
  end; simpl; (split; [done|]);
  first
    [ exists []; split; [by rewrite app_nil_r|by left]
    | eexists [_]; split; [done|]; by eauto
    | eexists [_; _]; split; [by rewrite -assoc|];
      right; right; right; eexists _, _; split; [done|congruence] ].
Qed.
End update_events.

(** ** An insertion undone by a removal *)

Lemma insertz_delz_same (l : list Item) (index : Z) (x : Item) :
  (0 ≤ index ≤ Z.of_nat (length l))%Z →
  PyList.getitemz index (PyList.insertz index x l) = Ok x ∧
  PyList.delz index (PyList.insertz index x l) = Ok l.
Proof.
  intros Hi. rewrite /PyList.getitemz /PyList.delz /PyList.insertz.
  rewrite !length_pyinsert /PyList.item_index /PyList.insert_index. cbv zeta.
  destruct (Z.ltb_spec index 0); [lia|].
  destruct (Z.leb_spec 0 index); [|lia].
  destruct (Z.ltb_spec index (Z.of_nat (S (length l)))); [|lia]. simpl.
  rewrite Nat.min_l; [lia|].
  destruct (insert_remove_same l (Z.to_nat index) x) as [Hl Hd]; [lia|].
  rewrite /PyList.getitem Hl /= /PyList.del decide_True; [rewrite length_pyinsert; lia|].
  by rewrite Hd.
Qed.

Lemma first_occurrence_unique (a1 a2 b1 b2 : list Item) (x : Item) :
  x ∉ a1 → x ∉ b1 → a1 ++ x :: a2 = b1 ++ x :: b2 → a1 = b1 ∧ a2 = b2.
Proof.
  revert b1. induction a1 as [|y a1 IH]; intros [|z b1] Ha Hb Heq; simplify_eq/=.
  - done.
  - set_solver.
  - set_solver.
  - apply not_elem_of_cons in Ha as [_ Ha]. apply not_elem_of_cons in Hb as [_ Hb].
    by destruct (IH b1 Ha Hb) as [-> ->].
Qed.

Section undo.
Context `{Regex}.

(** X18. On an attached engine with no batch open and its derived list in
    step with the master list, [insert_item(index, value)] on the container
    followed by [remove_item(index)], for [0 <= index <= len], leaves the
    container, the master list, the derived list and the listeners as they
    were before the two calls.  The engine has published nothing, or the
    insertion of the value followed by its removal. *)
Theorem X18_insert_then_remove_step (σ σ1 : system) (index : Z) (value : Item) :
  attached σ → in_step (world σ) (model σ) →
  (0 ≤ index ≤ Z.of_nat (length (lm_items (container σ))))%Z →
  step (InsertItem index value) σ = Ok σ1 →
  ∃ σ2, step (RemoveItem index) σ1 = Ok σ2 ∧
        world σ2 = world σ ∧ container σ2 = container σ ∧
        master_items (model σ2) = master_items (model σ) ∧
        items (model σ2) = items (model σ) ∧
        listeners (model σ2) = listeners (model σ) ∧
        ∃ es, emitted (model σ2) = emitted (model σ) ++ es ∧
              (es = [] ∨
               ∃ p q, es = [ItemInserted (items_key (model σ)) value p;
                            ItemRemoved (items_key (model σ)) value q]).
Proof.
  intros [Hkey Hitems Hl] Hs Hindex. simpl. rewrite Hkey.
  destruct (item_inserted _ _ _ _ _) as [m1|] eqn:Hi; simpl; [|done].
  intros [= <-]. simpl.
  destruct (item_inserted_in_step _ _ _ _ _ Hs Hl Hi) as (Hs1 & Hx & Hm1 & Hl1 & Hev1).
  destruct (insertz_delz_same (lm_items (container σ)) index value Hindex) as [Hget Hdel].
  rewrite /lm_remove_item /= Hget /= Hdel /=.
  rewrite /item_removed.
  assert (items_key m1 = items_key (model σ)) as Hk1 by apply (ev_key _ _ Hev1).
  rewrite Hkey -Hk1 String.eqb_refl Hm1 -Hitems Hdel /=.
  rewrite decide_True.
  { rewrite Hl1 Hm1 -Hitems elem_of_list_to_set /PyList.insertz.
    apply elem_of_insert. by left. }
  simpl. set (s3 := with_listeners _ _).
  destruct (removed_master_item_effect index value s3) as (m2 & Hm2 & Heff).
  rewrite Hm2 /=. eexists. split; [done|]. simpl.
  pose proof (removed_master_item_evolves _ _ _ _ Hm2) as Hev2.
  assert (value ∉ items (model σ)) as Hxi.
  { intros Hin. apply Hx. destruct Hs as [_ _ _ Hv].
    by apply (view_elem_of _ _ _ _ value Hv) in Hin as [? _]. }
  split; [done|]. split; [rewrite Hk1 -Hkey; by destruct (container σ)|].
  split; [by rewrite (ev_master _ _ Hev2) /= Hitems|].
  assert (listeners m2 = listeners (model σ)) as Hl2.
  { rewrite (ev_listeners _ _ Hev2) /= (ev_listeners _ _ Hev1) /= Hl.
    assert (value ∉ (list_to_set (master_items (model σ)) : gset Item))
      by by rewrite elem_of_list_to_set.
    set_solver. }
  revert Hi. rewrite /item_inserted String.eqb_refl.
  intros Hi. inv_ok.
  match goal with Hins : inserted_master_item _ _ _ _ = Ok _ |- _ =>
    apply inserted_master_item_shape in Hins as [->|(pos & ->)] end.
  - subst s3. simpl in *. rewrite decide_False in Heff; [tauto|]. subst m2. simpl.
    split; [done|]. split; [done|]. exists []. split; [by rewrite app_nil_r|by left].
  - subst s3. simpl in *.
    rewrite decide_True in Heff.
    { split; [by destruct Hs1|]. apply elem_of_insert. by left. }
    destruct Heff as (l1 & l2 & Hsplit & Hx1 & ->). simpl.
    rewrite /PyList.insert in Hsplit.
    assert (value ∉ take pos (items (model σ))) as Hxt.
    { intros Hin. apply Hxi. rewrite -(take_drop pos (items (model σ))).
      apply elem_of_app. by left. }
    destruct (first_occurrence_unique _ _ _ _ _ Hxt Hx1 Hsplit) as [<- <-].
    rewrite take_drop. split; [done|]. split; [done|].
    eexists [_; _]. split; [by rewrite -assoc|]. right. by eexists _, _.
Qed.
End undo.

(** ** The memo of a deep copy *)

Section memo.
Implicit Types (h : heap) (m : memo) (l : loc).

(** What one call of [copy.deepcopy] leaves: the objects and the memo
    entries that were there are unchanged, and the memo maps the object to
    the copy returned. *)
Definition memoized (l : loc) (st : heap * memo) (l' : loc) (st' : heap * memo) : Prop :=
  st.1 ⊆ st'.1 ∧ st.2 ⊆ st'.2 ∧ st'.2 !! l = Some l'.

Lemma deepcopy_list_memoized fuel :
  (∀ l st l' st', deepcopy fuel l st = Ok (l', st') → memoized l st l' st') →
  ∀ ls st ls' st', deepcopy_list fuel ls st = Ok (ls', st') →
    st.1 ⊆ st'.1 ∧ st.2 ⊆ st'.2.
Proof.
  intros Hone. induction ls as [|g ls IH]; intros st ls' st'; simpl.
  - by intros [= <- <-].
  - destruct (deepcopy fuel g st) as [[g' st1]|] eqn:Hg; simpl; [|done].
    destruct (deepcopy_list fuel ls st1) as [[ls'' st2]|] eqn:Hls; simpl; [|done].
    intros [= <- <-].
    apply Hone in Hg as (Hh1 & Hm1 & _). apply IH in Hls as (Hh2 & Hm2).
    split; by etrans.
Qed.

Lemma finish_memoized l st l' o' st2 :
  st.2 !! l = None → st.1 !! l' = None →
  <[l' := o']> st.1 ⊆ st2.1 → <[l := l']> st.2 ⊆ st2.2 →
  ∀ o'', memoized l st l' (<[l' := o'']> st2.1, st2.2).
Proof.
  intros Hl Hl' Hh Hm o''. split; [|split]; simpl.
  - apply insert_subseteq_r; [done|]. etrans; [|done]. by apply insert_subseteq.
  - etrans; [|done]. by apply insert_subseteq.
  - eapply lookup_weaken; [|done]. by rewrite lookup_insert_eq.
Qed.

Lemma deepcopy_memoized fuel l st l' st' :
  deepcopy fuel l st = Ok (l', st') → memoized l st l' st'.
Proof.
  revert l st l' st'. induction fuel as [|fuel IH]; intros l st l' st'; [done|].
  rewrite deepcopy_S.
  destruct (st.2 !! l) as [l0|] eqn:Hl.
  { intros [= <- <-]. by split. }
  destruct (st.1 !! l) as [o|] eqn:Ho; [|done]. cbv zeta.
  assert (st.1 !! fresh (dom st.1) = None) as Hfresh.
  { apply not_elem_of_dom, is_fresh. }
  assert (∀ o', memoized l st (fresh (dom st.1))
                  (<[fresh (dom st.1) := o']> st.1, <[l := fresh (dom st.1)]> st.2)) as Hbase.
  { intros o'. split; [|split]; simpl.
    - by apply insert_subseteq.
    - by apply insert_subseteq.
    - by rewrite lookup_insert_eq. }
  destruct (o_body o) as [|fs|fs|g| | | | | | |] eqn:Hb; try done;
    try (intros [= <- <-]; simpl; rewrite ?insert_insert_eq; by apply Hbase).
  - destruct (deepcopy_list fuel fs _) as [[ls' st2]|] eqn:Hc; simpl; [|done].
    intros [= <- <-].
    apply (deepcopy_list_memoized fuel IH) in Hc as [Hh Hm].
    by eapply finish_memoized.
  - destruct (deepcopy_list fuel fs _) as [[ls' st2]|] eqn:Hc; simpl; [|done].
    intros [= <- <-].
    apply (deepcopy_list_memoized fuel IH) in Hc as [Hh Hm].
    by eapply finish_memoized.
  - destruct (deepcopy fuel g _) as [[g' st2]|] eqn:Hc; simpl; [|done].
    intros [= <- <-].
    apply IH in Hc as (Hh & Hm & _).
    by eapply finish_memoized.
Qed.

(** X19. A successful [copy.deepcopy] of a filter object, on any heap
    and with any memo, changes no object that existed and no entry of the
    memo, and enters the copy in the memo under the original.  So copying
    the same object again with the memo it left returns the same copy and
    allocates nothing: within one deep copy, an object that is reached twice
    is copied once. *)
Theorem X19_deepcopy_memoizes (fuel : nat) (l : loc) (st : heap * memo)
    (l' : loc) (st' : heap * memo) :
  deepcopy fuel l st = Ok (l', st') →
  st.1 ⊆ st'.1 ∧ st.2 ⊆ st'.2 ∧ st'.2 !! l = Some l' ∧
  ∀ fuel', deepcopy (S fuel') l st' = Ok (l', st').
Proof.
  intros (Hh & Hm & Hl)%deepcopy_memoized.
  split; [done|]. split; [done|]. split; [done|].
  intros fuel'. by rewrite deepcopy_S Hl.
Qed.
End memo.

(** * Scenarios *)

(** No pattern is a regular expression: the scenarios use no text search. *)
Definition no_regex : Regex := λ _ _, None.

(** The object [i] has the attribute [n] with value [i]. *)
Definition numbered : store := λ i, {[ "n"%string := VInt (Z.of_nat i) ]}.

Definition by_n : attrs → Z :=
  λ a, match a !! "n" with Some (VInt n) => n | _ => 0%Z end.

Definition by_tens : attrs → Z := λ a, (by_n a / 10)%Z.

Definition no_items : ListModel := {| lm_key := "items"; lm_items := [] |}.

(** An engine on an empty container, and the same with a sort key. *)
Definition empty_system : system :=
  {| world := numbered; container := no_items; model := new_model "items" |}.

Definition sorted_system (k : attrs → Z) (reverse : bool) : system :=
  {| world := numbered; container := no_items;
     model := with_sort_reverse reverse (with_sort_key (Some k) (new_model "items")) |}.

Lemma empty_system_created :
  create (H:=no_regex) numbered "items" no_items = Ok empty_system.
Proof. reflexivity. Qed.

Lemma sorted_system_set k :
  run (H:=no_regex) [SetSortKey (Some k)] empty_system = Ok (sorted_system k false).
Proof. reflexivity. Qed.

Lemma sorted_system_attached k reverse : attached (sorted_system k reverse).
Proof. by split. Qed.

Lemma C1_counterexample :
  (∃ σ, run (H:=no_regex) [InsertItem 0 11; InsertItem 1 12] (sorted_system by_tens false) = Ok σ ∧
        items (model σ) = [12; 11] ∧
        build_items (H:=no_regex) (world σ) (model σ) = Ok [11; 12] ∧
        build_items (H:=no_regex) (world σ) (model σ) ≠ Ok (items (model σ))) ∧
  (∃ σ, run (H:=no_regex) [InsertItem 0 1; InsertItem 1 2; InsertItem 2 3; InsertItem 3 4; InsertItem 4 5;
             ItemChanged 3 {[ "n"%string := VInt 10 ]}] (sorted_system by_n false) = Ok σ ∧
        items (model σ) = [1; 2; 3; 4; 5] ∧
        build_items (H:=no_regex) (world σ) (model σ) = Ok [1; 2; 4; 5; 3] ∧
        build_items (H:=no_regex) (world σ) (model σ) ≠ Ok (items (model σ))).
Proof.
  split.
  - eexists. split; [vm_compute; reflexivity|].
    split; [reflexivity|]. split; [vm_compute; reflexivity|]. by vm_compute.
  - eexists. split; [vm_compute; reflexivity|].
    split; [reflexivity|]. split; [vm_compute; reflexivity|]. by vm_compute.
Qed.

Lemma C1_witness :
  ∃ σ, run (H:=no_regex) [InsertItem 0 3; InsertItem 0 1; ItemChanged 3 {[ "n"%string := VInt 0 ]}; RemoveItem 0]
         (sorted_system by_n false) = Ok σ ∧
       NoDup (items (model σ)) ∧ length (items (model σ)) ≤ length (master_items (model σ)).
Proof.
  eexists. split; [vm_compute; reflexivity|].
  match goal with |- NoDup (items (model ?σ)) ∧ _ =>
    destruct (C1_derived_list (H:=no_regex) (sorted_system by_n false) σ
                [InsertItem 0 3; InsertItem 0 1; ItemChanged 3 {[ "n"%string := VInt 0 ]};
                 RemoveItem 0])
      as (Hnd & Hlen & _)
  end.
  - apply sorted_system_attached.
  - simpl. lia.
  - reflexivity.
  - repeat constructor.
  - vm_compute; reflexivity.
  - split; [exact Hnd|exact Hlen].
Defined.

Lemma C2_witness :
  ∃ σ, run (H:=no_regex) [InsertItem 0 1; InsertItem 1 2; SetSortReverse true;
             BeginChange; RemoveItem 0; EndChange] empty_system = Ok σ ∧
       replay (emitted (model σ)) [] = Ok (items (model σ)).
Proof.
  eexists. split; [vm_compute; reflexivity|].
  eapply (C2_event_replay (H:=no_regex) numbered "items" no_items
            [InsertItem 0 1; InsertItem 1 2; SetSortReverse true;
             BeginChange; RemoveItem 0; EndChange]);
    [reflexivity|vm_compute; reflexivity].
Defined.

(** A sorted engine that holds the items [11] and [13], or any two. *)
Definition holding (k : attrs → Z) (reverse : bool) (l : list Item) : FilteredListModel :=
  with_items l (with_master l (model (sorted_system k reverse))).

Lemma ordered_pair rev (key : Item → Z) x y :
  key_le rev key x y → ordered rev key [x; y].
Proof.
  intros Hxy. apply ordered_StronglySorted. repeat constructor. done.
Qed.

Lemma C3_witness :
  ∃ s', item_inserted (H:=no_regex) numbered "items" 12 7 (holding by_n false [11; 13]) = Ok s' ∧
        items s' = [11; 12; 13] ∧
        emitted s' = [ItemInserted "items" 12 1].
Proof.
  destruct (C3_sorted_insertion (H:=no_regex) numbered "items" 12 7
              (holding by_n false [11; 13]) by_n)
    as (s' & Hs' & Hitems & Hemitted & _).
  - simpl. lia.
  - reflexivity.
  - reflexivity.
  - simpl. set_solver.
  - reflexivity.
  - apply ordered_pair. by vm_compute.
  - exists s'. split; [exact Hs'|]. split; [exact Hitems|exact Hemitted].
Defined.

Lemma C4_counterexample :
  by_tens (numbered 12) = by_tens (numbered 11) ∧
  (∃ s', item_inserted (H:=no_regex) numbered "items" 12 1 (holding by_tens false [11]) = Ok s' ∧
         items s' = [12; 11]) ∧
  (∃ s', item_inserted (H:=no_regex) numbered "items" 12 1 (holding by_tens true [11]) = Ok s' ∧
         items s' = [12; 11]).
Proof.
  split; [reflexivity|]. split; eexists; (split; [vm_compute; reflexivity|reflexivity]).
Qed.

Lemma C4_witness :
  ∃ s' pos, item_inserted (H:=no_regex) numbered "items" 12 1 (holding by_tens false [5; 11]) = Ok s' ∧
            find_sorted_index_for_item numbered 12 [5; 11] by_tens (sort_operator false) = Ok pos ∧
            items s' = take pos [5; 11] ++ 12 :: drop pos [5; 11] ∧
            items s' !! pos = Some 12 ∧ pos ≤ 1 ∧ items s' !! 2 = Some 11.
Proof.
  destruct (C4_ties_before (H:=no_regex) numbered "items" 12 1
              (holding by_tens false [5; 11]) by_tens)
    as (s' & pos & Hs' & Hfind & _ & _ & _ & Hitems & _ & Hpos & Hties).
  - simpl. lia.
  - reflexivity.
  - reflexivity.
  - simpl. set_solver.
  - reflexivity.
  - apply ordered_pair. by vm_compute.
  - exists s', pos. split; [exact Hs'|]. split; [exact Hfind|]. split; [exact Hitems|].
    split; [exact Hpos|]. apply (Hties 1 11); reflexivity.
Defined.

Lemma C5_witness :
  ∃ σ2, run (H:=no_regex)
          (BeginChange :: [InsertItem 0 2; BeginChange; InsertItem 0 1; EndChange;
                           SetSortKey (Some by_n); SetFilter (NotFilter (EqFilter "n" (VInt 2) operator_eq))]
             ++ [EndChange]) empty_system = Ok σ2 ∧
        items (model σ2) = [1] ∧
        master_items (model σ2) = [1; 2] ∧
        master_items (model σ2) = lm_items (container σ2) ∧
        build_items (H:=no_regex) (world σ2) (model σ2) = Ok (items (model σ2)).
Proof.
  eexists. split; [vm_compute; reflexivity|]. split; [reflexivity|]. split; [reflexivity|].
  match goal with |- _ = lm_items (container ?σ2) ∧ _ =>
    destruct (C5_batching (H:=no_regex) empty_system σ2
                [InsertItem 0 2; BeginChange; InsertItem 0 1; EndChange;
                 SetSortKey (Some by_n); SetFilter (NotFilter (EqFilter "n" (VInt 2) operator_eq))])
      as (_ & σ1 & _ & _ & _ & _ & _ & _ & _ & _ & Hm & _ & Hb & _)
  end.
  - by split.
  - constructor.
  - reflexivity.
  - reflexivity.
  - vm_compute; reflexivity.
  - split; [exact Hm|exact Hb].
Defined.

(** A callable that returns a flag of the host and flips it. *)
Definition toggling : attrs → bool → result bool * bool := λ _ h, (Ok h, negb h).

Lemma C8_counterexample :
  host_matches (H:=no_regex) (HostPredicate toggling) ∅ false = (Ok false, true) ∧
  host_matches (H:=no_regex) (HostPredicate toggling) ∅ true = (Ok true, false) ∧
  ¬ ∃ r, ∀ h, host_matches (H:=no_regex) (HostPredicate toggling) ∅ h = (r, h).
Proof.
  split; [reflexivity|]. split; [reflexivity|].
  intros [r Hr]. specialize (Hr true). discriminate Hr.
Qed.

Lemma C8_witness :
  ∃ r, ∀ h : bool,
    host_matches (H:=no_regex)
      (HostAnd [HostEq "n" (VInt 1) (λ a b h, (Ok (operator_eq a b), h));
                HostNot (HostBase false)])
      (numbered 1) h = (r, h).
Proof.
  destruct (C8_filter_algebra (host:=bool) (H:=no_regex)) as (_ & _ & _ & _ & _ & _ & Hpure & _).
  apply Hpure. simpl. split; [|done]. intros a b. by eexists.
Defined.

Definition on_17_may_2020 : attrs := {[ "created"%string := VDate 2020 5 17 ]}.

Lemma C9_counterexample :
  matches (H:=no_regex) (PartialDateFilter "created" (Some 0%Z) None None) on_17_may_2020 = Ok true ∧
  ¬ set_fields_agree (Some 0%Z) None None 2020 5 17.
Proof.
  split; [reflexivity|]. intros [Hy _]. simpl in Hy. lia.
Qed.

Lemma C9_witness :
  (∃ b, matches (H:=no_regex) (PartialDateFilter "created" (Some 2020%Z) None (Some 18%Z))
          on_17_may_2020 = Ok b ∧
        (b = true ↔ truthy_field_agrees (Some 2020%Z) 2020 ∧
                    truthy_field_agrees None 5 ∧
                    truthy_field_agrees (Some 18%Z) 17)) ∧
  matches (H:=no_regex) (PartialDateFilter "created" None None None) on_17_may_2020 = Ok true.
Proof.
  apply (C9_partial_date_truthy (H:=no_regex) "created" (Some 2020%Z) None (Some 18%Z)
           on_17_may_2020 2020 5 17).
  reflexivity.
Defined.

Lemma C10_witness :
  ∃ σ, run (H:=no_regex) [InsertItem 0 1; InsertItem (-1) 2; ItemChanged 2 ∅; RemoveItem (-1)]
         empty_system = Ok σ ∧
       filter (model σ) = BaseFilter true ∧
       items (model σ) = master_items (model σ).
Proof.
  eexists. split; [vm_compute; reflexivity|].
  match goal with |- filter (model ?σ) = _ ∧ _ =>
    destruct (C10_default_filter (H:=no_regex) numbered "items" no_items
                [InsertItem 0 1; InsertItem (-1) 2; ItemChanged 2 ∅; RemoveItem (-1)]
                empty_system σ)
      as (Hf & _ & _ & Hitems & _)
  end.
  - reflexivity.
  - repeat constructor.
  - vm_compute; reflexivity.
  - split; [exact Hf|exact Hitems].
Defined.

(** Four filter objects: [0] is an [EqFilter], [1] a [Filter(True)], [2] the
    negation of [1], and [3] the conjunction of [0], [2] and [0] again. *)
Definition four_objects : heap :=
  {[ 0 := object_of false (Eq "n" (VInt 1) operator_eq);
     1 := object_of true Base;
     2 := object_of false (Not 1);
     3 := object_of false (And [0; 2; 0]) ]}.

Definition four_objects_tree : Filter :=
  AndFilter [EqFilter "n" (VInt 1) operator_eq; NotFilter (BaseFilter true);
             EqFilter "n" (VInt 1) operator_eq].

Lemma C7_witness :
  ∃ l' h' m', deepcopy 3 3 (four_objects, ∅) = Ok (l', (h', m')) ∧
    (l' ∉ dom four_objects) ∧
    ∀ d, matches_at (H:=no_regex) 3 h' l' d = matches_at (H:=no_regex) 3 four_objects 3 d.
Proof.
  destruct (C7_deepcopy_independent (H:=no_regex) four_objects 3 four_objects_tree)
    as (l' & h' & m' & Hcopy & _ & Hnew & Hsame & _).
  - simpl. split; [done|]. exists false, [0; 2; 0]. split; [reflexivity|].
    repeat split; eauto.
  - exists l', h', m'. split; [exact Hcopy|]. split; [exact Hnew|exact Hsame].
Defined.

(** ** Scenarios for the further properties *)

(** The filter that rejects the object [1], a container of three items, and
    an engine attached to it with that filter. *)
Definition not_1 : Filter := NotFilter (EqFilter "n" (VInt 1) operator_eq).

Definition three_items : ListModel := {| lm_key := "items"; lm_items := [1; 2; 4] |}.

Definition without_1 : FilteredListModel :=
  with_items [2; 4] (with_filter not_1 (attached_model "items" [1; 2; 4])).

Definition filtered_system : system :=
  {| world := numbered; container := three_items; model := without_1 |}.

Lemma total_on_forallb `{Regex} (w : store) (f : Filter) (l : list Item) :
  forallb (λ x, match matches f (w x) with Ok _ => true | Raise _ => false end) l = true →
  total_on w f l.
Proof.
  induction l as [|y l IH]; simpl; intros Hall x Hx; [by apply elem_of_nil in Hx|].
  apply andb_prop in Hall as [Hy Hl]. apply elem_of_cons in Hx as [->|Hx]; [|by apply IH].
  destruct (matches f (w y)); [by eexists|done].
Qed.

Lemma NoDup_unique (l : list Item) : PyList.unique l = true → NoDup l.
Proof. apply unique_true. Qed.

Lemma filtered_system_attached : attached filtered_system.
Proof. by split. Qed.

Lemma X6_witness :
  find_unsorted_index_for_item (H:=no_regex) numbered 3 ([1; 2] ++ 3 :: [4]) not_1
  = Ok (length (base.filter (passes (H:=no_regex) numbered not_1) [1; 2])) ∧
  find_unsorted_index_for_item (H:=no_regex) numbered 3 [1; 2] not_1
  = Ok (length (base.filter (passes (H:=no_regex) numbered not_1) [1; 2])).
Proof.
  apply (X6_find_unsorted_index_counts (H:=no_regex) numbered 3 not_1 [1; 2] [4]).
  - set_solver.
  - apply total_on_forallb. vm_compute. reflexivity.
Defined.

Lemma X8_witness :
  ∃ s', item_inserted (H:=no_regex) numbered "items" 3 2 without_1 = Ok s' ∧
        master_items s' = [1; 2; 3; 4] ∧ items s' = [2; 3; 4].
Proof.
  destruct (X8_item_inserted_unsorted (H:=no_regex) numbered 3 2 without_1 true)
    as (s' & Hs' & Hm & Hi & _).
  - simpl. lia.
  - reflexivity.
  - set_solver.
  - apply total_on_forallb. vm_compute. reflexivity.
  - vm_compute. reflexivity.
  - exists s'. split; [exact Hs'|]. split; [exact Hm|]. rewrite Hi. vm_compute. reflexivity.
Defined.

Lemma X9_witness :
  ∃ s', update_items (H:=no_regex) numbered (with_items [4; 9] without_1) = Ok s' ∧
        items s' = [2; 4] ∧
        build_items (H:=no_regex) numbered s' = Ok (items s') ∧
        master_items s' = [1; 2; 4].
Proof.
  destruct (X9_update_items_succeeds (H:=no_regex) numbered (with_items [4; 9] without_1)
              [2; 4])
    as (s' & es & Hs' & Hi & _ & Hb & Hm & _).
  - simpl. lia.
  - apply NoDup_unique. vm_compute. reflexivity.
  - vm_compute. reflexivity.
  - exists s'. split; [exact Hs'|]. split; [exact Hi|]. split; [exact Hb|exact Hm].
Defined.

Lemma X10_witness :
  update_items (H:=no_regex) numbered without_1 = Ok without_1.
Proof.
  apply (X10_update_items_in_sync (H:=no_regex) numbered without_1).
  vm_compute. reflexivity.
Defined.

Lemma X11_witness :
  ∃ σ', step (H:=no_regex) (SetFilter (BaseFilter true)) filtered_system = Ok σ' ∧
        filter (model σ') = BaseFilter true ∧
        build_items (H:=no_regex) (world σ') (model σ') = Ok (items (model σ')).
Proof.
  eexists. split; [vm_compute; reflexivity|].
  match goal with |- filter (model ?σ') = _ ∧ _ =>
    destruct (X11_setters_resynchronize (H:=no_regex) (SetFilter (BaseFilter true))
                filtered_system σ')
      as (_ & _ & _ & Hf & _ & _ & Hb & _)
  end.
  - exact I.
  - simpl. lia.
  - vm_compute. reflexivity.
  - split; [exact Hf|exact Hb].
Defined.

Lemma X12_witness :
  (∃ s', set_sort_key (H:=no_regex) numbered (Some by_n) without_1 = Ok s' ∧
         items s' = [2; 4] ∧ items s' ≡ₚ [2; 4] ∧
         ordered false (λ x, by_n (numbered x)) (items s')) ∧
  (∃ s', set_sort_reverse (H:=no_regex) numbered true without_1 = Ok s' ∧
         items s' = [2; 4] ∧ items s' ≡ₚ [2; 4] ∧ items s' = [2; 4]).
Proof.
  destruct (X12_sort_settings_reorder (H:=no_regex) numbered without_1 (Some by_n) true)
    as [Hkey Hrev].
  - simpl. lia.
  - vm_compute. reflexivity.
  - split.
    + apply (Hkey [2; 4]). vm_compute. reflexivity.
    + apply (Hrev [2; 4]). vm_compute. reflexivity.
Defined.

Lemma X13_witness :
  build_items (H:=no_regex) numbered (holding by_tens true [11; 25; 12]) = Ok [25; 11; 12] ∧
  ordered true (λ x, by_tens (numbered x)) [25; 11; 12].
Proof.
  split; [vm_compute; reflexivity|].
  destruct (X13_build_items_stable (H:=no_regex) numbered (holding by_tens true [11; 25; 12])
              by_tens [25; 11; 12]) as (_ & Hord & _).
  - reflexivity.
  - vm_compute. reflexivity.
  - exact Hord.
Defined.

Lemma X14_witness :
  ∃ σ', run (H:=no_regex) [InsertItem 0 1; BeginChange; InsertItem 0 2; SetFilter not_1;
                            EndChange; RemoveItem 1] empty_system = Ok σ' ∧
        master_items (model σ') = lm_items (container σ') ∧
        NoDup (master_items (model σ')).
Proof.
  eexists. split; [vm_compute; reflexivity|].
  match goal with |- master_items (model ?σ') = _ ∧ _ =>
    destruct (X14_master_mirrors_container (H:=no_regex)
                [InsertItem 0 1; BeginChange; InsertItem 0 2; SetFilter not_1;
                 EndChange; RemoveItem 1] empty_system σ')
      as (Hm & Hnd & _)
  end.
  - by split.
  - constructor.
  - vm_compute. reflexivity.
  - split; [exact Hm|exact Hnd].
Defined.

Lemma X16_witness :
  ∃ s', detach filtered_system = Ok s' ∧
        master_items s' = [] ∧ listeners s' = ∅ ∧ items s' = [].
Proof.
  destruct (X16_detach_empties filtered_system)
    as (s' & Hs' & Hm & Hl & _ & _ & _ & _ & Hi & _).
  - apply filtered_system_attached.
  - apply NoDup_unique. vm_compute. reflexivity.
  - exists s'. split; [exact Hs'|]. split; [exact Hm|]. split; [exact Hl|].
    apply Hi.
    + simpl. lia.
    + apply NoDup_unique. vm_compute. reflexivity.
    + simpl. set_solver.
Defined.

Lemma X17_witness :
  ∃ s', updated_master_item (H:=no_regex)
          (store_set numbered 1 {[ "n"%string := VInt 10 ]}) 1
          (holding by_n false [1; 2; 3]) = Ok s' ∧
        items s' = [2; 3; 1] ∧ master_items s' = [1; 2; 3].
Proof.
  eexists. split; [vm_compute; reflexivity|]. split; [reflexivity|].
  match goal with |- master_items ?s' = _ =>
    destruct (X17_updated_master_item_events (H:=no_regex)
                (store_set numbered 1 {[ "n"%string := VInt 10 ]}) 1
                (holding by_n false [1; 2; 3]) s') as [Hm _]
  end.
  - vm_compute. reflexivity.
  - exact Hm.
Defined.

Lemma X18_witness :
  ∃ σ1 σ2, step (H:=no_regex) (InsertItem 1 3) filtered_system = Ok σ1 ∧
           step (H:=no_regex) (RemoveItem 1) σ1 = Ok σ2 ∧
           items (model σ2) = [2; 4] ∧ container σ2 = three_items.
Proof.
  eexists. 
  match goal with |- ∃ σ2, step _ _ = Ok ?σ1 ∧ _ =>
    destruct (X18_insert_then_remove_step (H:=no_regex) filtered_system σ1 1 3)
      as (σ2 & Hs2 & _ & Hc & _ & Hi & _)
  end.
  - apply filtered_system_attached.
  - apply (built_in_step (H:=no_regex)); [simpl; lia|vm_compute; reflexivity].
  - simpl. lia.
  - vm_compute. reflexivity.
  - exists σ2. split; [vm_compute; reflexivity|]. split; [exact Hs2|].
    split; [exact Hi|exact Hc].
Defined.

Lemma X19_witness :
  ∃ l' st', deepcopy 3 3 (four_objects, ∅) = Ok (l', st') ∧
            st'.2 !! 3 = Some l' ∧ deepcopy 1 3 st' = Ok (l', st').
Proof.
  destruct (deepcopy_copies four_objects four_objects_tree 3 3 four_objects ∅ 3)
    as (l' & h' & m' & Hcopy & _).
  - simpl. lia.
  - simpl. lia.
  - simpl. split; [done|]. exists false, [0; 2; 0]. split; [reflexivity|].
    repeat split; eauto.
  - reflexivity.
  - intros x x' t1 Hx. by rewrite lookup_empty in Hx.
  - destruct (X19_deepcopy_memoizes 3 3 (four_objects, ∅) l' (h', m') Hcopy)
      as (_ & _ & Hl & Hagain).
    exists l', (h', m'). split; [exact Hcopy|]. split; [exact Hl|exact (Hagain 0)].
Defined.

Lemma X20_witness :
  ∃ b, ∀ d, matches (H:=no_regex)
              (OrFilter [AndFilter [NotFilter (BaseFilter false); OrFilter []];
                         NotFilter (AndFilter [])])
              d = Ok b.
Proof.
  apply (X20_attribute_free_constant (H:=no_regex)). simpl. tauto.
Defined.
